(** * registryfs_v2: a read-only file system over a Docker/OCI registry

    A shallow embedding of [src/overlaybd/registryfs/registryfs_v2.cpp]:
    the challenge parser, the token acquirer, the URL resolver, the ranged
    blob GET and the registry file ([fstat], [get_length], [preadv]).

    The HTTP client, the clock, the credential callback, Base64 and the JSON
    decoder are outside the sources: the server is a script of responses, the
    clock a counter advanced by every call, the three pure helpers are section
    variables. *)

From Stdlib Require Import ZArith String Ascii List Bool Lia.
From stdpp Require Import base option strings gmap.

Local Open Scope Z_scope.

(** ** Strings as [estring] uses them

    photon's [estring] is a library the sources only call; its members are
    given the meaning of their [std::string] namesakes: comparisons are
    byte-wise, [trim] removes every leading and trailing character of the
    set, [split] yields the non-empty pieces. *)

Module EString.

Definition dquote : ascii := ascii_of_nat 34.
Definition comma : ascii := ascii_of_nat 44.
Definition equals : ascii := ascii_of_nat 61.

Definition empty (s : string) : bool :=
  match s with EmptyString => true | String _ _ => false end.

(** [s.starts_with(p)]: a byte-wise comparison of the first [p.size()]
    bytes. *)
Fixpoint starts_with (s p : string) {struct p} : bool :=
  match p with
  | EmptyString => true
  | String c p' =>
      match s with
      | EmptyString => false
      | String d s' => if Ascii.eqb d c then starts_with s' p' else false
      end
  end.

(** [s.substr(n)]. *)
Fixpoint substr (n : nat) (s : string) : string :=
  match n with
  | O => s
  | S n' => match s with EmptyString => EmptyString | String _ s' => substr n' s' end
  end.

(** [s.substr(0, n)]. *)
Fixpoint prefix_of (n : nat) (s : string) : string :=
  match n with
  | O => EmptyString
  | S n' => match s with EmptyString => EmptyString | String c s' => String c (prefix_of n' s') end
  end.

(** All the pieces between occurrences of [sep], empty ones included. *)
Fixpoint pieces (sep : ascii) (s : string) : list string :=
  match s with
  | EmptyString => [EmptyString]
  | String c s' =>
      if Ascii.eqb c sep then EmptyString :: pieces sep s'
      else match pieces sep s' with
           | t :: ts => String c t :: ts
           | [] => [String c EmptyString]
           end
  end.

(** [s.split(sep)]: consecutive separators are merged, so no piece is
    empty. *)
Definition split (sep : ascii) (s : string) : list string :=
  List.filter (fun t => negb (empty t)) (pieces sep s).

(** [s.find_first_of(c)], [None] for [npos]. *)
Fixpoint find_first_of (c : ascii) (s : string) : option nat :=
  match s with
  | EmptyString => None
  | String d s' => if Ascii.eqb d c then Some O else S <$> find_first_of c s'
  end.

Fixpoint ltrim (c : ascii) (s : string) : string :=
  match s with
  | EmptyString => EmptyString
  | String d s' => if Ascii.eqb d c then ltrim c s' else s
  end.

Fixpoint rtrim (c : ascii) (s : string) : string :=
  match s with
  | EmptyString => EmptyString
  | String d s' =>
      match rtrim c s' with
      | EmptyString => if Ascii.eqb d c then EmptyString else String d EmptyString
      | t => String d t
      end
  end.

(** [s.trim(c)]: every leading and trailing [c] is removed. *)
Definition trim (c : ascii) (s : string) : string := rtrim c (ltrim c s).

Definition lower (c : ascii) : ascii :=
  let n := nat_of_ascii c in
  if (Nat.leb 65 n && Nat.leb n 90)%bool then ascii_of_nat (n + 32) else c.

Fixpoint to_lower (s : string) : string :=
  match s with
  | EmptyString => EmptyString
  | String c s' => String (lower c) (to_lower s')
  end.

(** Header names compare without case. *)
Definition ieqb (a b : string) : bool := String.eqb (to_lower a) (to_lower b).

End EString.

(** ** Constants of the file *)

Definition kDockerRegistryAuthChallengeKeyValuePrefix : string := "www-authenticate".
Definition kAuthHeaderKey : string := "Authorization".
Definition kBearerAuthPrefix : string := "Bearer ".
Definition kMinimalTokenLife : Z := 30 * 1000 * 1000.
Definition kMinimalAUrlLife : Z := 300 * 1000 * 1000.
Definition kMinimalMetaLife : Z := 300 * 1000 * 1000.

Definition ENOENT : Z := 2.
Definition EPERM : Z := 1.
Definition EINVAL : Z := 22.
Definition ETIMEDOUT : Z := 110.

Definition UINT64_MAX : Z := 2 ^ 64 - 1.
(** Conversion to [uint64_t] ([size_t]). *)
Definition wrap64 (x : Z) : Z := x mod 2 ^ 64.

(** ** [str_to_kvmap] *)

(** One token [key=value]; without [=], [pos] is [npos], [substr(0, npos)]
    is the whole token and [substr(npos + 1)] = [substr(0)] is the whole
    token again. *)
Definition kv_of_token (token : string) : string * string :=
  match EString.find_first_of EString.equals token with
  | Some pos => (EString.prefix_of pos token,
                 EString.trim EString.dquote (EString.substr (S pos) token))
  | None => (token, EString.trim EString.dquote token)
  end.

(** [unordered_map::emplace] keeps the first value of a key. *)
Definition emplace (m : gmap string string) (kv : string * string) : gmap string string :=
  match m !! kv.1 with
  | Some _ => m
  | None => <[kv.1 := kv.2]> m
  end.

Definition str_to_kvmap (src : string) : gmap string string :=
  fold_left (fun ret token => emplace ret (kv_of_token token))
            (EString.split EString.comma src) ∅.

(** ** The data model *)

Inductive UrlMode := Redirect | Self.

Record UrlInfo := mkUrlInfo { mode : UrlMode; info : string }.

(** A request as the file builds it: [follow] and [retry] are 0 in every
    request of the file and are left out. *)
Record Request := mkRequest {
  req_url : string;
  req_authorization : option string;  (* value of the Authorization header *)
  req_range : option (Z * Z);         (* headers.range(from, to) *)
  req_timeout : Z
}.

(** What the client hands back after [call]: the status, the response
    headers, the body stream, what [resource_size()] reads from Content-Range
    or Content-Length, and how long the call took. *)
Record Response := mkResponse {
  status_code : Z;
  resp_headers : list (string * string);
  resp_body : string;
  resource_size : Z;
  elapsed : Z
}.

(** A default-constructed [HTTP_OP]: no call made, status -1. *)
Definition HTTP_OP_new : Response := mkResponse (-1) [] EmptyString (-1) 0.

Fixpoint headers_find (name : string) (hs : list (string * string)) : option string :=
  match hs with
  | [] => None
  | (k, v) :: hs' => if EString.ieqb k name then Some v else headers_find name hs'
  end.

(** [headers[name]]: empty when the header is absent. *)
Definition headers_get (name : string) (hs : list (string * string)) : string :=
  default EmptyString (headers_find name hs).

Inductive CacheId := ScopeTokenCache | UrlInfoCache.

Inductive Event :=
| EvHttp (rq : Request) (rs : Response)
| EvCallback (hint : string)
| EvAcquire (c : CacheId) (key : string) (hit : bool)
| EvCtorFailed (c : CacheId) (key : string)
| EvRelease (c : CacheId) (key : string) (poisoned : bool)
| EvSleep (us : Z).

Record Entry (V : Type) := mkEntry {
  e_value : V;
  e_expire : Z;
  e_refcnt : nat;
  e_poisoned : bool
}.
Arguments mkEntry {V}.
Arguments e_value {V}.
Arguments e_expire {V}.
Arguments e_refcnt {V}.
Arguments e_poisoned {V}.

(** The state a call runs in: the server's remaining script, the clock
    ([photon::now], microseconds), [errno], the file system's two caches and
    accelerator address, and the log of what was done (newest first). *)
Record World := mkWorld {
  script : list Response;
  now : Z;
  errno : Z;
  m_scope_token : gmap string (Entry string);
  m_url_info : gmap string (Entry UrlInfo);
  m_accelerate : string;
  log : list Event
}.

(** ** A state monad with a fault

    [None] is undefined behaviour: a read through a null pointer, a rapidjson
    accessor used on a value of the wrong kind. *)
Definition M (A : Type) : Type := World → option (A * World).

Definition ret {A} (a : A) : M A := fun w => Some (a, w).
Definition bind {A B} (m : M A) (k : A → M B) : M B :=
  fun w => match m w with
           | Some (a, w') => k a w'
           | None => None
           end.
Definition fault {A} : M A := fun _ => None.

Global Instance M_ret : MRet M := @ret.
Global Instance M_bind : MBind M := fun A B k m => bind m k.

(** The world after an event, a new [errno], some time. *)
Definition w_emit (e : Event) (w : World) : World :=
  mkWorld (script w) (now w) (errno w) (m_scope_token w) (m_url_info w)
          (m_accelerate w) (e :: log w).
Definition w_errno (e : Z) (w : World) : World :=
  mkWorld (script w) (now w) e (m_scope_token w) (m_url_info w)
          (m_accelerate w) (log w).
Definition w_advance (us : Z) (w : World) : World :=
  mkWorld (script w) (now w + Z.max 0 us) (errno w) (m_scope_token w) (m_url_info w)
          (m_accelerate w) (log w).

Definition get_now : M Z := fun w => Some (now w, w).
Definition emit (e : Event) : M unit := fun w => Some (tt, w_emit e w).
Definition set_errno (e : Z) : M unit := fun w => Some (tt, w_errno e w).
Definition advance (us : Z) : M unit := fun w => Some (tt, w_advance us w).

(** [LOG_ERROR_RETURN(new_errno, retv, ...)]: a zero [new_errno] leaves
    [errno] as it is. *)
Definition LOG_ERROR_RETURN {A} (new_errno : Z) (retv : A) : M A :=
  (if new_errno =? 0 then ret tt else set_errno new_errno) ;; ret retv.

(** [*p]. *)
Definition deref {A} (p : option A) : M A :=
  match p with Some a => ret a | None => fault end.

(** ** The clock and the HTTP client *)

Definition sat_add (a b : Z) : Z := Z.min UINT64_MAX (a + b).
Definition sat_sub (a b : Z) : Z := Z.max 0 (a - b).
Definition to_int64 (x : Z) : Z := (x + 2 ^ 63) mod 2 ^ 64 - 2 ^ 63.

(** [photon::Timeout]: the deadline is fixed when the object is built. *)
Record Timeout := mkTimeout { m_expire : Z }.

Definition Timeout_new (x : Z) : M Timeout :=
  t ← get_now; mret (mkTimeout (sat_add t x)).
(** [tmo.timeout()]: what is left. *)
Definition Timeout_timeout (tmo : Timeout) : M Z :=
  t ← get_now; mret (sat_sub (m_expire tmo) t).
(** [tmo.expire() < photon::now]. *)
Definition Timeout_expired (tmo : Timeout) : M bool :=
  t ← get_now; mret (m_expire tmo <? t).

(** [photon::thread_usleep]. *)
Definition thread_usleep (us : Z) : M unit :=
  advance us;; emit (EvSleep us).

(** The world after a call answered with [rs]: the script moves on, the
    clock by the time the call took. *)
Definition after_call (rq : Request) (rs : Response) (w : World) : World :=
  mkWorld (tail (script w)) (now w + Z.max 0 (elapsed rs)) (errno w)
          (m_scope_token w) (m_url_info w) (m_accelerate w) (EvHttp rq rs :: log w).

(** The next response of the script, or a failed connection (status -1) when
    the server has nothing more to say. *)
Definition next_response (w : World) : Response :=
  match script w with [] => HTTP_OP_new | r :: _ => r end.

(** [op.call()]. *)
Definition call (rq : Request) : M Response :=
  fun w => Some (next_response w, after_call rq (next_response w) w).

Definition status_ok (op : Response) : bool :=
  (status_code op =? 200) || (status_code op =? 206).

(** ** [ObjectCache] *)

(** One of the file system's caches: its name in the log, its lifetime, and
    where it lives in the world. *)
Record CacheRef (V : Type) := mkCacheRef {
  c_id : CacheId;
  c_ttl : Z;
  c_get : World → gmap string (Entry V);
  c_set : gmap string (Entry V) → World → World
}.
Arguments c_id {V}.
Arguments c_ttl {V}.
Arguments c_get {V}.
Arguments c_set {V}.

Definition scope_token_cache : CacheRef string :=
  mkCacheRef string ScopeTokenCache kMinimalTokenLife m_scope_token
    (fun m w => mkWorld (script w) (now w) (errno w) m (m_url_info w) (m_accelerate w) (log w)).

Definition url_info_cache : CacheRef UrlInfo :=
  mkCacheRef UrlInfo UrlInfoCache kMinimalAUrlLife m_url_info
    (fun m w => mkWorld (script w) (now w) (errno w) (m_scope_token w) m (m_accelerate w) (log w)).

Definition live {V} (e : Entry V) (t : Z) : bool :=
  (Nat.ltb 0 (e_refcnt e)) || (t <? e_expire e).

(** Modelled from the spec: photon's [ObjectCache] (expirecontainer.h) is a
    library the sources only call. After section 4.1 an entry is live while it
    is referenced or not yet expired; this is the live entry of [key]. *)
Definition cache_find {V} (c : CacheRef V) (key : string) (w : World) : option (Entry V) :=
  match c_get c w !! key with
  | Some e => if live e (now w) then Some e else None
  | None => None
  end.

(** A hit: one more reference. *)
Definition w_hit {V} (c : CacheRef V) (key : string) (e : Entry V) (w : World) : World :=
  w_emit (EvAcquire (c_id c) key true)
    (c_set c (<[key := mkEntry (e_value e) (e_expire e) (S (e_refcnt e)) (e_poisoned e)]>
                (c_get c w)) w).

(** A miss: a dead entry goes, and the constructor runs in this world. *)
Definition w_miss {V} (c : CacheRef V) (key : string) (w : World) : World :=
  c_set c (delete key (c_get c w)) w.

(** The constructor's value is installed with one reference. *)
Definition w_installed {V} (c : CacheRef V) (key : string) (v : V) (w : World) : World :=
  w_emit (EvAcquire (c_id c) key false)
    (c_set c (<[key := mkEntry v (now w + c_ttl c) 1 false]> (c_get c w)) w).

(** Modelled from the spec: [ObjectCache::acquire], after section 4.1. The
    live entry of the key is returned with its reference count raised;
    otherwise the constructor runs and what it returns is installed; an absent
    result is not stored. [s] is what the constructor captures by reference. *)
Definition acquire {V C} (c : CacheRef V) (key : string)
    (ctor : C → M (option V * C)) (s : C) : M (option V * C) :=
  fun w =>
    match cache_find c key w with
    | Some e => Some ((Some (e_value e), s), w_hit c key e w)
    | None =>
        match ctor s (w_miss c key w) with
        | Some ((Some v, s'), w1) => Some ((Some v, s'), w_installed c key v w1)
        | Some ((None, s'), w1) => Some ((None, s'), w_emit (EvCtorFailed (c_id c) key) w1)
        | None => None
        end
    end.

(** Modelled from the spec: [ObjectCache::release], after section 4.1. The
    count goes down; at zero the entry is dropped when it is poisoned or
    expired. *)
Definition w_release {V} (c : CacheRef V) (key : string) (poisoned : bool) (w : World)
    : World :=
  w_emit (EvRelease (c_id c) key poisoned)
    match c_get c w !! key with
    | None => w
    | Some e =>
        let n := Nat.pred (e_refcnt e) in
        let p := e_poisoned e || poisoned in
        if Nat.eqb n 0 && (p || (e_expire e <=? now w))
        then c_set c (delete key (c_get c w)) w
        else c_set c (<[key := mkEntry (e_value e) (e_expire e) n p]> (c_get c w)) w
    end.

Definition release {V} (c : CacheRef V) (key : string) (poisoned : bool) : M unit :=
  fun w => Some (tt, w_release c key poisoned w).

(** ** rapidjson, as far as [parse_token] uses it *)

Inductive JValue := JString (s : string) | JNotString.
Inductive JDoc := JObject (members : list (string * JValue)) | JNotObject.

Fixpoint FindMember (name : string) (ms : list (string * JValue)) : option JValue :=
  match ms with
  | [] => None
  | (k, v) :: ms' => if String.eqb k name then Some v else FindMember name ms'
  end.

(** [d.HasMember(name)] asserts that [d] is an object. *)
Definition HasMember (d : JDoc) (name : string) : M bool :=
  match d with
  | JObject ms => mret (bool_decide (is_Some (FindMember name ms)))
  | JNotObject => fault
  end.

(** [d[name].GetString()] asserts that the member is a string. *)
Definition GetString (d : JDoc) (name : string) : M string :=
  match d with
  | JObject ms => match FindMember name ms with
                  | Some (JString s) => mret s
                  | _ => fault
                  end
  | JNotObject => fault
  end.

(** [op.resp.read(buf, n)]: at most [n] bytes of the body. *)
Fixpoint read (n : Z) (body : string) : string :=
  match body with
  | EmptyString => EmptyString
  | String c body' => if n <=? 0 then EmptyString else String c (read (n - 1) body')
  end.

(** ** The challenge parser (lines 272-285 of [get_scope_auth]) *)

(** From the value of the www-authenticate header to [(authurl, scope)], or
    [None] where the code returns -1 with EINVAL. *)
Definition challenge_auth (challengeLine : string) : option (string * string) :=
  if negb (EString.starts_with challengeLine kBearerAuthPrefix) then None
  else
    let challengeLine := EString.substr (String.length kBearerAuthPrefix) challengeLine in
    let kv := str_to_kvmap challengeLine in
    match kv !! "realm", kv !! "service", kv !! "scope" with
    | Some realm, Some service, Some scope =>
        Some (realm +:+ "?service=" +:+ service +:+ "&scope=" +:+ scope, scope)
    | _, _, _ => None
    end.

(** ** [RegistryFSImpl_v2] *)

Section RegistryFS.

(** The password callback, [photon::net::Base64Encode] and
    [rapidjson::Document::Parse] ([None]: a parse error). *)
Variable m_callback : string → string * string.
Variable Base64Encode : string → string.
Variable json_parse : string → option JDoc.

(** Returns [(ret, authurl, scope)]; the two strings are the caller's empty
    ones unless the challenge was parsed. *)
Definition get_scope_auth (url : string) (timeout : Z) : M (Z * string * string) :=
  tmo ← Timeout_new timeout;
  t ← Timeout_timeout tmo;
  op ← call (mkRequest url None (Some (0, 0)) t);
  if status_code op =? -1 then LOG_ERROR_RETURN ENOENT (-1, EmptyString, EmptyString)
  else if negb (status_code op =? 401) && negb (status_code op =? 403)
  then mret (0, EmptyString, EmptyString)
  else
    match headers_find kDockerRegistryAuthChallengeKeyValuePrefix (resp_headers op) with
    | None => LOG_ERROR_RETURN EINVAL (-1, EmptyString, EmptyString)
    | Some challengeLine =>
        match challenge_auth challengeLine with
        | None => LOG_ERROR_RETURN EINVAL (-1, EmptyString, EmptyString)
        | Some (authurl, scope) => mret (0, authurl, scope)
        end
    end.

(** Returns [(ret, *token)]. *)
Definition parse_token (jsonStr : string) (token : string) : M (Z * string) :=
  match json_parse jsonStr with
  | None => LOG_ERROR_RETURN 0 (-1, token)
  | Some d =>
      has_token ← HasMember d "token";
      if has_token : bool then t ← GetString d "token"; mret (0, t)
      else
        has_access ← HasMember d "access_token";
        if has_access : bool then t ← GetString d "access_token"; mret (0, t)
        else LOG_ERROR_RETURN 0 (-1, token)
  end.

(** The request [authenticate] sends. *)
Definition auth_request (authurl username password : string) (t : Z) : Request :=
  let userpwd_b64 := Base64Encode (username +:+ ":" +:+ password) in
  mkRequest authurl
    (if negb (EString.empty username) then Some ("Basic " +:+ userpwd_b64) else None)
    None t.

(** Returns [(result, *token)]. *)
Definition authenticate (authurl username password : string) (token : string)
    (timeout : Z) : M (bool * string) :=
  tmo ← Timeout_new timeout;
  t ← Timeout_timeout tmo;
  op ← call (auth_request authurl username password t);
  if negb (status_code op =? 200) then LOG_ERROR_RETURN EPERM (false, token)
  else
    let body := read (16 * 1024) (resp_body op) in
    '(r, token) ← parse_token body token;
    if (status_code op =? 200) && (r =? 0) then mret (true, token)
    else LOG_ERROR_RETURN EPERM (false, token).

(** The constructor [get_actual_url] hands to [m_scope_token.acquire]; it
    captures [code] by reference. *)
Definition token_ctor (url authurl : string) (tmo : Timeout) (code : Z)
    : M (option string * Z) :=
  emit (EvCallback url);;
  let cred := m_callback url in
  t ← Timeout_timeout tmo;
  '(ok, token) ← authenticate authurl cred.1 cred.2 EmptyString t;
  if negb ok then mret (None, 401) else mret (Some token, code).

(** The request of lines 203-208 in world [w]. *)
Definition reissue_request (url tok : string) (tmo : Timeout) (w : World) : Request :=
  mkRequest url (Some ("Bearer " +:+ tok)) None (sat_sub (m_expire tmo) (now w)).

(** Lines 203-209: the second GET. [token] is the pointer, [None] for
    [nullptr]; the header value is built from [*token]. *)
Definition reissue (url : string) (token : option string) (tmo : Timeout) : M Response :=
  tok ← deref token;
  ((fun w => call (reissue_request url tok tmo w) w) : M Response).

(** [if (!scope.empty()) m_scope_token.release(scope, poisoned)]. *)
Definition w_release_scope (scope : string) (poisoned : bool) (w : World) : World :=
  if negb (EString.empty scope) then w_release scope_token_cache scope poisoned w else w.

Definition release_scope (scope : string) (poisoned : bool) : M unit :=
  fun w => Some (tt, w_release_scope scope poisoned w).

(** [info->info] of a Self-mode result: [kBearerAuthPrefix + *token] for a
    token that is there and not empty. *)
Definition bearer_info (token : option string) : string :=
  match token with
  | Some t => if negb (EString.empty t) then kBearerAuthPrefix +:+ t else EmptyString
  | None => EmptyString
  end.

(** Lines 210-233: what the resolver makes of the second response. *)
Definition url_info_of_response (scope : string) (token : option string) (op : Response)
    : M (option UrlInfo) :=
  if (300 <=? status_code op) && (status_code op <? 400) then
    let location := headers_get "Location" (resp_headers op) in
    release_scope scope false;;
    mret (Some (mkUrlInfo Redirect location))
  else if status_code op =? 200 then
    let info := bearer_info token in
    release_scope scope false;;
    mret (Some (mkUrlInfo Self info))
  else
    release_scope scope true;;
    LOG_ERROR_RETURN 0 None.

(** Lines 188-201: [token] and [code] after the scope token was asked for. *)
Definition acquire_scope_token (url authurl scope : string) (tmo : Timeout) (code : Z)
    : M (option string * Z) :=
  if negb (EString.empty scope)
  then acquire scope_token_cache scope (token_ctor url authurl tmo) code
  else mret (None, code).

(** Returns the [UrlInfo] ([None] for [nullptr]) and [code]. *)
Definition get_actual_url (url : string) (timeout : Z) (code : Z) : M (option UrlInfo * Z) :=
  tmo ← Timeout_new timeout;
  t ← Timeout_timeout tmo;
  '(r, authurl, scope) ← get_scope_auth url t;
  if r <? 0 then mret (None, code)
  else
    '(token, code) ← acquire_scope_token url authurl scope tmo code;
    if negb (EString.empty scope) && negb (bool_decide (is_Some token))
    then LOG_ERROR_RETURN 0 (None, code)
    else
      op ← reissue url token tmo;
      r ← url_info_of_response scope token op;
      mret (r, code).

(** The request of lines 138-147. *)
Definition data_request (url : string) (actual_info : UrlInfo) (accelerate : string)
    (offset count : Z) (t : Z) : Request :=
  let actual_url := match mode actual_info with Redirect => info actual_info | Self => url end in
  let actual_url :=
    if negb (EString.empty accelerate) then accelerate +:+ "/" +:+ actual_url else actual_url in
  mkRequest actual_url
    (match mode actual_info with
     | Self => if negb (EString.empty (info actual_info))
               then Some ("Bearer " +:+ info actual_info) else None
     | Redirect => None
     end)
    (Some (wrap64 offset, wrap64 (offset + count - 1))) t.

(** The constructor [get_data] hands to [m_url_info.acquire]; it captures
    [ret] by reference. *)
Definition url_info_ctor (url : string) (tmo : Timeout) (ret : Z) : M (option UrlInfo * Z) :=
  t ← Timeout_timeout tmo; get_actual_url url t ret.

(** Returns [ret] and the caller's [op]. *)
Definition get_data (url : string) (offset count : Z) (timeout : Z) (op : Response)
    : M (Z * Response) :=
  tmo ← Timeout_new timeout;
  '(actual_info, ret) ← acquire url_info_cache url (url_info_ctor url tmo) 0;
  match actual_info with
  | None => mret (ret, op)
  | Some actual_info =>
      accelerate ← (fun w => Some (m_accelerate w, w));
      t ← Timeout_timeout tmo;
      op ← call (data_request url actual_info accelerate offset count t);
      if status_ok op then release url_info_cache url false;; mret (ret, op)
      else release url_info_cache url true;; LOG_ERROR_RETURN 0 (ret, op)
  end.

Definition setAccelerateAddress (addr : string) : M Z :=
  fun w => Some (0, mkWorld (script w) (now w) (errno w) (m_scope_token w)
                            (m_url_info w) addr (log w)).

(** ** [RegistryFileImpl_v2] *)

Record RegistryFileImpl_v2 := mkFile {
  m_url : string;
  m_timeout : Z;
  m_filesize : Z
}.

Record stat := mkStat { st_mode : Z; st_size : Z }.

Definition S_IFREG : Z := 32768.
Definition S_IREAD : Z := 256.

(** The loop of [get_length] from the label [again], [retry] retries left. *)
Fixpoint get_length_again (url : string) (tmo : Timeout) (retry : nat) : M Z :=
  t ← Timeout_timeout tmo;
  '(_, op) ← get_data url 0 1 t HTTP_OP_new;
  if negb (status_ok op) then
    expired ← Timeout_expired tmo;
    if expired : bool then LOG_ERROR_RETURN ETIMEDOUT (-1)
    else if (status_code op =? 401) || (status_code op =? 403) then
      match retry with
      | S retry' => get_length_again url tmo retry'
      | O => LOG_ERROR_RETURN EPERM (-1)
      end
    else
      match retry with
      | S retry' => get_length_again url tmo retry'
      | O => LOG_ERROR_RETURN ENOENT (-1)
      end
  else mret (resource_size op).

Definition get_length (f : RegistryFileImpl_v2) (timeout : Z) : M Z :=
  tmo ← Timeout_new timeout;
  get_length_again (m_url f) tmo 3.

(** Returns [ret], [*buf] and the file. *)
Definition fstat (f : RegistryFileImpl_v2) (buf : stat) : M (Z * stat * RegistryFileImpl_v2) :=
  if m_filesize f =? 0 then
    r ← get_length f (m_timeout f);
    if r <? 0 then mret (-1, buf, f)
    else
      let f := mkFile (m_url f) (m_timeout f) (wrap64 r) in
      mret (0, mkStat (S_IFREG + S_IREAD) (to_int64 (m_filesize f)), f)
  else mret (0, mkStat (S_IFREG + S_IREAD) (to_int64 (m_filesize f)), f).

(** [iovector_view::sum()] over the lengths of the buffers. *)
Definition iov_sum (iov : list Z) : Z := wrap64 (fold_right Z.add 0 iov).

(** [op.resp.readv(iov, iovcnt)]: the body, as far as the buffers go. *)
Definition readv (op : Response) (iov : list Z) : Z :=
  Z.min (iov_sum iov) (Z.of_nat (String.length (resp_body op))).

(** The byte count of lines 358-360. *)
Definition clamp_count (iov : list Z) (offset filesize : Z) : Z :=
  let count := iov_sum iov in
  if wrap64 (count + offset) >? filesize then wrap64 (filesize - offset) else count.

(** The loop of [preadv] from the label [again]. *)
Fixpoint preadv_again (url : string) (filesize : Z) (tmo : Timeout)
    (iov : list Z) (offset : Z) (retry : nat) : M Z :=
  let count := clamp_count iov offset filesize in
  t ← Timeout_timeout tmo;
  '(_, op) ← get_data url offset count t HTTP_OP_new;
  if negb (status_ok op) then
    expired ← Timeout_expired tmo;
    if expired : bool then LOG_ERROR_RETURN ETIMEDOUT (-1)
    else
      match retry with
      | S retry' => thread_usleep 1000;; preadv_again url filesize tmo iov offset retry'
      | O => LOG_ERROR_RETURN ENOENT (-1)
      end
  else mret (readv op iov).

Definition preadv (f : RegistryFileImpl_v2) (iov : list Z) (offset : Z)
    : M (Z * RegistryFileImpl_v2) :=
  '(stret, f) ←
     (if m_filesize f =? 0 then
        '(stret, st, f) ← fstat f (mkStat 0 0);
        if stret <? 0 then mret (stret, f)
        else mret (stret, mkFile (m_url f) (m_timeout f) (wrap64 (st_size st)))
      else mret (0, f));
  if stret <? 0 then mret (-1, f)
  else
    let filesize := m_filesize f in
    tmo ← Timeout_new (m_timeout f);
    r ← preadv_again (m_url f) filesize tmo iov offset 3;
    mret (r, f).

(** ** Outcomes, for the statements below *)

(** What [authenticate] makes of the response [r] of the realm, [w1] being
    the world after the call; [None] where a rapidjson accessor is misused. *)
Definition auth_outcome (token : string) (r : Response) (w1 : World)
    : option (bool * string * World) :=
  if negb (status_code r =? 200) then Some (false, token, w_errno EPERM w1)
  else
    match json_parse (read (16 * 1024) (resp_body r)) with
    | None => Some (false, token, w_errno EPERM w1)
    | Some JNotObject => None
    | Some (JObject ms) =>
        match FindMember "token" ms with
        | Some (JString t) => Some (true, t, w1)
        | Some JNotString => None
        | None =>
            match FindMember "access_token" ms with
            | Some (JString t) => Some (true, t, w1)
            | Some JNotString => None
            | None => Some (false, token, w_errno EPERM w1)
            end
        end
    end.

(** [n] attempts of [get_length] that failed before the deadline lead from
    [w] to [w']. *)
Inductive failed_attempts (url : string) (tmo : Timeout) : nat → World → World → Prop :=
| failed_none w : failed_attempts url tmo 0 w w
| failed_more n w ret op w1 w2 :
    get_data url 0 1 (sat_sub (m_expire tmo) (now w)) HTTP_OP_new w = Some ((ret, op), w1) →
    status_ok op = false →
    (m_expire tmo <? now w1) = false →
    failed_attempts url tmo n w1 w2 →
    failed_attempts url tmo (S n) w w2.

(** A caller's calls on one file instance. *)
Inductive FileOp := OpFstat | OpPreadv (iov : list Z) (offset : Z).

(** The calls in order; the [st_size] of every [fstat] that returned 0. *)
Fixpoint run_ops (ops : list FileOp) (f : RegistryFileImpl_v2)
    : M (list Z * RegistryFileImpl_v2) :=
  match ops with
  | [] => mret ([], f)
  | OpFstat :: ops' =>
      '(r, st, f) ← fstat f (mkStat 0 0);
      '(sizes, f) ← run_ops ops' f;
      mret (if r =? 0 then st_size st :: sizes else sizes, f)
  | OpPreadv iov offset :: ops' =>
      '(_, f) ← preadv f iov offset;
      run_ops ops' f
  end.

(** The calls of [fstat] among [ops]. *)
Definition fstat_calls (ops : list FileOp) : nat :=
  length (List.filter (fun o => match o with OpFstat => true | OpPreadv _ _ => false end) ops).

(** [n] attempts of [preadv] that failed before the deadline, each followed
    by its sleep of 1000 microseconds, lead from [w] to [w']. *)
Inductive failed_reads (url : string) (filesize : Z) (tmo : Timeout) (iov : list Z)
    (offset : Z) : nat → World → World → Prop :=
| reads_none w : failed_reads url filesize tmo iov offset 0 w w
| reads_more n w ret op w1 w2 :
    get_data url offset (clamp_count iov offset filesize)
      (sat_sub (m_expire tmo) (now w)) HTTP_OP_new w = Some ((ret, op), w1) →
    status_ok op = false →
    (m_expire tmo <? now w1) = false →
    failed_reads url filesize tmo iov offset n
      (w_emit (EvSleep 1000) (w_advance 1000 w1)) w2 →
    failed_reads url filesize tmo iov offset (S n) w w2.


(** ** [open] and [stat] *)

(** [RegistryFSImpl_v2::open]: a new file with no size yet, put to [fstat]
    at once; [fs_timeout] is the file system's [m_timeout]. *)
Definition open (fs_timeout : Z) (pathname : string) : M (option RegistryFileImpl_v2) :=
  let file := mkFile pathname fs_timeout 0 in
  '(ret, _, file) ← fstat file (mkStat 0 0);
  if ret <? 0 then LOG_ERROR_RETURN 0 None else mret (Some file).

(** The constructor [stat] hands to [m_meta_size.acquire]:
    [new size_t(buf.st_size)], or null. *)
Definition meta_ctor (fs_timeout : Z) (path : string) : M (option Z) :=
  file ← open fs_timeout path;
  match file with
  | None => mret None
  | Some file =>
      '(r, buf, _) ← fstat file (mkStat 0 0);
      if r <? 0 then mret None else mret (Some (wrap64 (st_size buf)))
  end.

(** Modelled from the spec: the live entry of [key] in [m_meta_size], as
    [cache_find] has it for the other two caches. *)
Definition meta_find (meta : gmap string (Entry Z)) (key : string) (t : Z)
    : option (Entry Z) :=
  match meta !! key with
  | Some e => if live e t then Some e else None
  | None => None
  end.

(** Modelled from the spec: [m_meta_size.acquire], with the cache handed
    along beside the world; the rules are those of [acquire]. *)
Definition meta_acquire (key : string) (ctor : M (option Z))
    (meta : gmap string (Entry Z)) (w : World)
    : option (option Z * gmap string (Entry Z) * World) :=
  match meta_find meta key (now w) with
  | Some e =>
      Some (Some (e_value e),
            <[key := mkEntry (e_value e) (e_expire e) (S (e_refcnt e)) (e_poisoned e)]> meta,
            w)
  | None =>
      match ctor w with
      | Some (Some v, w1) =>
          Some (Some v, <[key := mkEntry v (now w1 + kMinimalMetaLife) 1 false]>
                          (delete key meta), w1)
      | Some (None, w1) => Some (None, delete key meta, w1)
      | None => None
      end
  end.

(** Modelled from the spec: [m_meta_size.release], the rules of [release]. *)
Definition meta_release (key : string) (poisoned : bool) (t : Z)
    (meta : gmap string (Entry Z)) : gmap string (Entry Z) :=
  match meta !! key with
  | None => meta
  | Some e =>
      let n := Nat.pred (e_refcnt e) in
      let p := e_poisoned e || poisoned in
      if Nat.eqb n 0 && (p || (e_expire e <=? t))
      then delete key meta
      else <[key := mkEntry (e_value e) (e_expire e) n p]> meta
  end.

(** [RegistryFSImpl_v2::stat]: returns [ret], [*buf] and the cache; the
    deferred release runs when the function returns. *)
Definition fs_stat (fs_timeout : Z) (path : string) (buf : stat)
    (meta : gmap string (Entry Z)) (w : World)
    : option (Z * stat * gmap string (Entry Z) * World) :=
  match meta_acquire path (meta_ctor fs_timeout path) meta w with
  | None => None
  | Some (None, meta, w1) => Some (-1, buf, meta, w1)
  | Some (Some size, meta, w1) =>
      Some (0, mkStat (S_IFREG + S_IREAD) (to_int64 size),
            meta_release path false (now w1) meta, w1)
  end.


End RegistryFS.

(** ** A scenario: a private blob behind a bearer challenge

    The exchange of the wire protocol: 401 with a challenge, a token from
    the realm, the blob. The helpers stand for the collaborators at the
    inputs the scenario uses. *)

Module Scenario.

Definition quoted (s : string) : string :=
  String EString.dquote (s +:+ String EString.dquote EmptyString).

(** [Bearer realm="R",service="S",scope="P"]. *)
Definition format_challenge (realm service scope : string) : string :=
  "Bearer realm=" +:+ quoted realm +:+ ",service=" +:+ quoted service
    +:+ ",scope=" +:+ quoted scope.

Definition realm : string := "https://auth/token".
Definition service : string := "reg".
Definition scope : string := "repository:foo:pull".
Definition url : string := "https://reg/v2/foo/blobs/sha256:abc".

Definition callback (hint : string) : string * string := ("u", "p").

Definition base64 (s : string) : string :=
  if String.eqb s "u:p" then "dTpw" else EmptyString.

(** The body [{"token":"T"}]. *)
Definition token_body : string :=
  "{" +:+ quoted "token" +:+ ":" +:+ quoted "T" +:+ "}".

Definition json (s : string) : option JDoc :=
  if String.eqb s token_body then Some (JObject [("token", JString "T")]) else None.

Definition world (responses : list Response) : World :=
  mkWorld responses 0 0 ∅ ∅ EmptyString [].

Definition challenge : Response :=
  mkResponse 401 [("WWW-Authenticate", format_challenge realm service scope)]
             EmptyString (-1) 5.
(** The same challenge with the scheme in lower case. *)
Definition lower_challenge_line : string :=
  "bearer realm=" +:+ quoted realm +:+ ",service=" +:+ quoted service
    +:+ ",scope=" +:+ quoted scope.
Definition lower_challenge : Response :=
  mkResponse 401 [("WWW-Authenticate", lower_challenge_line)] EmptyString (-1) 5.
Definition token_reply : Response := mkResponse 200 [] token_body (-1) 5.
Definition status_reply (status : Z) : Response := mkResponse status [] EmptyString (-1) 5.
Definition blob_reply (status : Z) (body : string) (size : Z) : Response :=
  mkResponse status [] body size 5.

(** The server's part in resolving the blob to Self mode, then what it says
    to the ranged GETs. *)
Definition resolving (reget : Z) (blobs : list Response) : World :=
  world (challenge :: token_reply :: status_reply reget :: blobs).

(** A public blob: the probe is answered 206, the second GET 200. *)
Definition public : World :=
  world [blob_reply 206 "0" 1048576; status_reply 200].

(** The realm refuses the credentials. *)
Definition refused : World := world [challenge; status_reply 403].

(** The blob GET is answered 401 four times; after each, the entry being
    poisoned, the blob is resolved again with the cached token. *)
Definition unauthorized : list Response :=
  [status_reply 401;
   challenge; status_reply 200; status_reply 401;
   challenge; status_reply 200; status_reply 401;
   challenge; status_reply 200; status_reply 401].

Definition authurl : string := "https://auth/token?service=reg&scope=repository:foo:pull".

Definition file (filesize : Z) : RegistryFileImpl_v2 := mkFile url UINT64_MAX filesize.

End Scenario.

(** The remaining time a [Timeout] built in [w] reports in [w]. *)
Definition remaining (w : World) (timeout : Z) : Z :=
  sat_sub (sat_add (now w) timeout) (now w).

(** The probe of [get_scope_auth]. *)
Definition probe_request (url : string) (w : World) (timeout : Z) : Request :=
  mkRequest url None (Some (0, 0)) (remaining w timeout).

(** The requests of a log, oldest first, each with its URL and its
    Authorization header. *)
Fixpoint requests (l : list Event) : list (string * option string) :=
  match l with
  | [] => []
  | EvHttp rq _ :: l' => requests l' ++ [(req_url rq, req_authorization rq)]
  | _ :: l' => requests l'
  end.

(** The value of the first token whose key is [key]. *)
Fixpoint first_value (key : string) (tokens : list string) : option string :=
  match tokens with
  | [] => None
  | t :: ts => if decide ((kv_of_token t).1 = key) then Some (kv_of_token t).2
               else first_value key ts
  end.

Fixpoint has_char (c : ascii) (s : string) : bool :=
  match s with
  | EmptyString => false
  | String d s' => Ascii.eqb d c || has_char c s'
  end.

(** The hints the password callback was called with, oldest first. *)
Fixpoint callbacks (l : list Event) : list string :=
  match l with
  | [] => []
  | EvCallback hint :: l' => callbacks l' ++ [hint]
  | _ :: l' => callbacks l'
  end.

(** Worlds whose caches already hold an entry. *)
Module Warm.

(** The token of the scope is cached and lives for a second. *)
Definition token (responses : list Response) : World :=
  mkWorld responses 0 0 {[Scenario.scope := mkEntry "T" 1000000 0 false]} ∅ EmptyString [].


Definition cdn : string := "https://cdn/sha256:abc".

(** The blob is resolved to a redirection. *)
Definition redirected (responses : list Response) : World :=
  mkWorld responses 0 0 ∅
    {[Scenario.url := mkEntry (mkUrlInfo Redirect cdn) kMinimalAUrlLife 0 false]}
    EmptyString [].

End Warm.

(** A registry with short names: the blob [b] in the scope [p]. *)
Module Small.

Definition path : string := "b".

Definition challenge : Response :=
  mkResponse 401 [("WWW-Authenticate", Scenario.format_challenge "r" "s" "p")]
             EmptyString (-1) 5.

(** The blob is resolved to Self mode, then the ranged GETs are answered. *)
Definition resolving (blobs : list Response) : World :=
  Scenario.world (challenge :: Scenario.token_reply :: Scenario.status_reply 200 :: blobs).

(** The body [[]], and a parser that knows it. *)
Definition array_body : string := "[]".

Definition json (s : string) : option JDoc :=
  if String.eqb s array_body then Some JNotObject else Scenario.json s.

End Small.




(** No entry of the cache is referenced. *)
Definition idle {V} (m : gmap string (Entry V)) : Prop :=
  ∀ k e, m !! k = Some e → e_refcnt e = 0%nat.

(** The entry of [key] is referenced once, and no other entry is. *)
Definition held {V} (key : string) (m : gmap string (Entry V)) : Prop :=
  (∃ e, m !! key = Some e ∧ e_refcnt e = 1%nat)
  ∧ ∀ k e, k ≠ key → m !! k = Some e → e_refcnt e = 0%nat.

(** Nobody holds a token or a resolved URL. *)
Definition idle_world (w : World) : Prop :=
  idle (m_scope_token w) ∧ idle (m_url_info w).


(** The statuses of the answers to the blob GETs of a piece of the log (the
    ranged requests that carry an Authorization header), oldest first. *)
Fixpoint blob_get_statuses (l : list Event) : list Z :=
  match l with
  | [] => []
  | EvHttp rq rs :: l' =>
      blob_get_statuses l'
        ++ (if bool_decide (is_Some (req_range rq))
               && bool_decide (is_Some (req_authorization rq))
            then [status_code rs] else [])
  | _ :: l' => blob_get_statuses l'
  end.


(** * Properties *)

(** ** Strings: splitting and trimming *)

Lemma app_cons (x : ascii) (a b : string) : String x a +:+ b = String x (a +:+ b).
Proof. reflexivity. Qed.

Lemma app_nil (b : string) : EmptyString +:+ b = b.
Proof. reflexivity. Qed.

Ltac push_app := rewrite ?app_cons, ?app_nil.

Lemma append_assoc' (a b c : string) : (a +:+ b) +:+ c = a +:+ (b +:+ c).
Proof.
  induction a as [|x a IH]; push_app; [reflexivity | f_equal; exact IH].
Qed.

Lemma has_char_app c a b : has_char c (a +:+ b) = has_char c a || has_char c b.
Proof.
  induction a as [|x a IH]; push_app; simpl; [reflexivity|].
  rewrite IH. now rewrite orb_assoc.
Qed.


Lemma pieces_no_sep sep s : has_char sep s = false → EString.pieces sep s = [s].
Proof.
  induction s as [|c s IH]; simpl; [reflexivity|].
  intros H. apply orb_false_iff in H as [Hc Hs].
  rewrite Hc, (IH Hs). reflexivity.
Qed.

Lemma pieces_app sep a b :
  has_char sep a = false →
  EString.pieces sep (a +:+ String sep b) = a :: EString.pieces sep b.
Proof.
  induction a as [|c a IH]; push_app; simpl.
  - intros _. now rewrite Ascii.eqb_refl.
  - intros H. apply orb_false_iff in H as [Hc Ha].
    rewrite Hc, (IH Ha). reflexivity.
Qed.

Lemma rtrim_snoc c s :
  EString.rtrim c (s +:+ String c EmptyString) = EString.rtrim c s.
Proof.
  induction s as [|d s IH]; push_app; simpl.
  - now rewrite Ascii.eqb_refl.
  - now rewrite IH.
Qed.

Lemma ltrim_length c s : (String.length (EString.ltrim c s) ≤ String.length s)%nat.
Proof.
  induction s as [|e s IH]; simpl; [lia|].
  destruct (Ascii.eqb e c); simpl; lia.
Qed.

Lemma trim_quoted s :
  EString.ltrim EString.dquote s = s →
  EString.rtrim EString.dquote s = s →
  EString.trim EString.dquote (Scenario.quoted s) = s.
Proof.
  intros Hl Hr. unfold EString.trim, Scenario.quoted.
  change (EString.ltrim EString.dquote (String EString.dquote ?x))
    with (EString.ltrim EString.dquote x).
  destruct s as [|d s]; [reflexivity|].
  push_app. simpl in Hl. simpl EString.ltrim.
  destruct (Ascii.eqb d EString.dquote) eqn:Hd.
  - exfalso. apply (f_equal String.length) in Hl. simpl in Hl.
    pose proof (ltrim_length EString.dquote s). lia.
  - rewrite <- app_cons, rtrim_snoc. exact Hr.
Qed.

Lemma starts_with_app p s : EString.starts_with (p +:+ s) p = true.
Proof.
  induction p as [|c p IH]; push_app; simpl; [reflexivity|].
  now rewrite Ascii.eqb_refl.
Qed.


Lemma substr_app p s : EString.substr (String.length p) (p +:+ s) = s.
Proof. induction p as [|c p IH]; push_app; simpl; [reflexivity | exact IH]. Qed.

Lemma has_char_quoted c s :
  Ascii.eqb EString.dquote c = false →
  has_char c s = false → has_char c (Scenario.quoted s) = false.
Proof.
  intros Hq Hs. unfold Scenario.quoted. cbn [has_char].
  rewrite Hq, has_char_app, Hs. cbn [has_char orb]. now rewrite Hq.
Qed.

Lemma has_char_param c key s :
  has_char c key = false →
  Ascii.eqb EString.dquote c = false →
  has_char c s = false → has_char c (key +:+ Scenario.quoted s) = false.
Proof.
  intros Hk Hq Hs. rewrite has_char_app, Hk. now apply has_char_quoted.
Qed.

Lemma split_challenge_params (R S P : string) :
  has_char EString.comma R = false →
  has_char EString.comma S = false →
  has_char EString.comma P = false →
  EString.split EString.comma
    ("realm=" +:+ Scenario.quoted R +:+ ",service=" +:+ Scenario.quoted S
       +:+ ",scope=" +:+ Scenario.quoted P)
  = ["realm=" +:+ Scenario.quoted R; "service=" +:+ Scenario.quoted S;
     "scope=" +:+ Scenario.quoted P].
Proof.
  intros HR HS HP.
  assert (E : "realm=" +:+ Scenario.quoted R +:+ ",service=" +:+ Scenario.quoted S
                +:+ ",scope=" +:+ Scenario.quoted P
              = ("realm=" +:+ Scenario.quoted R) +:+ String EString.comma
                  (("service=" +:+ Scenario.quoted S) +:+ String EString.comma
                     ("scope=" +:+ Scenario.quoted P))).
  { rewrite !append_assoc'. reflexivity. }
  rewrite E. unfold EString.split.
  rewrite !pieces_app, pieces_no_sep
    by (apply has_char_param; [reflexivity | reflexivity | assumption]).
  reflexivity.
Qed.

Lemma kv_of_param (key value : string) :
  has_char EString.equals key = false →
  EString.ltrim EString.dquote value = value →
  EString.rtrim EString.dquote value = value →
  kv_of_token (key +:+ String EString.equals (Scenario.quoted value)) = (key, value).
Proof.
  intros Hk Hl Hr. unfold kv_of_token.
  assert (F : EString.find_first_of EString.equals
                (key +:+ String EString.equals (Scenario.quoted value))
              = Some (String.length key)).
  { clear Hl Hr. induction key as [|c k IH]; push_app; simpl.
    - reflexivity.
    - simpl in Hk. apply orb_false_iff in Hk as [Hc Hk]. rewrite Hc, (IH Hk). reflexivity. }
  rewrite F. f_equal.
  - clear. induction key as [|c k IH]; push_app; simpl; [reflexivity | now rewrite IH].
  - replace (EString.substr (S (String.length key))
               (key +:+ String EString.equals (Scenario.quoted value)))
      with (Scenario.quoted value).
    + now apply trim_quoted.
    + clear. induction key as [|c k IH]; push_app; simpl; [reflexivity | exact IH].
Qed.

Lemma lookup_emplace (m : gmap string string) (k v k' : string) :
  emplace m (k, v) !! k' =
  match m !! k' with
  | Some x => Some x
  | None => if decide (k = k') then Some v else None
  end.
Proof.
  unfold emplace. simpl. destruct (m !! k) eqn:Hk.
  - destruct (m !! k') eqn:Hk'; [reflexivity|].
    case_decide; [congruence | reflexivity].
  - case_decide.
    + subst k'. rewrite Hk. apply lookup_insert_eq.
    + rewrite lookup_insert_ne by assumption. now destruct (m !! k').
Qed.

(** A well-formed challenge line gives back its three parameters. *)
Lemma challenge_auth_format (R S P : string) :
  has_char EString.comma R = false →
  has_char EString.comma S = false →
  has_char EString.comma P = false →
  EString.trim EString.dquote R = R ∧ EString.ltrim EString.dquote R = R →
  EString.trim EString.dquote S = S ∧ EString.ltrim EString.dquote S = S →
  EString.trim EString.dquote P = P ∧ EString.ltrim EString.dquote P = P →
  challenge_auth (Scenario.format_challenge R S P)
  = Some (R +:+ "?service=" +:+ S +:+ "&scope=" +:+ P, P).
Proof.
  intros HR HS HP [TR LR] [TS LS] [TP LP].
  unfold EString.trim in TR, TS, TP. rewrite LR in TR. rewrite LS in TS. rewrite LP in TP.
  unfold challenge_auth, Scenario.format_challenge.
  change ("Bearer realm=" +:+ ?x) with (kBearerAuthPrefix +:+ ("realm=" +:+ x)).
  rewrite starts_with_app, substr_app. simpl negb. cbv iota.
  unfold str_to_kvmap. rewrite split_challenge_params by assumption.
  change ("realm=" +:+ ?x) with ("realm" +:+ String EString.equals x).
  change ("service=" +:+ ?x) with ("service" +:+ String EString.equals x).
  change ("scope=" +:+ ?x) with ("scope" +:+ String EString.equals x).
  simpl fold_left.
  rewrite !kv_of_param by (assumption || reflexivity).
  rewrite !lookup_emplace, !lookup_empty.
  repeat case_decide; done.
Qed.

Lemma str_to_kvmap_fold (tokens : list string) (m : gmap string string) (key : string) :
  fold_left (fun ret token => emplace ret (kv_of_token token)) tokens m !! key
  = match m !! key with
    | Some x => Some x
    | None => first_value key tokens
    end.
Proof.
  revert m. induction tokens as [|t ts IH]; intros m; simpl.
  - now destruct (m !! key).
  - rewrite IH. destruct (kv_of_token t) as [k v] eqn:E.
    rewrite lookup_emplace. simpl.
    destruct (m !! key); [reflexivity|]. now case_decide.
Qed.

(** ** Running the monad *)

Ltac munfold :=
  unfold mbind, M_bind, mret, M_ret, bind, ret, fault in *.

Lemma call_script rq r rest w :
  script w = r :: rest → call rq w = Some (r, after_call rq r w).
Proof. intros H. unfold call, next_response. now rewrite H. Qed.

Ltac zcases :=
  repeat match goal with
    | |- context [Z.eqb ?a ?b] => destruct (Z.eqb_spec a b); try lia
    | |- context [Z.leb ?a ?b] => destruct (Z.leb_spec a b); try lia
    | |- context [Z.ltb ?a ?b] => destruct (Z.ltb_spec a b); try lia
    end.

(** A probe that is not challenged: no header is read. *)
Lemma get_scope_auth_open url timeout w :
  status_code (next_response w) ≠ -1 →
  status_code (next_response w) ≠ 401 →
  status_code (next_response w) ≠ 403 →
  get_scope_auth url timeout w
  = Some ((0, EmptyString, EmptyString),
          after_call (probe_request url w timeout) (next_response w) w).
Proof.
  intros H1 H2 H3. unfold get_scope_auth, Timeout_new, Timeout_timeout, get_now, call.
  munfold. cbn [m_expire]. zcases; reflexivity.
Qed.

(** A challenged probe: the header value goes to the parser. *)
Lemma get_scope_auth_challenged url timeout w r rest line :
  script w = r :: rest →
  status_code r = 401 ∨ status_code r = 403 →
  headers_find kDockerRegistryAuthChallengeKeyValuePrefix (resp_headers r) = Some line →
  get_scope_auth url timeout w
  = Some (match challenge_auth line with
          | Some (authurl, scope) =>
              ((0, authurl, scope), after_call (probe_request url w timeout) r w)
          | None =>
              ((-1, EmptyString, EmptyString),
               w_errno EINVAL (after_call (probe_request url w timeout) r w))
          end).
Proof.
  intros Hs Hst Hh. unfold get_scope_auth, Timeout_new, Timeout_timeout, get_now.
  munfold. cbn [m_expire]. rewrite (call_script _ r rest w Hs), Hh.
  destruct (challenge_auth line) as [[a s]|];
    destruct Hst as [-> | ->]; reflexivity.
Qed.

(** ** The challenge parser *)

(** C6, as the code has it: the prefix [Bearer ] is compared byte by byte, so
    only that spelling is accepted; the rest is split on commas, each value
    loses its double quotes, the first value of a key wins, and the three keys
    realm, service and scope are all needed; without them, or without the
    prefix, [get_scope_auth] fails with EINVAL. On success the authentication
    URL is realm?service=service&scope=scope, the values as they stand. *)
Theorem challenge_parser :
  (∀ line, EString.starts_with line kBearerAuthPrefix = false → challenge_auth line = None) ∧
  (∀ rest key,
     str_to_kvmap rest !! key = first_value key (EString.split EString.comma rest)) ∧
  (∀ rest,
     challenge_auth (kBearerAuthPrefix +:+ rest) =
     match str_to_kvmap rest !! "realm", str_to_kvmap rest !! "service",
           str_to_kvmap rest !! "scope" with
     | Some realm, Some service, Some scope =>
         Some (realm +:+ "?service=" +:+ service +:+ "&scope=" +:+ scope, scope)
     | _, _, _ => None
     end) ∧
  (∀ R S P,
     has_char EString.comma R = false →
     has_char EString.comma S = false →
     has_char EString.comma P = false →
     EString.trim EString.dquote R = R ∧ EString.ltrim EString.dquote R = R →
     EString.trim EString.dquote S = S ∧ EString.ltrim EString.dquote S = S →
     EString.trim EString.dquote P = P ∧ EString.ltrim EString.dquote P = P →
     challenge_auth (Scenario.format_challenge R S P)
     = Some (R +:+ "?service=" +:+ S +:+ "&scope=" +:+ P, P)) ∧
  (∀ url timeout w r rest line,
     script w = r :: rest →
     status_code r = 401 ∨ status_code r = 403 →
     headers_find kDockerRegistryAuthChallengeKeyValuePrefix (resp_headers r) = Some line →
     match challenge_auth line with
     | Some (authurl, scope) =>
         ∃ w', get_scope_auth url timeout w = Some ((0, authurl, scope), w')
               ∧ errno w' = errno w
     | None =>
         ∃ w', get_scope_auth url timeout w = Some ((-1, EmptyString, EmptyString), w')
               ∧ errno w' = EINVAL
     end).
Proof.
  split; [|split; [|split; [|split]]].
  - intros line H. unfold challenge_auth. now rewrite H.
  - intros rest key. unfold str_to_kvmap. rewrite str_to_kvmap_fold.
    now rewrite lookup_empty.
  - intros rest. unfold challenge_auth.
    rewrite starts_with_app, substr_app. reflexivity.
  - exact challenge_auth_format.
  - intros url timeout w r rest line Hs Hst Hh.
    rewrite (get_scope_auth_challenged url timeout w r rest line Hs Hst Hh).
    destruct (challenge_auth line) as [[a s]|]; eexists; split; reflexivity.
Qed.

Lemma challenge_parser_witness :
  challenge_auth (Scenario.format_challenge Scenario.realm Scenario.service Scenario.scope)
  = Some ("https://auth/token?service=reg&scope=repository:foo:pull", "repository:foo:pull")
  ∧ ∃ w', get_scope_auth Scenario.url 1000 (Scenario.world [Scenario.challenge])
          = Some ((0, "https://auth/token?service=reg&scope=repository:foo:pull",
                   "repository:foo:pull"), w')
          ∧ errno w' = 0.
Proof.
  split.
  - apply (proj1 (proj2 (proj2 (proj2 challenge_parser))) Scenario.realm Scenario.service
             Scenario.scope); try reflexivity; split; reflexivity.
  - exact (proj2 (proj2 (proj2 (proj2 challenge_parser))) Scenario.url 1000
             (Scenario.world [Scenario.challenge]) Scenario.challenge []
             (Scenario.format_challenge Scenario.realm Scenario.service Scenario.scope)
             eq_refl (or_introl eq_refl) eq_refl).
Defined.

(** C6 as stated fails: a challenge spelled [bearer ...] has the prefix when
    case is ignored, and is refused with EINVAL. *)
Lemma lowercase_bearer_refused :
  EString.starts_with (EString.to_lower Scenario.lower_challenge_line)
                      (EString.to_lower kBearerAuthPrefix) = true
  ∧ challenge_auth Scenario.lower_challenge_line = None
  ∧ ∃ w', get_scope_auth Scenario.url 1000 (Scenario.world [Scenario.lower_challenge])
          = Some ((-1, EmptyString, EmptyString), w')
          ∧ errno w' = EINVAL.
Proof.
  split; [reflexivity|]. split; [reflexivity|].
  eexists. split; reflexivity.
Qed.

(** ** The file system and the file, for any collaborators *)

Section Properties.

Variable m_callback : string → string * string.
Variable Base64Encode : string → string.
Variable json_parse : string → option JDoc.

(** The tactics name the definitions before the abbreviations below give
    their names to the definitions applied to the collaborators. *)
Ltac unfold_clock := unfold Timeout_new, Timeout_timeout, Timeout_expired, get_now.
Ltac unfold_authenticate :=
  unfold authenticate, parse_token, HasMember, GetString, LOG_ERROR_RETURN, set_errno, call.
Ltac unfold_token_ctor := unfold token_ctor, emit.
Ltac unfold_get_actual_url := unfold get_actual_url.
Ltac unfold_acquire_scope_token := unfold acquire_scope_token, acquire.
Ltac unfold_response :=
  unfold url_info_of_response, release_scope, release, LOG_ERROR_RETURN, set_errno.
Ltac unfold_get_data := unfold get_data, call, release, LOG_ERROR_RETURN.
Ltac unfold_url_info_ctor := unfold url_info_ctor.
Ltac unfold_fstat := unfold fstat.
Ltac unfold_get_length := unfold get_length.
Ltac unfold_preadv := unfold preadv.
Ltac simpl_get_length_again := cbn [get_length_again].
Ltac simpl_preadv_again := cbn [preadv_again].
Ltac simpl_run_ops := cbn [run_ops].
Ltac unfold_open := unfold open.
Ltac unfold_meta_ctor := unfold meta_ctor.
Ltac unfold_fs_stat := unfold fs_stat, meta_acquire.

Local Abbreviation parse_token := (parse_token json_parse).
Local Abbreviation auth_request := (auth_request Base64Encode).
Local Abbreviation auth_outcome := (auth_outcome json_parse).
Local Abbreviation authenticate := (authenticate Base64Encode json_parse).
Local Abbreviation token_ctor := (token_ctor m_callback Base64Encode json_parse).
Local Abbreviation acquire_scope_token :=
  (acquire_scope_token m_callback Base64Encode json_parse).
Local Abbreviation get_actual_url := (get_actual_url m_callback Base64Encode json_parse).
Local Abbreviation url_info_ctor := (url_info_ctor m_callback Base64Encode json_parse).
Local Abbreviation get_data := (get_data m_callback Base64Encode json_parse).
Local Abbreviation get_length_again :=
  (get_length_again m_callback Base64Encode json_parse).
Local Abbreviation get_length := (get_length m_callback Base64Encode json_parse).
Local Abbreviation fstat := (fstat m_callback Base64Encode json_parse).
Local Abbreviation preadv_again := (preadv_again m_callback Base64Encode json_parse).
Local Abbreviation preadv := (preadv m_callback Base64Encode json_parse).
Local Abbreviation failed_attempts := (failed_attempts m_callback Base64Encode json_parse).
Local Abbreviation run_ops := (run_ops m_callback Base64Encode json_parse).
Local Abbreviation failed_reads := (failed_reads m_callback Base64Encode json_parse).
Local Abbreviation open := (open m_callback Base64Encode json_parse).
Local Abbreviation meta_ctor := (meta_ctor m_callback Base64Encode json_parse).
Local Abbreviation fs_stat := (fs_stat m_callback Base64Encode json_parse).

(** ** The token acquirer *)

Lemma authenticate_run authurl user pass token timeout w :
  authenticate authurl user pass token timeout w
  = (let r := next_response w in
     match auth_outcome token r
             (after_call (auth_request authurl user pass (remaining w timeout)) r w) with
     | Some (ok, token', w') => Some ((ok, token'), w')
     | None => None
     end).
Proof.
  unfold_authenticate. unfold auth_outcome. unfold_clock. munfold.
  cbn [m_expire]. fold (remaining w timeout). cbv zeta.
  destruct (status_code (next_response w) =? 200) eqn:E; cbn [negb]; [|reflexivity].
  destruct (json_parse _) as [[ms|]|]; [| reflexivity | reflexivity].
  destruct (FindMember "token" ms) as [[t|]|] eqn:F1; cbn; try reflexivity.
  destruct (FindMember "access_token" ms) as [[t|]|] eqn:F2; cbn; reflexivity.
Qed.

Lemma read_length n body : Z.of_nat (String.length (read n body)) ≤ Z.max 0 n.
Proof.
  revert n. induction body as [|c body IH]; intros n; simpl; [lia|].
  destruct (Z.leb_spec n 0); simpl; [lia|]. specialize (IH (n - 1)). lia.
Qed.

Lemma read_prefix n body : ∃ tail, body = read n body +:+ tail.
Proof.
  revert n. induction body as [|c body IH]; intros n; simpl.
  - now exists EmptyString.
  - destruct (n <=? 0); [now eexists|].
    destruct (IH (n - 1)) as [tail E]. exists tail. push_app. now rewrite <- E.
Qed.

Lemma auth_outcome_frame token r w1 ok token' w' :
  auth_outcome token r w1 = Some (ok, token', w') →
  (w' = w1 ∨ w' = w_errno EPERM w1) ∧ (ok = false → w' = w_errno EPERM w1 ∧ token' = token).
Proof.
  unfold auth_outcome. intros H.
  repeat match type of H with
         | context [if ?b then _ else _] => destruct b
         | context [match ?x with _ => _ end] => destruct x
         end;
    inversion H; subst; split; auto; intros; try discriminate; auto.
Qed.

Lemma token_ctor_run url authurl tmo code w :
  token_ctor url authurl tmo code w
  = match authenticate authurl (m_callback url).1 (m_callback url).2 EmptyString
            (sat_sub (m_expire tmo) (now w)) (w_emit (EvCallback url) w) with
    | Some ((true, token), w1) => Some ((Some token, code), w1)
    | Some ((false, token), w1) => Some ((None, 401), w1)
    | None => None
    end.
Proof.
  unfold_token_ctor. unfold_clock. munfold. cbn [now w_emit].
  destruct (authenticate _ _ _ _ _ _) as [[[[] token] w1]|]; reflexivity.
Qed.

(** X22: the realm is asked with a Basic header exactly when the user name
    is not empty; a status other than 200 fails; on 200 the first 16 KiB of
    the body are parsed, and of an object whose members token and
    access_token are strings or absent the member token is taken if there is
    one and access_token otherwise, while a body that does not parse or has
    neither fails; a failure sets EPERM, makes the constructor of the scope
    token return null with code 401, and leaves no entry in the cache; a
    success returns the token with the code untouched and installs it with
    one reference and the lifetime of the token cache. *)
Theorem token_acquisition :
  (∀ authurl user pass t,
     req_url (auth_request authurl user pass t) = authurl ∧
     req_authorization (auth_request authurl user pass t)
     = if EString.empty user then None
       else Some ("Basic " +:+ Base64Encode (user +:+ ":" +:+ pass))) ∧
  (∀ body, Z.of_nat (String.length (read (16 * 1024) body)) ≤ 16 * 1024
           ∧ ∃ tail, body = read (16 * 1024) body +:+ tail) ∧
  (∀ authurl user pass token timeout w,
     let r := next_response w in
     let w1 := after_call (auth_request authurl user pass (remaining w timeout)) r w in
     (status_code r ≠ 200 →
      authenticate authurl user pass token timeout w
      = Some ((false, token), w_errno EPERM w1)) ∧
     (status_code r = 200 → json_parse (read (16 * 1024) (resp_body r)) = None →
      authenticate authurl user pass token timeout w
      = Some ((false, token), w_errno EPERM w1)) ∧
     (∀ ms, status_code r = 200 →
        json_parse (read (16 * 1024) (resp_body r)) = Some (JObject ms) →
        (∀ t, FindMember "token" ms = Some (JString t) →
              authenticate authurl user pass token timeout w = Some ((true, t), w1)) ∧
        (∀ t, FindMember "token" ms = None →
              FindMember "access_token" ms = Some (JString t) →
              authenticate authurl user pass token timeout w = Some ((true, t), w1)) ∧
        (FindMember "token" ms = None → FindMember "access_token" ms = None →
         authenticate authurl user pass token timeout w
         = Some ((false, token), w_errno EPERM w1)))) ∧
  (∀ url authurl scope tmo code w token w1,
     cache_find scope_token_cache scope w = None →
     authenticate authurl (m_callback url).1 (m_callback url).2 EmptyString
       (sat_sub (m_expire tmo) (now w))
       (w_emit (EvCallback url) (w_miss scope_token_cache scope w))
     = Some ((false, token), w1) →
     ∃ w', acquire scope_token_cache scope (token_ctor url authurl tmo) code w
           = Some ((None, 401), w')
           ∧ m_scope_token w' !! scope = None
           ∧ errno w' = EPERM
           ∧ log w' = EvCtorFailed ScopeTokenCache scope :: log w1) ∧
  (∀ url authurl scope tmo code w tok w1,
     cache_find scope_token_cache scope w = None →
     authenticate authurl (m_callback url).1 (m_callback url).2 EmptyString
       (sat_sub (m_expire tmo) (now w))
       (w_emit (EvCallback url) (w_miss scope_token_cache scope w))
     = Some ((true, tok), w1) →
     ∃ w', acquire scope_token_cache scope (token_ctor url authurl tmo) code w
           = Some ((Some tok, code), w')
           ∧ m_scope_token w' !! scope
             = Some (mkEntry tok (now w1 + kMinimalTokenLife) 1 false)
           ∧ errno w' = errno w1
           ∧ log w' = EvAcquire ScopeTokenCache scope false :: log w1).
Proof.
  split; [|split; [|split; [|split]]].
  - intros authurl user pass t. unfold auth_request. cbn.
    now destruct (EString.empty user).
  - intros body. split; [apply (read_length (16 * 1024)) | apply read_prefix].
  - intros authurl user pass token timeout w r w1. subst r w1.
    repeat split.
    + intros H. rewrite authenticate_run. cbv zeta. unfold auth_outcome.
      destruct (Z.eqb_spec (status_code (next_response w)) 200); [contradiction|].
      reflexivity.
    + intros H P. rewrite authenticate_run. cbv zeta. unfold auth_outcome.
      rewrite H, P. reflexivity.
    + intros t F. rewrite authenticate_run. cbv zeta. unfold auth_outcome.
      rewrite H, H0, F. reflexivity.
    + intros t F1 F2. rewrite authenticate_run. cbv zeta. unfold auth_outcome.
      rewrite H, H0, F1, F2. reflexivity.
    + intros F1 F2. rewrite authenticate_run. cbv zeta. unfold auth_outcome.
      rewrite H, H0, F1, F2. reflexivity.
  - intros url authurl scope tmo code w token w1 Hmiss Hauth.
    unfold acquire. rewrite Hmiss, token_ctor_run.
    change (now (w_miss scope_token_cache scope w)) with (now w).
    rewrite Hauth. eexists. split; [reflexivity|].
    rewrite authenticate_run in Hauth. cbv zeta in Hauth.
    destruct (auth_outcome _ _ _) as [[[ok tok'] w'']|] eqn:E; [|discriminate].
    inversion Hauth; subst ok tok' w''. clear Hauth.
    apply auth_outcome_frame in E as [_ E]. destruct (E eq_refl) as [-> _].
    split; [|split; reflexivity].
    cbn. apply lookup_delete_eq.
  - intros url authurl scope tmo code w tok w1 Hmiss Hauth.
    unfold acquire. rewrite Hmiss, token_ctor_run.
    change (now (w_miss scope_token_cache scope w)) with (now w).
    rewrite Hauth. eexists. split; [reflexivity|].
    split; [cbn; apply lookup_insert_eq | split; reflexivity].
Qed.

(** C8: the code fails the claim. [parse_token] asks the document for its
    members without asking what the document is: a body that is JSON but not
    an object (an array, a number), or whose member token (or, token being
    absent, access_token) is not a string, breaks the precondition of
    [HasMember] or [GetString], and [authenticate] returns nothing at all,
    where the claim has the acquisition fail. *)
Theorem token_reply_not_type_checked authurl user pass token timeout w :
  let doc := json_parse (read (16 * 1024) (resp_body (next_response w))) in
  status_code (next_response w) = 200 →
  (doc = Some JNotObject → authenticate authurl user pass token timeout w = None)
  ∧ (∀ ms, doc = Some (JObject ms) → FindMember "token" ms = Some JNotString →
           authenticate authurl user pass token timeout w = None)
  ∧ (∀ ms, doc = Some (JObject ms) → FindMember "token" ms = None →
           FindMember "access_token" ms = Some JNotString →
           authenticate authurl user pass token timeout w = None).
Proof.
  intros doc Hs. subst doc.
  rewrite authenticate_run. cbv zeta. unfold auth_outcome. rewrite Hs.
  change (200 =? 200) with true. cbn [negb].
  split; [|split].
  - intros ->. reflexivity.
  - intros ms -> ->. reflexivity.
  - intros ms -> -> ->. reflexivity.
Qed.

(** ** The URL resolver *)

Lemma get_scope_auth_log url timeout w x w1 :
  get_scope_auth url timeout w = Some (x, w1) →
  log w1 = EvHttp (probe_request url w timeout) (next_response w) :: log w
  ∧ m_scope_token w1 = m_scope_token w ∧ m_url_info w1 = m_url_info w
  ∧ now w1 = now w + Z.max 0 (elapsed (next_response w))
  ∧ (x.1.1 = 0 ∨ x.1.1 = -1).
Proof.
  unfold get_scope_auth, LOG_ERROR_RETURN, set_errno, call. unfold_clock. munfold.
  cbn [m_expire]. fold (remaining w timeout). fold (probe_request url w timeout).
  intros H.
  repeat match type of H with
         | context [if ?b then _ else _] => destruct b
         | context [match ?x with _ => _ end] => destruct x
         end;
    inversion H; subst; cbn; repeat split; auto.
Qed.

(** The resolver, stage by stage. *)
Lemma get_actual_url_stages url timeout code w :
  get_actual_url url timeout code w
  = (let tmo := mkTimeout (sat_add (now w) timeout) in
     match get_scope_auth url (remaining w timeout) w with
     | None => None
     | Some ((r, authurl, scope), w1) =>
         if r <? 0 then Some ((None, code), w1)
         else
           match acquire_scope_token url authurl scope tmo code w1 with
           | None => None
           | Some ((token, code'), w2) =>
               if negb (EString.empty scope) && negb (bool_decide (is_Some token))
               then Some ((None, code'), w2)
               else
                 match reissue url token tmo w2 with
                 | None => None
                 | Some (op, w3) =>
                     match url_info_of_response scope token op w3 with
                     | None => None
                     | Some (r', w4) => Some ((r', code'), w4)
                     end
                 end
           end
     end).
Proof.
  unfold_get_actual_url. unfold_clock. unfold LOG_ERROR_RETURN. munfold.
  cbn [m_expire]. fold (remaining w timeout). cbv zeta.
  destruct (get_scope_auth _ _ _) as [[[[r authurl] scope] w1]|]; [|reflexivity].
  destruct (r <? 0); [reflexivity|].
  destruct (acquire_scope_token url authurl scope _ code w1) as [[[token code'] w2]|];
    [|reflexivity].
  destruct (negb (EString.empty scope) && negb (bool_decide (is_Some token)));
    [reflexivity|].
  destruct (reissue url token _ w2) as [[op w3]|]; [|reflexivity].
  destruct (url_info_of_response scope token op w3) as [[r' w4]|]; reflexivity.
Qed.

Lemma reissue_run url tok tmo w :
  reissue url (Some tok) tmo w
  = Some (next_response w, after_call (reissue_request url tok tmo w) (next_response w) w).
Proof. reflexivity. Qed.

Lemma url_info_of_response_run scope token op w :
  url_info_of_response scope token op w
  = if (300 <=? status_code op) && (status_code op <? 400)
    then Some (Some (mkUrlInfo Redirect (headers_get "Location" (resp_headers op))),
               w_release_scope scope false w)
    else if status_code op =? 200
    then Some (Some (mkUrlInfo Self (bearer_info token)), w_release_scope scope false w)
    else Some (None, w_release_scope scope true w).
Proof.
  unfold_response. unfold w_release_scope, bearer_info. munfold.
  destruct ((300 <=? status_code op) && (status_code op <? 400));
    [destruct (negb (EString.empty scope)); reflexivity|].
  destruct (status_code op =? 200);
    destruct (negb (EString.empty scope)); reflexivity.
Qed.

Lemma w_release_scope_token_log scope poisoned w :
  log (w_release scope_token_cache scope poisoned w)
  = EvRelease ScopeTokenCache scope poisoned :: log w.
Proof.
  unfold w_release. cbn. destruct (m_scope_token w !! scope) as [e|]; [|reflexivity].
  destruct (_ && _); reflexivity.
Qed.

Lemma w_release_url_info_log url poisoned w :
  log (w_release url_info_cache url poisoned w)
  = EvRelease UrlInfoCache url poisoned :: log w.
Proof.
  unfold w_release. cbn. destruct (m_url_info w !! url) as [e|]; [|reflexivity].
  destruct (_ && _); reflexivity.
Qed.

(** With a token in hand the second GET is sent and its response decides. *)
Lemma get_actual_url_with_token url timeout code w authurl scope w1 tok code' w2 :
  get_scope_auth url (remaining w timeout) w = Some ((0, authurl, scope), w1) →
  acquire_scope_token url authurl scope (mkTimeout (sat_add (now w) timeout)) code w1
  = Some ((Some tok, code'), w2) →
  get_actual_url url timeout code w
  = match url_info_of_response scope (Some tok) (next_response w2)
            (after_call (reissue_request url tok (mkTimeout (sat_add (now w) timeout)) w2)
                        (next_response w2) w2) with
    | Some (r, w4) => Some ((r, code'), w4)
    | None => None
    end.
Proof.
  intros H1 H2. rewrite get_actual_url_stages. cbv zeta. rewrite H1.
  change (0 <? 0) with false. cbv iota. rewrite H2.
  replace (negb (bool_decide (is_Some (Some tok)))) with false
    by (symmetry; apply negb_false_iff, bool_decide_eq_true; eauto).
  rewrite andb_false_r, reissue_run. reflexivity.
Qed.

Lemma authenticate_log authurl user pass token timeout w x w' :
  authenticate authurl user pass token timeout w = Some (x, w') →
  log w' = EvHttp (auth_request authurl user pass (remaining w timeout)) (next_response w)
             :: log w
  ∧ m_scope_token w' = m_scope_token w ∧ m_url_info w' = m_url_info w.
Proof.
  rewrite authenticate_run. cbv zeta. intros H.
  destruct (auth_outcome _ _ _) as [[[ok tok] w'']|] eqn:E; [|discriminate].
  inversion H; subst. apply auth_outcome_frame in E as [[-> | ->] _]; auto.
Qed.

(** The three ways [acquire_scope_token] ends: no scope, a token (from the
    cache or from the realm), or a failed constructor with code 401. *)
Lemma acquire_scope_token_cases url authurl scope tmo code w1 token code' w2 :
  acquire_scope_token url authurl scope tmo code w1 = Some ((token, code'), w2) →
  (EString.empty scope = true ∧ token = None ∧ code' = code ∧ w2 = w1)
  ∨ (EString.empty scope = false ∧ code' = code
     ∧ ∃ tok hit new, token = Some tok
         ∧ log w2 = EvAcquire ScopeTokenCache scope hit :: new ++ log w1
         ∧ (new = [] ∨ ∃ rq r, new = [EvHttp rq r; EvCallback url]))
  ∨ (EString.empty scope = false ∧ token = None ∧ code' = 401
     ∧ ∃ rq r, log w2 = EvCtorFailed ScopeTokenCache scope
                          :: EvHttp rq r :: EvCallback url :: log w1).
Proof.
  unfold_acquire_scope_token.
  destruct (EString.empty scope); cbn [negb].
  { intros H. inversion H; subst. left. auto. }
  destruct (cache_find scope_token_cache scope w1) as [e|].
  - intros H. inversion H; subst. right. left. repeat split.
    exists (e_value e), true, []. auto.
  - rewrite token_ctor_run.
    destruct (authenticate _ _ _ _ _ _) as [[[[] tok] w']|] eqn:E; [| |discriminate];
      intros H; inversion H; subst; apply authenticate_log in E as [E _]; right.
    + left. repeat split. exists tok, false. eexists [_; _].
      cbn. rewrite E. split; [reflexivity|]. split; [reflexivity|]. right. eauto.
    + right. repeat split. cbn. rewrite E. eexists _, _. reflexivity.
Qed.

Lemma acquire_scope_token_some url authurl scope tmo code w1 tok code' w2 :
  acquire_scope_token url authurl scope tmo code w1 = Some ((Some tok, code'), w2) →
  EString.empty scope = false ∧ code' = code
  ∧ ∃ hit new, log w2 = EvAcquire ScopeTokenCache scope hit :: new ++ log w1.
Proof.
  intros H. apply acquire_scope_token_cases in H
    as [(_ & ? & _) | [(Hs & Hc & t & hit & new & _ & Hl & _) | (_ & ? & _)]];
    try discriminate.
  eauto.
Qed.

(** What the resolver adds to the log, and when it sets the code. *)
Lemma get_actual_url_log url timeout code w r code' w' :
  get_actual_url url timeout code w = Some ((r, code'), w') →
  ∃ new, log w' = new ++ log w
    ∧ ((code' = 401 ∧ r = None
        ∧ ∃ scope new', new = EvCtorFailed ScopeTokenCache scope :: new')
       ∨ (code' = code ∧ ∀ scope, ¬ In (EvCtorFailed ScopeTokenCache scope) new)).
Proof.
  rewrite get_actual_url_stages. cbv zeta.
  destruct (get_scope_auth url (remaining w timeout) w) as [[[[r0 authurl] scope] w1]|] eqn:E1;
    [|discriminate].
  apply get_scope_auth_log in E1 as (L1 & _).
  destruct (r0 <? 0).
  { intros H. inversion H; subst. eexists [_]. split; [cbn; now rewrite L1|].
    right. split; [reflexivity|]. intros s [Hs|[]]. discriminate. }
  destruct (acquire_scope_token url authurl scope _ code w1) as [[[token c2] w2]|] eqn:E2;
    [|discriminate].
  apply acquire_scope_token_cases in E2
    as [(Hs & -> & -> & ->) | [(Hs & -> & tok & hit & new & -> & L2 & Hn) | (Hs & -> & -> & rq & r2 & L2)]];
    rewrite Hs; cbn [negb andb bool_decide].
  - discriminate.
  - replace (negb (bool_decide (is_Some (Some tok)))) with false
      by (symmetry; apply negb_false_iff, bool_decide_eq_true; eauto).
    rewrite reissue_run, url_info_of_response_run.
    unfold w_release_scope. rewrite Hs. cbn [negb].
    intros H.
    assert (∃ p, log w' = EvRelease ScopeTokenCache scope p
                   :: EvHttp (reissue_request url tok (mkTimeout (sat_add (now w) timeout)) w2)
                        (next_response w2) :: log w2 ∧ code' = code) as (p & L3 & ->).
    { repeat match type of H with
             | context [if ?b then _ else _] => destruct b
             end; inversion H; subst; eexists; rewrite w_release_scope_token_log; eauto. }
    rewrite L3, L2, L1.
    destruct Hn as [-> | (rq & r2 & ->)].
    + eexists [_; _; _; _]. split; [reflexivity|]. right. split; [reflexivity|].
      intros s Hin. cbn in Hin. intuition discriminate.
    + eexists [_; _; _; _; _; _]. split; [reflexivity|]. right. split; [reflexivity|].
      intros s Hin. cbn in Hin. intuition discriminate.
  - replace (negb (bool_decide (is_Some (@None string)))) with true
      by (symmetry; apply negb_true_iff, bool_decide_eq_false; intros [? ?]; discriminate).
    intros H. inversion H; subst. rewrite L2, L1.
    eexists [_; _; _; _]. split; [reflexivity|]. left. eauto.
Qed.

(** C9: once the scope token is held, every way out of the resolver releases
    it exactly once: after the acquisition the log gains the second GET and
    one release, clean when a [UrlInfo] is returned (a redirect or status
    200), poisoned when the resolver fails. *)
Theorem scope_token_released_once url timeout code w authurl scope w1 tok code' w2 :
  get_scope_auth url (remaining w timeout) w = Some ((0, authurl, scope), w1) →
  acquire_scope_token url authurl scope (mkTimeout (sat_add (now w) timeout)) code w1
  = Some ((Some tok, code'), w2) →
  let op := next_response w2 in
  let rq := reissue_request url tok (mkTimeout (sat_add (now w) timeout)) w2 in
  ∃ r w',
    get_actual_url url timeout code w = Some ((r, code'), w')
    ∧ (∃ hit before, log w2 = EvAcquire ScopeTokenCache scope hit :: before)
    ∧ log w' = EvRelease ScopeTokenCache scope (negb (bool_decide (is_Some r)))
                 :: EvHttp rq op :: log w2
    ∧ (is_Some r ↔ 300 ≤ status_code op < 400 ∨ status_code op = 200)
    ∧ w' = w_release scope_token_cache scope (negb (bool_decide (is_Some r)))
             (after_call rq op w2).
Proof.
  intros H1 H2 op rq.
  rewrite (get_actual_url_with_token _ _ _ _ _ _ _ _ _ _ H1 H2).
  apply acquire_scope_token_some in H2 as (Hs & _ & hit & new & Hlog).
  rewrite url_info_of_response_run. unfold w_release_scope. rewrite Hs. cbn [negb].
  fold op rq.
  destruct ((300 <=? status_code op) && (status_code op <? 400)) eqn:E3.
  - eexists _, _. split; [reflexivity|]. split; [eauto|].
    rewrite w_release_scope_token_log. cbn. repeat split; eauto.
    intros _. left. apply andb_true_iff in E3 as [? ?]. lia.
  - destruct (status_code op =? 200) eqn:E2.
    + eexists _, _. split; [reflexivity|]. split; [eauto|].
      rewrite w_release_scope_token_log. cbn. repeat split; eauto.
      intros _. right. lia.
    + eexists _, _. split; [reflexivity|]. split; [eauto|].
      rewrite w_release_scope_token_log. cbn. repeat split; eauto.
      * intros [x Hx]. discriminate.
      * intros [H | H]; exfalso.
        -- apply andb_false_iff in E3 as [E | E]; lia.
        -- lia.
Qed.

(** C4, as the code has it: with a token in hand, status 200 on the second
    GET gives Self whose info is the token behind the prefix [Bearer ], and
    the scope token is released clean; status 206 is none of the statuses the
    resolver knows: the scope token is released poisoned and the resolver
    fails. *)
Theorem token_bearing_reget url timeout code w authurl scope w1 tok code' w2 :
  get_scope_auth url (remaining w timeout) w = Some ((0, authurl, scope), w1) →
  acquire_scope_token url authurl scope (mkTimeout (sat_add (now w) timeout)) code w1
  = Some ((Some tok, code'), w2) →
  let op := next_response w2 in
  let w3 := after_call (reissue_request url tok (mkTimeout (sat_add (now w) timeout)) w2)
                       op w2 in
  (status_code op = 200 →
   get_actual_url url timeout code w
   = Some ((Some (mkUrlInfo Self (bearer_info (Some tok))), code'),
           w_release scope_token_cache scope false w3))
  ∧ (status_code op = 206 →
     get_actual_url url timeout code w
     = Some ((None, code'), w_release scope_token_cache scope true w3))
  ∧ (EString.empty tok = false → bearer_info (Some tok) = "Bearer " +:+ tok)
  ∧ (EString.empty tok = true → bearer_info (Some tok) = EmptyString).
Proof.
  intros H1 H2 op w3.
  rewrite (get_actual_url_with_token _ _ _ _ _ _ _ _ _ _ H1 H2).
  apply acquire_scope_token_some in H2 as (Hs & _ & _).
  rewrite url_info_of_response_run. unfold w_release_scope. rewrite Hs. cbn [negb].
  fold op w3. repeat split.
  - intros ->. reflexivity.
  - intros ->. reflexivity.
  - intros E. unfold bearer_info. now rewrite E.
  - intros E. unfold bearer_info. now rewrite E.
Qed.

Lemma get_actual_url_null_token url timeout code w :
  status_code (next_response w) ≠ -1 →
  status_code (next_response w) ≠ 401 →
  status_code (next_response w) ≠ 403 →
  get_actual_url url timeout code w = None.
Proof.
  intros H1 H2 H3. rewrite get_actual_url_stages. cbv zeta.
  rewrite (get_scope_auth_open url (remaining w timeout) w H1 H2 H3). reflexivity.
Qed.

(** C1: the code fails the claim. A probe answered with any status other
    than -1, 401 and 403 (every 2xx among them) ends [get_scope_auth] with 0
    and an empty scope, whatever the headers; no scope token is asked for and
    the token pointer stays null. The resolver does not return there: it
    builds the second GET of lines 203-207, whose Authorization header is
    made from [*token]. The null pointer is read and the resolver returns
    nothing at all, where the claim has it return Self with no bearer. *)
Theorem unchallenged_probe_reads_null_token url timeout code w :
  let r := next_response w in
  let tmo := mkTimeout (sat_add (now w) timeout) in
  let w1 := after_call (probe_request url w (remaining w timeout)) r w in
  status_code r ≠ -1 → status_code r ≠ 401 → status_code r ≠ 403 →
  get_scope_auth url (remaining w timeout) w = Some ((0, EmptyString, EmptyString), w1)
  ∧ acquire_scope_token url EmptyString EmptyString tmo code w1 = Some ((None, code), w1)
  ∧ reissue url None tmo w1 = None
  ∧ get_actual_url url timeout code w = None.
Proof.
  intros r tmo w1 H1 H2 H3. subst r w1.
  pose proof (get_scope_auth_open url (remaining w timeout) w H1 H2 H3) as Hp.
  split; [exact Hp|]. split; [reflexivity|]. split; [reflexivity|].
  rewrite get_actual_url_stages. cbv zeta. rewrite Hp. reflexivity.
Qed.

(** ** The blob GET *)

Lemma get_data_run url offset count timeout op w :
  get_data url offset count timeout op w
  = (let tmo := mkTimeout (sat_add (now w) timeout) in
     match acquire url_info_cache url (url_info_ctor url tmo) 0 w with
     | None => None
     | Some ((None, ret), w1) => Some ((ret, op), w1)
     | Some ((Some actual_info, ret), w1) =>
         let op' := next_response w1 in
         let rq := data_request url actual_info (m_accelerate w1) offset count
                     (sat_sub (m_expire tmo) (now w1)) in
         Some ((ret, op'),
               w_release url_info_cache url (negb (status_ok op')) (after_call rq op' w1))
     end).
Proof.
  unfold_get_data. unfold_clock. munfold. cbv zeta.
  destruct (acquire url_info_cache url _ 0 w) as [[[[ai|] ret] w1]|]; [|reflexivity..].
  cbn [m_expire]. destruct (status_ok (next_response w1)); reflexivity.
Qed.

(** The two ways [get_data] returns: without a GET of its own, the resolver
    having failed (with 401 exactly when the scope token's constructor
    failed), or after its ranged GET, with 0 and a release of the entry that
    is poisoned exactly when the status is neither 200 nor 206. *)
Lemma get_data_cases url offset count timeout op w ret op' w' :
  get_data url offset count timeout op w = Some ((ret, op'), w') →
  ∃ new, log w' = new ++ log w
    ∧ ((ret = 401 ∧ op' = op
        ∧ ∃ scope new',
            new = EvCtorFailed UrlInfoCache url
                    :: EvCtorFailed ScopeTokenCache scope :: new')
       ∨ (ret = 0
          ∧ (∀ scope, ¬ In (EvCtorFailed ScopeTokenCache scope) new)
          ∧ ((op' = op ∧ ∃ new', new = EvCtorFailed UrlInfoCache url :: new')
             ∨ (∃ rq new',
                  new = EvRelease UrlInfoCache url (negb (status_ok op'))
                          :: EvHttp rq op' :: new'
                  ∧ req_range rq = Some (wrap64 offset, wrap64 (offset + count - 1)))))).
Proof.
  rewrite get_data_run. cbv zeta. unfold acquire.
  destruct (cache_find url_info_cache url w) as [e|].
  - intros H. inversion H; subst. clear H.
    eexists [_; _; _]. rewrite w_release_url_info_log. split; [reflexivity|].
    right. split; [reflexivity|]. split.
    + intros s Hin. cbn in Hin. intuition discriminate.
    + right. eexists _, _. split; reflexivity.
  - unfold_url_info_ctor. unfold_clock. munfold. cbn [m_expire].
    destruct (get_actual_url url _ 0 (w_miss url_info_cache url w))
      as [[[[ai|] code'] w1]|] eqn:E; [| |discriminate];
      apply get_actual_url_log in E as (new1 & L1 & Hc);
      change (log (w_miss url_info_cache url w)) with (log w) in L1;
      intros H; inversion H; subst; clear H.
    + destruct Hc as [(_ & ? & _) | (-> & Hn)]; [discriminate|].
      eexists (_ :: _ :: _ :: new1).
      rewrite w_release_url_info_log. cbn. rewrite L1. split; [reflexivity|].
      right. split; [reflexivity|]. split.
      * intros s Hin. cbn in Hin.
        destruct Hin as [? | [? | [? | Hin]]]; try discriminate. now apply (Hn s).
      * right. eexists _, _. split; reflexivity.
    + exists (EvCtorFailed UrlInfoCache url :: new1). cbn. rewrite L1.
      split; [reflexivity|].
      destruct Hc as [(-> & _ & scope & new' & ->) | (-> & Hn)].
      * left. eauto.
      * right. split; [reflexivity|]. split.
        -- intros s [? | Hin]; [discriminate | now apply (Hn s)].
        -- left. eauto.
Qed.

(** C10: the code fails the claim. For a URL that is not resolved yet and
    whose probe is answered with a status other than -1, 401 and 403 (a
    public blob, a missing blob, a server error), [get_data] returns no
    code at all: its constructor runs the resolver into the null token of
    line 207, where the claim has it return 0. *)
Theorem get_data_unchallenged_probe url offset count timeout op w :
  cache_find url_info_cache url w = None →
  status_code (next_response w) ≠ -1 →
  status_code (next_response w) ≠ 401 →
  status_code (next_response w) ≠ 403 →
  get_data url offset count timeout op w = None.
Proof.
  intros Hf H1 H2 H3. rewrite get_data_run. cbv zeta. unfold acquire.
  rewrite Hf. unfold_url_info_ctor. unfold_clock. munfold. cbn [m_expire].
  rewrite get_actual_url_null_token; [reflexivity | exact H1 | exact H2 | exact H3].
Qed.

(** X21: the long a [get_data] that returns gives back is 401 exactly when
    the constructor of the scope token failed inside the constructor of the
    url_info entry, and 0 otherwise; after the ranged GET it is 0 whatever
    the status, the response is handed back in [op], and the entry is
    released poisoned exactly when the status is neither 200 nor 206. *)
Theorem get_data_return_code url offset count timeout op w ret op' w' :
  get_data url offset count timeout op w = Some ((ret, op'), w') →
  ∃ new, log w' = new ++ log w
    ∧ (ret = 401 ↔ ∃ scope, In (EvCtorFailed ScopeTokenCache scope) new)
    ∧ (ret = 401 ∨ ret = 0)
    ∧ (ret = 401 → op' = op ∧ ∃ new', new = EvCtorFailed UrlInfoCache url :: new')
    ∧ (op' = op ∧ (∃ new', new = EvCtorFailed UrlInfoCache url :: new')
       ∨ ret = 0
         ∧ ∃ rq new',
             new = EvRelease UrlInfoCache url (negb (status_ok op')) :: EvHttp rq op' :: new'
             ∧ req_range rq = Some (wrap64 offset, wrap64 (offset + count - 1))).
Proof.
  intros H. apply get_data_cases in H as (new & L & Hc). exists new. split; [exact L|].
  destruct Hc as [(-> & -> & scope & new' & ->) | (-> & Hn & Hg)].
  - repeat split; eauto.
    intros _. exists scope. cbn. auto.
  - repeat split; auto.
    + discriminate.
    + intros [s Hs]. now apply Hn in Hs.
    + discriminate.
    + discriminate.
    + destruct Hg as [(-> & ?) | ?]; auto.
Qed.

(** ** The registry file *)

Lemma status_ok_new : status_ok HTTP_OP_new = false.
Proof. reflexivity. Qed.

Lemma get_length_again_result url tmo retry w r w' :
  get_length_again url tmo retry w = Some (r, w') →
  ∃ n w0 ret op w1,
    (n ≤ retry)%nat
    ∧ failed_attempts url tmo n w w0
    ∧ get_data url 0 1 (sat_sub (m_expire tmo) (now w0)) HTTP_OP_new w0
      = Some ((ret, op), w1)
    ∧ if status_ok op then r = resource_size op ∧ w' = w1
      else r = -1
           ∧ if m_expire tmo <? now w1 then w' = w_errno ETIMEDOUT w1
             else n = retry
                  ∧ w' = w_errno (if (status_code op =? 401) || (status_code op =? 403)
                                  then EPERM else ENOENT) w1.
Proof.
  revert w. induction retry as [|retry IH]; intros w; simpl_get_length_again;
    unfold_clock; unfold LOG_ERROR_RETURN, set_errno; munfold;
    destruct (get_data url 0 1 (sat_sub (m_expire tmo) (now w)) HTTP_OP_new w)
      as [[[ret op] w1]|] eqn:E; try discriminate;
    destruct (status_ok op) eqn:Eok; cbn [negb].
  - intros H. inversion H; subst. exists 0%nat, w, ret, op, w'.
    rewrite Eok. repeat split; auto. constructor.
  - destruct (m_expire tmo <? now w1) eqn:Et.
    + intros H. inversion H; subst. exists 0%nat, w, ret, op, w1.
      rewrite Eok, Et. repeat split; auto. constructor.
    + intros H. exists 0%nat, w, ret, op, w1. rewrite Eok, Et.
      destruct ((status_code op =? 401) || (status_code op =? 403));
        inversion H; subst; repeat split; auto; constructor.
  - intros H. inversion H; subst. exists 0%nat, w, ret, op, w'.
    rewrite Eok. repeat split; auto; [lia | constructor].
  - destruct (m_expire tmo <? now w1) eqn:Et.
    + intros H. inversion H; subst. exists 0%nat, w, ret, op, w1.
      rewrite Eok, Et. repeat split; auto; [lia | constructor].
    + intros H.
      assert (Hrec : get_length_again url tmo retry w1 = Some (r, w'))
        by (destruct ((status_code op =? 401) || (status_code op =? 403)); exact H).
      apply IH in Hrec as (n & w0 & ret' & op' & w1' & Hn & Hf & Hg & Hr).
      exists (S n), w0, ret', op', w1'. repeat split; [lia | | exact Hg |].
      * econstructor; eauto.
      * destruct (status_ok op'); [exact Hr|].
        destruct Hr as [-> Hr]. split; [reflexivity|].
        destruct (m_expire tmo <? now w1'); [exact Hr|].
        destruct Hr as [-> ->]. auto.
Qed.

Lemma get_length_again_complete url tmo n w w0 :
  failed_attempts url tmo n w w0 →
  ∀ retry ret op w1,
    get_data url 0 1 (sat_sub (m_expire tmo) (now w0)) HTTP_OP_new w0
    = Some ((ret, op), w1) →
    (n ≤ retry)%nat →
    status_ok op = true ∨ m_expire tmo < now w1 ∨ n = retry →
    get_length_again url tmo retry w
    = Some (if status_ok op then (resource_size op, w1)
            else (-1, w_errno (if m_expire tmo <? now w1 then ETIMEDOUT
                               else if (status_code op =? 401) || (status_code op =? 403)
                                    then EPERM else ENOENT) w1)).
Proof.
  induction 1 as [w | n w ret0 op0 wa w0 Hg0 Hok0 Ht0 Hrest IH];
    intros retry ret op w1 Hg Hn Hend.
  - destruct retry as [|retry]; simpl_get_length_again;
      unfold_clock; unfold LOG_ERROR_RETURN, set_errno; munfold;
      rewrite Hg; destruct (status_ok op) eqn:Eok; cbn [negb]; try reflexivity;
      destruct (Z.ltb_spec (m_expire tmo) (now w1)) as [Hlt|Hge]; try reflexivity.
    + destruct ((status_code op =? 401) || (status_code op =? 403)); reflexivity.
    + destruct Hend as [? | [? | ?]]; [discriminate | lia | discriminate].
  - destruct retry as [|retry]; [lia|]. simpl_get_length_again.
    unfold_clock. unfold LOG_ERROR_RETURN, set_errno. munfold.
    rewrite Hg0, Hok0. cbn [negb]. rewrite Ht0.
    assert (Hrec : get_length_again url tmo retry wa
                   = Some (if status_ok op then (resource_size op, w1)
                           else (-1, w_errno (if m_expire tmo <? now w1 then ETIMEDOUT
                                              else if (status_code op =? 401)
                                                      || (status_code op =? 403)
                                                   then EPERM else ENOENT) w1))).
    { apply (IH retry ret op w1 Hg); [lia|].
      destruct Hend as [Hend | [Hend | Hend]]; [now left | now right; left |].
      right. right. lia. }
    destruct ((status_code op0 =? 401) || (status_code op0 =? 403)); exact Hrec.
Qed.

(** C7, as the code has it: [get_length] makes at most four attempts, and
    the last of them decides alone. Attempts that fail before the deadline
    are repeated, three times at most, whatever their statuses; the call ends
    with the first attempt that is answered 200 or 206 (the resource size),
    or that fails after the deadline (-1, ETIMEDOUT), or that is the fourth
    (-1, with EPERM if the status of this attempt is 401 or 403 and ENOENT
    otherwise). Given such attempts the call returns just that, and every
    call that returns is of this kind. *)
Theorem get_length_last_attempt_decides f timeout w :
  let tmo := mkTimeout (sat_add (now w) timeout) in
  let outcome op w1 :=
    if status_ok op then (resource_size op, w1)
    else (-1, w_errno (if m_expire tmo <? now w1 then ETIMEDOUT
                       else if (status_code op =? 401) || (status_code op =? 403)
                            then EPERM else ENOENT) w1) in
  let last n w0 ret op w1 :=
    (n ≤ 3)%nat
    ∧ failed_attempts (m_url f) tmo n w w0
    ∧ get_data (m_url f) 0 1 (sat_sub (m_expire tmo) (now w0)) HTTP_OP_new w0
      = Some ((ret, op), w1)
    ∧ (status_ok op = true ∨ m_expire tmo < now w1 ∨ n = 3%nat) in
  (∀ n w0 ret op w1,
     last n w0 ret op w1 → get_length f timeout w = Some (outcome op w1))
  ∧ (∀ r w',
       get_length f timeout w = Some (r, w') →
       ∃ n w0 ret op w1, last n w0 ret op w1 ∧ (r, w') = outcome op w1).
Proof.
  intros tmo outcome last. split.
  - intros n w0 ret op w1 (Hn & Hf & Hg & Hend).
    unfold_get_length. unfold_clock. munfold. fold tmo.
    exact (get_length_again_complete _ _ _ _ _ Hf 3%nat ret op w1 Hg Hn Hend).
  - intros r w'. unfold_get_length. unfold_clock. munfold. fold tmo. intros H.
    apply get_length_again_result in H as (n & w0 & ret & op & w1 & Hn & Hf & Hg & Hr).
    exists n, w0, ret, op, w1. unfold last, outcome.
    destruct (status_ok op).
    + destruct Hr as [-> ->]. repeat split; auto.
    + destruct Hr as [-> Hr]. destruct (Z.ltb_spec (m_expire tmo) (now w1)).
      * subst w'. repeat split; auto.
      * destruct Hr as [-> ->]. repeat split; auto.
Qed.

(** With a size in hand [fstat] answers from the field: no request, no
    assignment. *)
Lemma fstat_known f buf w :
  m_filesize f ≠ 0 →
  fstat f buf w = Some ((0, mkStat (S_IFREG + S_IREAD) (to_int64 (m_filesize f)), f), w).
Proof.
  intros H. unfold_fstat. destruct (Z.eqb_spec (m_filesize f) 0); [contradiction|].
  reflexivity.
Qed.

Lemma fstat_unknown f buf w :
  m_filesize f = 0 →
  fstat f buf w
  = match get_length f (m_timeout f) w with
    | None => None
    | Some (r, w') =>
        if r <? 0 then Some ((-1, buf, f), w')
        else Some ((0, mkStat (S_IFREG + S_IREAD) (to_int64 (wrap64 r)),
                    mkFile (m_url f) (m_timeout f) (wrap64 r)), w')
    end.
Proof.
  intros H. unfold_fstat. rewrite H. change (0 =? 0) with true. cbv iota. munfold.
  destruct (get_length f (m_timeout f) w) as [[r w']|]; [|reflexivity].
  destruct (r <? 0); reflexivity.
Qed.

Lemma preadv_known f iov offset w :
  m_filesize f ≠ 0 →
  preadv f iov offset w
  = match preadv_again (m_url f) (m_filesize f) (mkTimeout (sat_add (now w) (m_timeout f)))
            iov offset 3 w with
    | Some (r, w') => Some ((r, f), w')
    | None => None
    end.
Proof.
  intros H. unfold_preadv. destruct (Z.eqb_spec (m_filesize f) 0); [contradiction|].
  unfold_clock. munfold. change (0 <? 0) with false. cbv iota beta.
  reflexivity.
Qed.

Lemma run_ops_known ops f w sizes f' w' :
  m_filesize f ≠ 0 →
  run_ops ops f w = Some ((sizes, f'), w') →
  f' = f ∧ sizes = repeat (to_int64 (m_filesize f)) (fstat_calls ops).
Proof.
  intros Hf. revert w sizes f' w'.
  induction ops as [|o ops IH]; intros w sizes f' w'; simpl_run_ops.
  - intros H. inversion H; subst. auto.
  - destruct o as [|iov offset]; munfold.
    + rewrite (fstat_known f _ w Hf).
      destruct (run_ops ops f w) as [[[sizes0 f0] w0]|] eqn:E; [|discriminate].
      apply IH in E as [-> ->]. intros H. inversion H; subst. auto.
    + rewrite (preadv_known f iov offset w Hf).
      destruct (preadv_again _ _ _ _ _ _ _) as [[r w1]|]; [|discriminate].
      intros H. apply IH in H as [-> ->]. auto.
Qed.

Lemma wrap64_to_int64 x : wrap64 (to_int64 x) = wrap64 x.
Proof.
  unfold wrap64, to_int64. rewrite Zminus_mod_idemp_l. f_equal. lia.
Qed.

Lemma wrap64_wrap64 x : wrap64 (wrap64 x) = wrap64 x.
Proof. unfold wrap64. apply Z.mod_mod. lia. Qed.

(** With no size yet, [preadv] goes through [fstat], and its own assignment
    of [st_size] changes nothing. *)
Lemma preadv_unknown f iov offset w r f' w' :
  m_filesize f = 0 →
  preadv f iov offset w = Some ((r, f'), w') →
  ∃ ret st w1, fstat f (mkStat 0 0) w = Some ((ret, st, f'), w1)
               ∧ (ret < 0 → r = -1 ∧ w' = w1).
Proof.
  intros Hz. unfold_preadv. rewrite Hz. change (0 =? 0) with true. cbv iota. munfold.
  pose proof (fstat_unknown f (mkStat 0 0) w Hz) as Hf.
  destruct (fstat f (mkStat 0 0) w) as [[[[ret st] f1] w1]|]; [|discriminate].
  destruct (get_length f (m_timeout f) w) as [[r0 w0]|]; [|discriminate].
  destruct (Z.ltb_spec r0 0) as [Hlt | Hge]; inversion Hf; subst; clear Hf.
  - change (-1 <? 0) with true. cbv iota. intros H. inversion H; subst.
    eexists _, _, _. split; [reflexivity|]. auto.
  - change (0 <? 0) with false. cbv iota. cbn [st_size m_url m_timeout m_filesize].
    rewrite !wrap64_to_int64, !wrap64_wrap64. unfold_clock. munfold.
    change (0 <? 0) with false. cbv beta iota.
    destruct (preadv_again (m_url f) (wrap64 r0) (mkTimeout (sat_add (now w0) (m_timeout f)))
                iov offset 3 w0) as [[r1 w2]|]; [|discriminate].
    intros H. inversion H; subst.
    eexists _, _, _. split; [reflexivity|]. lia.
Qed.

(** C5, as the code has it: zero is the mark of a size not yet known. Once
    the field holds another value no call assigns it again, every [fstat]
    returns 0 with that [st_size] without a request, and [preadv] leaves the
    file as it is. While the field is zero, [fstat] asks [get_length] and
    assigns what it returns, and [preadv] goes through [fstat]: a size of
    zero leaves the field at zero, and the next call asks again. *)
Theorem filesize_fixed_once_known :
  (∀ f buf w,
     m_filesize f ≠ 0 →
     fstat f buf w
     = Some ((0, mkStat (S_IFREG + S_IREAD) (to_int64 (m_filesize f)), f), w)) ∧
  (∀ ops f w sizes f' w',
     m_filesize f ≠ 0 →
     run_ops ops f w = Some ((sizes, f'), w') →
     f' = f ∧ sizes = repeat (to_int64 (m_filesize f)) (fstat_calls ops)) ∧
  (∀ f buf w ret st f' w',
     m_filesize f = 0 →
     fstat f buf w = Some ((ret, st, f'), w') →
     ∃ r, get_length f (m_timeout f) w = Some (r, w')
          ∧ (r < 0 → ret = -1 ∧ st = buf ∧ f' = f)
          ∧ (0 ≤ r → ret = 0 ∧ st_size st = to_int64 (wrap64 r)
                     ∧ f' = mkFile (m_url f) (m_timeout f) (wrap64 r))) ∧
  (∀ f iov offset w r f' w',
     m_filesize f = 0 →
     preadv f iov offset w = Some ((r, f'), w') →
     ∃ ret st w1, fstat f (mkStat 0 0) w = Some ((ret, st, f'), w1)
                  ∧ (ret < 0 → r = -1 ∧ w' = w1)).
Proof.
  split; [exact fstat_known|]. split; [exact run_ops_known|].
  split; [|exact preadv_unknown].
  intros f buf w ret st f' w' Hz. rewrite (fstat_unknown f buf w Hz).
  destruct (get_length f (m_timeout f) w) as [[r w1]|]; [|discriminate].
  destruct (Z.ltb_spec r 0) as [Hlt | Hge]; intros H; inversion H; subst; exists r;
    repeat split; auto; lia.
Qed.

(** The byte count [preadv] asks for when the offset is inside the file. *)
Lemma clamp_count_inside iov offset filesize :
  0 ≤ offset ≤ filesize → filesize < 2 ^ 64 →
  0 ≤ fold_right Z.add 0 iov → fold_right Z.add 0 iov + offset < 2 ^ 64 →
  clamp_count iov offset filesize = Z.min (fold_right Z.add 0 iov) (filesize - offset).
Proof.
  intros Ho Hf Hs Hso. unfold clamp_count, iov_sum, wrap64.
  rewrite (Z.mod_small (fold_right Z.add 0 iov)) by lia.
  rewrite (Z.mod_small (fold_right Z.add 0 iov + offset)) by lia.
  destruct (Z.gtb_spec (fold_right Z.add 0 iov + offset) filesize).
  - rewrite Z.mod_small by lia. lia.
  - lia.
Qed.

Lemma preadv_again_result url filesize tmo iov offset retry w r w' :
  preadv_again url filesize tmo iov offset retry w = Some (r, w') →
  r = -1
  ∨ ∃ rq op before,
      log w' = EvRelease UrlInfoCache url false :: EvHttp rq op :: before
      ∧ req_range rq
        = Some (wrap64 offset, wrap64 (offset + clamp_count iov offset filesize - 1))
      ∧ status_ok op = true
      ∧ r = readv op iov.
Proof.
  revert w. induction retry as [|retry IH]; intros w; simpl_preadv_again;
    unfold_clock; unfold LOG_ERROR_RETURN, set_errno, thread_usleep, advance, emit;
    munfold;
    destruct (get_data url offset (clamp_count iov offset filesize)
                (sat_sub (m_expire tmo) (now w)) HTTP_OP_new w)
      as [[[ret op] w1]|] eqn:E; try discriminate;
    destruct (status_ok op) eqn:Eok; cbn [negb].
  1, 3: intros H; inversion H; subst; right;
    apply get_data_cases in E as (new & L & [(_ & -> & _) | (_ & _ & [(-> & _) | (rq & new' & -> & Hr)])]);
    [ rewrite status_ok_new in Eok; discriminate
    | rewrite status_ok_new in Eok; discriminate
    | rewrite Eok in L; eexists rq, op, _; repeat split; [exact L | exact Hr | exact Eok] ].
  - destruct (m_expire tmo <? now w1); intros H; inversion H; auto.
  - destruct (m_expire tmo <? now w1); [intros H; inversion H; auto|].
    apply IH.
Qed.

(** C3, as the code has it: for an offset inside the file the byte count
    asked of the server is min(requested, filesize - offset); [preadv] has no
    return of its own for an offset at the end of the file, the GET is sent
    there too; a call that does not return -1 ends with a GET of that range
    answered 200 or 206 and returns min(requested, length of the body), which
    stays within min(requested, filesize - offset) whenever the body is no
    longer than the count that was asked for. *)
Theorem preadv_clamp :
  (∀ iov offset filesize,
     0 ≤ offset ≤ filesize → filesize < 2 ^ 64 →
     0 ≤ fold_right Z.add 0 iov → fold_right Z.add 0 iov + offset < 2 ^ 64 →
     clamp_count iov offset filesize = Z.min (fold_right Z.add 0 iov) (filesize - offset)) ∧
  (∀ f iov offset w r f' w',
     m_filesize f ≠ 0 →
     preadv f iov offset w = Some ((r, f'), w') →
     r ≠ -1 →
     f' = f
     ∧ ∃ rq op before,
         log w' = EvRelease UrlInfoCache (m_url f) false :: EvHttp rq op :: before
         ∧ req_range rq
           = Some (wrap64 offset,
                   wrap64 (offset + clamp_count iov offset (m_filesize f) - 1))
         ∧ status_ok op = true
         ∧ r = Z.min (iov_sum iov) (Z.of_nat (String.length (resp_body op)))
         ∧ (Z.of_nat (String.length (resp_body op)) ≤ clamp_count iov offset (m_filesize f) →
            r ≤ Z.min (iov_sum iov) (clamp_count iov offset (m_filesize f)))).
Proof.
  split; [exact clamp_count_inside|].
  intros f iov offset w r f' w' Hf. rewrite (preadv_known f iov offset w Hf).
  destruct (preadv_again _ _ _ _ _ _ _) as [[r0 w0]|] eqn:E; [|discriminate].
  intros H Hr. inversion H; subst. split; [reflexivity|].
  apply preadv_again_result in E as [-> | (rq & op & before & L & Hq & Hok & ->)];
    [contradiction|].
  exists rq, op, before. unfold readv. repeat split; auto. lia.
Qed.

(** ** More on the resolver *)

(** The five ways [get_scope_auth] returns. *)
Lemma get_scope_auth_inv url timeout w r authurl scope w1 :
  get_scope_auth url timeout w = Some ((r, authurl, scope), w1) →
  let op := next_response w in
  let w0 := after_call (probe_request url w timeout) op w in
  (status_code op = -1 ∧ r = -1 ∧ authurl = EmptyString ∧ scope = EmptyString
   ∧ w1 = w_errno ENOENT w0)
  ∨ (status_code op ≠ -1 ∧ status_code op ≠ 401 ∧ status_code op ≠ 403
     ∧ r = 0 ∧ authurl = EmptyString ∧ scope = EmptyString ∧ w1 = w0)
  ∨ ((status_code op = 401 ∨ status_code op = 403)
     ∧ r = -1 ∧ authurl = EmptyString ∧ scope = EmptyString ∧ w1 = w_errno EINVAL w0
     ∧ (headers_find kDockerRegistryAuthChallengeKeyValuePrefix (resp_headers op) = None
        ∨ ∃ line,
            headers_find kDockerRegistryAuthChallengeKeyValuePrefix (resp_headers op)
            = Some line ∧ challenge_auth line = None))
  ∨ ((status_code op = 401 ∨ status_code op = 403)
     ∧ r = 0 ∧ w1 = w0
     ∧ ∃ line,
         headers_find kDockerRegistryAuthChallengeKeyValuePrefix (resp_headers op)
         = Some line ∧ challenge_auth line = Some (authurl, scope)).
Proof.
  unfold get_scope_auth, LOG_ERROR_RETURN, set_errno, call. unfold_clock. munfold.
  cbn [m_expire]. fold (remaining w timeout). fold (probe_request url w timeout).
  cbv zeta.
  destruct (Z.eqb_spec (status_code (next_response w)) (-1)) as [E1 | E1].
  { intros H. inversion H; subst. left. auto. }
  destruct (Z.eqb_spec (status_code (next_response w)) 401) as [E2 | E2];
    destruct (Z.eqb_spec (status_code (next_response w)) 403) as [E3 | E3];
    cbn [negb andb].
  4: { intros H. inversion H; subst. right. left. repeat split; auto. }
  all: destruct (headers_find _ _) as [line|] eqn:Hh;
    [ destruct (challenge_auth line) as [[a s]|] eqn:Hc | ];
    intros H; inversion H; subst; right; right;
    [ right; repeat split; eauto
    | left; repeat split; eauto
    | left; repeat split; eauto ].
Qed.

Lemma get_scope_auth_failed url timeout w :
  status_code (next_response w) = -1 →
  get_scope_auth url timeout w
  = Some ((-1, EmptyString, EmptyString),
          w_errno ENOENT (after_call (probe_request url w timeout) (next_response w) w)).
Proof.
  intros H. unfold get_scope_auth, LOG_ERROR_RETURN, set_errno, call. unfold_clock.
  munfold. cbn [m_expire]. rewrite H. reflexivity.
Qed.

Lemma get_scope_auth_unparsed url timeout w :
  status_code (next_response w) = 401 ∨ status_code (next_response w) = 403 →
  headers_find kDockerRegistryAuthChallengeKeyValuePrefix (resp_headers (next_response w))
  = None
  ∨ (∃ line,
       headers_find kDockerRegistryAuthChallengeKeyValuePrefix
         (resp_headers (next_response w)) = Some line
       ∧ challenge_auth line = None) →
  get_scope_auth url timeout w
  = Some ((-1, EmptyString, EmptyString),
          w_errno EINVAL (after_call (probe_request url w timeout) (next_response w) w)).
Proof.
  intros Hs Hh. unfold get_scope_auth, LOG_ERROR_RETURN, set_errno, call. unfold_clock.
  munfold. cbn [m_expire].
  destruct Hh as [Hh | (line & Hh & Hc)]; rewrite Hh; [|rewrite Hc];
    destruct Hs as [-> | ->]; reflexivity.
Qed.

(** X1: When the connection of the probe fails, [get_data] sends nothing else:
    it returns 0 with the caller's [op] as it was and ENOENT in [errno], and
    the URL gets no entry in the cache. *)
Theorem connection_failure_not_cached url offset count timeout op w :
  cache_find url_info_cache url w = None →
  status_code (next_response w) = -1 →
  ∃ rq w',
    get_data url offset count timeout op w = Some ((0, op), w')
    ∧ log w' = EvCtorFailed UrlInfoCache url :: EvHttp rq (next_response w) :: log w
    ∧ req_url rq = url ∧ req_authorization rq = None ∧ req_range rq = Some (0, 0)
    ∧ errno w' = ENOENT
    ∧ m_url_info w' !! url = None
    ∧ m_scope_token w' = m_scope_token w.
Proof.
  intros Hmiss Hst. rewrite get_data_run. cbv zeta. unfold acquire. rewrite Hmiss.
  unfold_url_info_ctor. unfold_clock. munfold. cbn [m_expire].
  rewrite get_actual_url_stages. cbv zeta.
  rewrite get_scope_auth_failed by exact Hst.
  change (-1 <? 0) with true. cbv iota.
  eexists _, _. split; [reflexivity|].
  repeat split. cbn. apply lookup_delete_eq.
Qed.

(** X2: A probe answered 401 or 403 without a www-authenticate header, or with
    one the parser refuses, ends the resolver at once: the result is null,
    [code] is untouched, [errno] is EINVAL, and neither the password callback
    nor any other request follows the probe. *)
Theorem unparsed_challenge_stops_resolver url timeout code w :
  status_code (next_response w) = 401 ∨ status_code (next_response w) = 403 →
  headers_find kDockerRegistryAuthChallengeKeyValuePrefix (resp_headers (next_response w))
  = None
  ∨ (∃ line,
       headers_find kDockerRegistryAuthChallengeKeyValuePrefix
         (resp_headers (next_response w)) = Some line
       ∧ challenge_auth line = None) →
  ∃ w',
    get_actual_url url timeout code w = Some ((None, code), w')
    ∧ log w'
      = EvHttp (probe_request url w (remaining w timeout)) (next_response w) :: log w
    ∧ errno w' = EINVAL
    ∧ m_scope_token w' = m_scope_token w.
Proof.
  intros Hs Hh. rewrite get_actual_url_stages. cbv zeta.
  rewrite get_scope_auth_unparsed by assumption.
  change (-1 <? 0) with true. cbv iota.
  eexists. split; [reflexivity|]. repeat split.
Qed.

(** The ways [acquire_scope_token] ends, with the worlds. *)
Lemma acquire_scope_token_worlds url authurl scope tmo code w1 token code' w2 :
  acquire_scope_token url authurl scope tmo code w1 = Some ((token, code'), w2) →
  (EString.empty scope = true ∧ token = None ∧ code' = code ∧ w2 = w1)
  ∨ (EString.empty scope = false
     ∧ ∃ e, cache_find scope_token_cache scope w1 = Some e
            ∧ token = Some (e_value e) ∧ code' = code
            ∧ w2 = w_hit scope_token_cache scope e w1)
  ∨ (EString.empty scope = false
     ∧ cache_find scope_token_cache scope w1 = None
     ∧ ∃ ok tok wa,
         authenticate authurl (m_callback url).1 (m_callback url).2 EmptyString
           (sat_sub (m_expire tmo) (now w1))
           (w_emit (EvCallback url) (w_miss scope_token_cache scope w1))
         = Some ((ok, tok), wa)
         ∧ (ok = true ∧ token = Some tok ∧ code' = code
            ∧ w2 = w_installed scope_token_cache scope tok wa
            ∨ ok = false ∧ token = None ∧ code' = 401
              ∧ w2 = w_emit (EvCtorFailed ScopeTokenCache scope) wa)).
Proof.
  unfold_acquire_scope_token.
  destruct (EString.empty scope); cbn [negb].
  { intros H. inversion H; subst. left. auto. }
  destruct (cache_find scope_token_cache scope w1) as [e|] eqn:Ef.
  - intros H. inversion H; subst. right. left. split; [reflexivity|].
    exists e. auto.
  - rewrite token_ctor_run.
    change (now (w_miss scope_token_cache scope w1)) with (now w1).
    destruct (authenticate authurl _ _ _ _ _) as [[[ok tok] wa]|] eqn:E; [|discriminate].
    intros H. right. right. split; [reflexivity|]. split; [reflexivity|].
    exists ok, tok, wa. split; [reflexivity|].
    destruct ok; inversion H; subst; auto.
Qed.

(** X3: What a resolution sends, in order: the probe of the blob URL with no
    Authorization header; on a miss of the scope token, after one call of the
    password callback with the blob URL, one request to the URL composed from
    the challenge, with the Basic header when the user name is not empty; at
    most one more GET of the blob URL, with a Bearer header. Nothing else is
    sent, and the callback is not called when the token is in the cache. *)
Theorem resolution_requests url timeout code w r code' w' :
  get_actual_url url timeout code w = Some ((r, code'), w') →
  ∃ new, log w' = new ++ log w
    ∧ (requests new = [(url, None)] ∧ callbacks new = []
       ∨ (∃ tok, requests new = [(url, None); (url, Some ("Bearer " +:+ tok))]
                 ∧ callbacks new = [])
       ∨ ∃ line authurl scope,
           headers_find kDockerRegistryAuthChallengeKeyValuePrefix
             (resp_headers (next_response w)) = Some line
           ∧ challenge_auth line = Some (authurl, scope)
           ∧ callbacks new = [url]
           ∧ let basic :=
               if negb (EString.empty (m_callback url).1)
               then Some ("Basic "
                            +:+ Base64Encode ((m_callback url).1 +:+ ":" +:+ (m_callback url).2))
               else None in
             (requests new = [(url, None); (authurl, basic)]
              ∨ ∃ tok, requests new
                       = [(url, None); (authurl, basic);
                          (url, Some ("Bearer " +:+ tok))])).
Proof.
  rewrite get_actual_url_stages. cbv zeta.
  destruct (get_scope_auth url (remaining w timeout) w) as [[[[r0 authurl] scope] w1]|] eqn:E1;
    [|discriminate].
  pose proof (get_scope_auth_log _ _ _ _ _ E1) as (L1 & _).
  apply get_scope_auth_inv in E1. cbv zeta in E1.
  destruct (r0 <? 0) eqn:Er.
  { intros H. inversion H; subst. eexists [_]. split; [cbn; now rewrite L1|].
    left. split; reflexivity. }
  destruct (acquire_scope_token url authurl scope _ code w1) as [[[token c2] w2]|] eqn:E2;
    [|discriminate].
  apply acquire_scope_token_worlds in E2
    as [(Hs & -> & -> & ->) | [(Hs & e & Hf & -> & -> & ->) | (Hs & Hf & ok & tok & wa & Ha & Hr)]];
    rewrite Hs; cbn [negb andb].
  - discriminate.
  - replace (negb (bool_decide (is_Some (Some (e_value e))))) with false
      by (symmetry; apply negb_false_iff, bool_decide_eq_true; eauto).
    rewrite reissue_run, url_info_of_response_run.
    unfold w_release_scope. rewrite Hs. cbn [negb].
    intros H.
    assert (∃ p, log w' = EvRelease ScopeTokenCache scope p
                   :: EvHttp (reissue_request url (e_value e)
                                (mkTimeout (sat_add (now w) timeout))
                                (w_hit scope_token_cache scope e w1))
                        (next_response (w_hit scope_token_cache scope e w1))
                   :: log (w_hit scope_token_cache scope e w1)) as (p & L3).
    { repeat match type of H with
             | context [if ?b then _ else _] => destruct b
             end; inversion H; subst; eexists; rewrite w_release_scope_token_log; eauto. }
    eexists [_; _; _; _]. split; [rewrite L3; cbn; rewrite L1; reflexivity|].
    right. left. exists (e_value e). split; reflexivity.
  - pose proof (authenticate_log _ _ _ _ _ _ _ _ Ha) as (La & _).
    assert (Hch : ∃ line,
               headers_find kDockerRegistryAuthChallengeKeyValuePrefix
                 (resp_headers (next_response w)) = Some line
               ∧ challenge_auth line = Some (authurl, scope)).
    { destruct E1 as [(_ & -> & _) | [(_ & _ & _ & _ & _ & -> & _) | [(_ & -> & _) | (_ & _ & _ & Hl)]]];
        try discriminate; exact Hl. }
    destruct Hch as (line & Hh & Hc).
    destruct Hr as [(-> & -> & -> & ->) | (-> & -> & -> & ->)].
    + replace (negb (bool_decide (is_Some (Some tok)))) with false
        by (symmetry; apply negb_false_iff, bool_decide_eq_true; eauto).
      rewrite reissue_run, url_info_of_response_run.
      unfold w_release_scope. rewrite Hs. cbn [negb].
      intros H.
      assert (∃ p, log w' = EvRelease ScopeTokenCache scope p
                     :: EvHttp (reissue_request url tok
                                  (mkTimeout (sat_add (now w) timeout))
                                  (w_installed scope_token_cache scope tok wa))
                          (next_response (w_installed scope_token_cache scope tok wa))
                     :: log (w_installed scope_token_cache scope tok wa)) as (p & L3).
      { repeat match type of H with
               | context [if ?b then _ else _] => destruct b
               end; inversion H; subst; eexists; rewrite w_release_scope_token_log; eauto. }
      eexists [_; _; _; _; _; _].
      split; [rewrite L3; cbn; rewrite La; cbn; rewrite L1; reflexivity|].
      right. right. exists line, authurl, scope. repeat split; auto.
      right. exists tok. reflexivity.
    + replace (negb (bool_decide (is_Some (@None string)))) with true
        by (symmetry; apply negb_true_iff, bool_decide_eq_false; intros [? ?]; discriminate).
      intros H. inversion H; subst.
      eexists [_; _; _; _].
      split; [cbn; rewrite La; cbn; rewrite L1; reflexivity|].
      right. right. exists line, authurl, scope. repeat split; auto.
Qed.

Lemma get_scope_auth_parsed url timeout w line authurl scope :
  status_code (next_response w) = 401 ∨ status_code (next_response w) = 403 →
  headers_find kDockerRegistryAuthChallengeKeyValuePrefix (resp_headers (next_response w))
  = Some line →
  challenge_auth line = Some (authurl, scope) →
  get_scope_auth url timeout w
  = Some ((0, authurl, scope),
          after_call (probe_request url w timeout) (next_response w) w).
Proof.
  intros Hs Hh Hc. unfold get_scope_auth, LOG_ERROR_RETURN, set_errno, call. unfold_clock.
  munfold. cbn [m_expire]. rewrite Hh, Hc. destruct Hs as [-> | ->]; reflexivity.
Qed.

(** X4: With a live token of the challenge's scope in the cache, a resolution
    is the probe and the second GET and nothing else: the password callback is
    not called, the realm is not asked, and the second GET carries the cached
    token; the token is released once, poisoned exactly when the resolver
    fails. *)
Theorem cached_token_reused url timeout code w line authurl scope e :
  status_code (next_response w) = 401 ∨ status_code (next_response w) = 403 →
  headers_find kDockerRegistryAuthChallengeKeyValuePrefix (resp_headers (next_response w))
  = Some line →
  challenge_auth line = Some (authurl, scope) →
  EString.empty scope = false →
  m_scope_token w !! scope = Some e →
  live e (now w + Z.max 0 (elapsed (next_response w))) = true →
  let w1 := after_call (probe_request url w (remaining w timeout)) (next_response w) w in
  let w2 := w_hit scope_token_cache scope e w1 in
  let rq := reissue_request url (e_value e) (mkTimeout (sat_add (now w) timeout)) w2 in
  ∃ r w',
    get_actual_url url timeout code w = Some ((r, code), w')
    ∧ log w' = EvRelease ScopeTokenCache scope (negb (bool_decide (is_Some r)))
                 :: EvHttp rq (next_response w2)
                 :: EvAcquire ScopeTokenCache scope true
                 :: EvHttp (probe_request url w (remaining w timeout)) (next_response w)
                 :: log w
    ∧ req_authorization rq = Some ("Bearer " +:+ e_value e).
Proof.
  intros Hs Hh Hc Hne He Hl w1 w2 rq.
  pose proof (get_scope_auth_parsed url (remaining w timeout) w line authurl scope Hs Hh Hc)
    as H1.
  assert (H2 : acquire_scope_token url authurl scope (mkTimeout (sat_add (now w) timeout))
                 code w1 = Some ((Some (e_value e), code), w2)).
  { unfold_acquire_scope_token. rewrite Hne. cbn [negb].
    unfold cache_find. subst w1. cbn [c_get scope_token_cache m_scope_token after_call now].
    rewrite He, Hl. reflexivity. }
  rewrite (get_actual_url_with_token _ _ _ _ _ _ _ _ _ _ H1 H2).
  rewrite url_info_of_response_run. unfold w_release_scope. rewrite Hne. cbn [negb].
  fold w1 w2 rq.
  destruct ((300 <=? status_code (next_response w2)) && (status_code (next_response w2) <? 400));
    [|destruct (status_code (next_response w2) =? 200)];
    eexists _, _; (split; [reflexivity|]);
    rewrite w_release_scope_token_log; split; reflexivity.
Qed.

(** X5: A resolver that fails after the second GET leaves no token of the scope
    behind when nobody else holds one: the next resolution of the scope has to
    ask the realm again. *)
Theorem failed_reget_evicts_token url timeout code w authurl scope w1 tok code' w2 :
  get_scope_auth url (remaining w timeout) w = Some ((0, authurl, scope), w1) →
  acquire_scope_token url authurl scope (mkTimeout (sat_add (now w) timeout)) code w1
  = Some ((Some tok, code'), w2) →
  (∀ e, m_scope_token w !! scope = Some e → e_refcnt e = 0%nat) →
  ¬ (300 ≤ status_code (next_response w2) < 400) →
  status_code (next_response w2) ≠ 200 →
  ∃ w',
    get_actual_url url timeout code w = Some ((None, code'), w')
    ∧ m_scope_token w' !! scope = None
    ∧ cache_find scope_token_cache scope w' = None.
Proof.
  intros H1 H2 Hheld H3 H200.
  rewrite (get_actual_url_with_token _ _ _ _ _ _ _ _ _ _ H1 H2).
  apply get_scope_auth_log in H1 as (_ & Hm & _).
  rewrite url_info_of_response_run.
  replace ((300 <=? status_code (next_response w2)) && (status_code (next_response w2) <? 400))
    with false
    by (symmetry; apply andb_false_iff;
        destruct (Z.leb_spec 300 (status_code (next_response w2)));
        destruct (Z.ltb_spec (status_code (next_response w2)) 400); auto; lia).
  destruct (Z.eqb_spec (status_code (next_response w2)) 200); [contradiction|].
  assert (Hone : ∃ e2, m_scope_token w2 !! scope = Some e2 ∧ e_refcnt e2 = 1%nat
                       ∧ EString.empty scope = false).
  { apply acquire_scope_token_worlds in H2
      as [(_ & ? & _) | [(Hs & e & Hf & _ & _ & ->) | (Hs & Hf & ok & t & wa & Ha & Hr)]];
      [discriminate | |].
    - unfold cache_find in Hf. cbn [c_get scope_token_cache] in Hf.
      destruct (m_scope_token w1 !! scope) as [e0|] eqn:E0; [|discriminate].
      destruct (live e0 (now w1)); inversion Hf; subst.
      rewrite Hm in E0. pose proof (Hheld _ E0) as Hz.
      eexists. split; [cbn; apply lookup_insert_eq|]. cbn. rewrite Hz. auto.
    - destruct Hr as [(_ & _ & _ & ->) | (_ & ? & _)]; [|discriminate].
      eexists. split; [cbn; apply lookup_insert_eq|]. auto. }
  destruct Hone as (e2 & He2 & Hr2 & Hs).
  eexists. split; [reflexivity|].
  assert (Hgone : m_scope_token
                    (w_release_scope scope true
                       (after_call
                          (reissue_request url tok (mkTimeout (sat_add (now w) timeout)) w2)
                          (next_response w2) w2)) !! scope = None).
  { unfold w_release_scope, w_release. rewrite Hs.
    cbn [negb c_get c_set scope_token_cache m_scope_token after_call w_emit].
    rewrite He2, Hr2. rewrite orb_true_r. cbn. apply lookup_delete_eq. }
  split; [exact Hgone|].
  unfold cache_find. cbn [c_get scope_token_cache]. now rewrite Hgone.
Qed.

(** ** More on the blob GET *)

Lemma get_data_hit url offset count timeout op w e :
  cache_find url_info_cache url w = Some e →
  get_data url offset count timeout op w
  = Some ((0, next_response w),
          w_release url_info_cache url (negb (status_ok (next_response w)))
            (after_call
               (data_request url (e_value e) (m_accelerate w) offset count
                  (remaining w timeout))
               (next_response w) (w_hit url_info_cache url e w))).
Proof.
  intros Hf. rewrite get_data_run. cbv zeta. unfold acquire. rewrite Hf. reflexivity.
Qed.


(** Every resolution begins with the probe. *)
Lemma get_actual_url_probe_first url timeout code w x w' :
  get_actual_url url timeout code w = Some (x, w') →
  ∃ new, log w' = new ++ EvHttp (probe_request url w (remaining w timeout))
                           (next_response w) :: log w.
Proof.
  rewrite get_actual_url_stages. cbv zeta.
  destruct (get_scope_auth url (remaining w timeout) w) as [[[[r0 authurl] scope] w1]|] eqn:E1;
    [|discriminate].
  apply get_scope_auth_log in E1 as (L1 & _).
  destruct (r0 <? 0).
  { intros H. inversion H; subst. exists []. exact L1. }
  destruct (acquire_scope_token url authurl scope _ code w1) as [[[token c2] w2]|] eqn:E2;
    [|discriminate].
  apply acquire_scope_token_cases in E2
    as [(Hs & -> & -> & ->) | [(Hs & -> & tok & hit & new & -> & L2 & _) | (Hs & -> & -> & rq & r2 & L2)]];
    rewrite Hs; cbn [negb andb].
  - discriminate.
  - replace (negb (bool_decide (is_Some (Some tok)))) with false
      by (symmetry; apply negb_false_iff, bool_decide_eq_true; eauto).
    rewrite reissue_run, url_info_of_response_run.
    unfold w_release_scope. rewrite Hs. cbn [negb].
    intros H.
    assert (∃ e1 e2, log w' = e1 :: e2 :: log w2) as (e1 & e2 & L3).
    { repeat match type of H with
             | context [if ?b then _ else _] => destruct b
             end; inversion H; subst; rewrite w_release_scope_token_log; cbn; eauto. }
    exists (e1 :: e2 :: EvAcquire ScopeTokenCache scope hit :: new).
    rewrite L3, L2, L1. reflexivity.
  - replace (negb (bool_decide (is_Some (@None string)))) with true
      by (symmetry; apply negb_true_iff, bool_decide_eq_false; intros [? ?]; discriminate).
    intros H. inversion H; subst. eexists [_; _; _]. rewrite L2, L1. reflexivity.
Qed.

(** X7: After a blob GET answered with a status other than 200 and 206 the
    resolved URL is forgotten (nobody else holding it): the entry is gone, and
    the next [get_data] of the URL, called in the state this one left,
    starts over with the probe. *)
Theorem failed_get_resolves_again url offset count timeout op w ret op' w' rest :
  get_data url offset count timeout op w = Some ((ret, op'), w') →
  log w' = EvRelease UrlInfoCache url true :: rest →
  (∀ e, m_url_info w !! url = Some e → e_refcnt e = 0%nat) →
  m_url_info w' !! url = None
  ∧ ∀ offset2 count2 timeout2 op2 x w'',
      get_data url offset2 count2 timeout2 op2 w' = Some (x, w'') →
      ∃ new rq, log w'' = new ++ EvHttp rq (next_response w') :: log w'
                ∧ req_url rq = url ∧ req_authorization rq = None
                ∧ req_range rq = Some (0, 0).
Proof.
  intros H L Hheld.
  assert (Hgone : m_url_info w' !! url = None).
  { revert H. rewrite get_data_run. cbv zeta. unfold acquire.
    destruct (cache_find url_info_cache url w) as [e|] eqn:Hf.
    - intros H. injection H as _ _ Hw. subst w'.
      rewrite w_release_url_info_log in L. injection L as Hp _.
      assert (E0 : m_url_info w !! url = Some e).
      { unfold cache_find in Hf. cbn [c_get url_info_cache] in Hf.
        destruct (m_url_info w !! url) as [e0|]; [|discriminate].
        destruct (live e0 (now w)); now inversion Hf. }
      unfold w_release.
      cbn [c_get c_set url_info_cache m_url_info after_call w_hit w_emit now].
      rewrite lookup_insert_eq. cbn [e_refcnt e_poisoned e_expire e_value Nat.pred].
      rewrite (Hheld _ E0), Hp. rewrite orb_true_r. cbn.
      rewrite delete_insert_eq. apply lookup_delete_eq.
    - destruct (url_info_ctor url _ 0 (w_miss url_info_cache url w))
        as [[[[ai|] code'] w1]|]; [| |discriminate];
        intros H; injection H as _ _ Hw; subst w'.
      + rewrite w_release_url_info_log in L. injection L as Hp _.
        unfold w_release.
        cbn [c_get c_set url_info_cache m_url_info after_call w_installed w_emit now].
        rewrite lookup_insert_eq. cbn [e_refcnt e_poisoned e_expire e_value Nat.pred].
        rewrite Hp. cbn. rewrite delete_insert_eq. apply lookup_delete_eq.
      + cbn in L. discriminate. }
  split; [exact Hgone|].
  intros offset2 count2 timeout2 op2 x w''. rewrite get_data_run. cbv zeta.
  unfold acquire.
  replace (cache_find url_info_cache url w') with (@None (Entry UrlInfo))
    by (unfold cache_find; cbn [c_get url_info_cache]; now rewrite Hgone).
  unfold_url_info_ctor. unfold_clock. munfold. cbn [m_expire].
  destruct (get_actual_url url _ 0 (w_miss url_info_cache url w'))
    as [[[[ai|] code'] w1]|] eqn:E; [| |discriminate];
    apply get_actual_url_probe_first in E as (new & L1);
    change (log (w_miss url_info_cache url w')) with (log w') in L1;
    change (next_response (w_miss url_info_cache url w')) with (next_response w') in L1;
    intros H2; injection H2 as _ Hw; subst w''.
  - eexists (_ :: _ :: _ :: new), _.
    rewrite w_release_url_info_log. cbn. rewrite L1.
    split; [reflexivity|]. repeat split.
  - eexists (_ :: new), _. cbn. rewrite L1. split; [reflexivity|]. repeat split.
Qed.

(** X8: The accelerator address set, a blob GET on a resolved URL goes to the
    address, a slash and the target (the location of a redirect, the URL
    itself otherwise); an empty address leaves the target alone. Setting the
    address touches neither cache. *)
Theorem accelerator_rewrites_blob_get url addr offset count timeout op w e :
  cache_find url_info_cache url w = Some e →
  ∃ w0,
    setAccelerateAddress addr w = Some (0, w0)
    ∧ m_url_info w0 = m_url_info w ∧ m_scope_token w0 = m_scope_token w
    ∧ ∃ rq w',
        get_data url offset count timeout op w0 = Some ((0, next_response w), w')
        ∧ log w' = EvRelease UrlInfoCache url (negb (status_ok (next_response w)))
                     :: EvHttp rq (next_response w)
                     :: EvAcquire UrlInfoCache url true :: log w
        ∧ req_url rq
          = (let target := match mode (e_value e) with
                           | Redirect => info (e_value e)
                           | Self => url
                           end in
             if EString.empty addr then target else addr +:+ "/" +:+ target)
        ∧ req_range rq = Some (wrap64 offset, wrap64 (offset + count - 1))
        ∧ (mode (e_value e) = Redirect → req_authorization rq = None).
Proof.
  intros Hf.
  set (w0 := mkWorld (script w) (now w) (errno w) (m_scope_token w) (m_url_info w) addr
               (log w)).
  assert (Hf0 : cache_find url_info_cache url w0 = Some e) by exact Hf.
  exists w0. split; [reflexivity|]. split; [reflexivity|]. split; [reflexivity|].
  eexists _, _. split; [exact (get_data_hit url offset count timeout op w0 e Hf0)|].
  rewrite w_release_url_info_log. split; [reflexivity|].
  cbn [m_accelerate w0]. unfold data_request. cbn [req_url req_range req_authorization].
  split; [|split; [reflexivity|]].
  - destruct (EString.empty addr); reflexivity.
  - intros ->. reflexivity.
Qed.

(** ** More on [preadv] *)

Lemma preadv_again_attempts url filesize tmo iov offset retry w r w' :
  preadv_again url filesize tmo iov offset retry w = Some (r, w') →
  ∃ n w0 ret op w1,
    (n ≤ retry)%nat
    ∧ failed_reads url filesize tmo iov offset n w w0
    ∧ get_data url offset (clamp_count iov offset filesize)
        (sat_sub (m_expire tmo) (now w0)) HTTP_OP_new w0
      = Some ((ret, op), w1)
    ∧ if status_ok op then r = readv op iov ∧ w' = w1
      else r = -1
           ∧ if m_expire tmo <? now w1 then w' = w_errno ETIMEDOUT w1
             else n = retry ∧ w' = w_errno ENOENT w1.
Proof.
  revert w. induction retry as [|retry IH]; intros w; simpl_preadv_again;
    unfold_clock; unfold LOG_ERROR_RETURN, set_errno, thread_usleep, advance, emit;
    munfold;
    destruct (get_data url offset (clamp_count iov offset filesize)
                (sat_sub (m_expire tmo) (now w)) HTTP_OP_new w)
      as [[[ret op] w1]|] eqn:E; try discriminate;
    destruct (status_ok op) eqn:Eok; cbn [negb].
  - intros H. inversion H; subst. exists 0%nat, w, ret, op, w'.
    rewrite Eok. repeat split; auto. constructor.
  - destruct (m_expire tmo <? now w1) eqn:Et;
      intros H; inversion H; subst; exists 0%nat, w, ret, op, w1;
      rewrite Eok, Et; repeat split; auto; constructor.
  - intros H. inversion H; subst. exists 0%nat, w, ret, op, w'.
    rewrite Eok. repeat split; auto; [lia | constructor].
  - destruct (m_expire tmo <? now w1) eqn:Et.
    + intros H. inversion H; subst. exists 0%nat, w, ret, op, w1.
      rewrite Eok, Et. repeat split; auto; [lia | constructor].
    + intros H. apply IH in H as (n & w0 & ret' & op' & w1' & Hn & Hf & Hg & Hr).
      exists (S n), w0, ret', op', w1'. repeat split; [lia | | exact Hg |].
      * econstructor; eauto.
      * destruct (status_ok op'); [exact Hr|].
        destruct Hr as [-> Hr]. split; [reflexivity|].
        destruct (m_expire tmo <? now w1'); [exact Hr|].
        destruct Hr as [-> ->]. auto.
Qed.

(** X9: [preadv] on a file of known size makes at most four attempts, with
    a sleep of one millisecond before each retry. It returns the bytes of the
    first response with status 200 or 206, never more than the buffers hold.
    When an attempt fails after the deadline it returns -1 with ETIMEDOUT;
    when the fourth attempt fails before the deadline it returns -1 with
    ENOENT, whatever the status: 401 and 403 are not told apart. *)
Theorem preadv_attempts f iov offset w r f' w' :
  m_filesize f ≠ 0 →
  preadv f iov offset w = Some ((r, f'), w') →
  let tmo := mkTimeout (sat_add (now w) (m_timeout f)) in
  ∃ n w0 ret op w1,
    (n ≤ 3)%nat
    ∧ failed_reads (m_url f) (m_filesize f) tmo iov offset n w w0
    ∧ get_data (m_url f) offset (clamp_count iov offset (m_filesize f))
        (sat_sub (m_expire tmo) (now w0)) HTTP_OP_new w0
      = Some ((ret, op), w1)
    ∧ (status_ok op = true →
       r = Z.min (iov_sum iov) (Z.of_nat (String.length (resp_body op)))
       ∧ 0 ≤ r ≤ iov_sum iov ∧ w' = w1)
    ∧ (status_ok op = false → r = -1)
    ∧ (status_ok op = false → m_expire tmo < now w1 → errno w' = ETIMEDOUT)
    ∧ (status_ok op = false → now w1 ≤ m_expire tmo → n = 3%nat ∧ errno w' = ENOENT).
Proof.
  intros Hf H tmo. rewrite (preadv_known f iov offset w Hf) in H. fold tmo in H.
  destruct (preadv_again (m_url f) (m_filesize f) tmo iov offset 3 w) as [[r0 w0']|] eqn:E;
    [|discriminate].
  inversion H; subst. clear H.
  apply preadv_again_attempts in E as (n & w0 & ret & op & w1 & Hn & Hfa & Hg & Hr).
  exists n, w0, ret, op, w1.
  split; [exact Hn|]. split; [exact Hfa|]. split; [exact Hg|].
  destruct (status_ok op).
  - destruct Hr as [-> ->].
    assert (0 ≤ iov_sum iov) by (unfold iov_sum, wrap64; apply Z.mod_pos_bound; lia).
    unfold readv. repeat split; try discriminate; lia.
  - destruct Hr as [-> Hr]. destruct (Z.ltb_spec (m_expire tmo) (now w1)).
    + subst w'. repeat split; try discriminate; try lia.
    + destruct Hr as [-> ->]. repeat split; try discriminate; try lia.
Qed.

(** X10: For an offset inside a file of known size and a non-empty request,
    [preadv] never asks the server for a byte outside the file: the range of
    its GET starts at the offset, ends at or before the last byte of the file,
    and spans min(requested, filesize - offset) bytes. *)
Theorem preadv_range_inside_file f iov offset w r f' w' :
  0 ≤ offset < m_filesize f → m_filesize f < 2 ^ 64 →
  0 < fold_right Z.add 0 iov → fold_right Z.add 0 iov + offset < 2 ^ 64 →
  preadv f iov offset w = Some ((r, f'), w') →
  r ≠ -1 →
  ∃ rq op before last,
    log w' = EvRelease UrlInfoCache (m_url f) false :: EvHttp rq op :: before
    ∧ req_range rq = Some (offset, last)
    ∧ offset ≤ last ≤ m_filesize f - 1
    ∧ last - offset + 1 = Z.min (fold_right Z.add 0 iov) (m_filesize f - offset).
Proof.
  intros Ho Hf Hs Hso H Hr.
  rewrite (preadv_known f iov offset w) in H by lia.
  destruct (preadv_again _ _ _ _ _ _ _) as [[r0 w0]|] eqn:E; [|discriminate].
  injection H as E1 E2 E3. subst r0 f' w0.
  apply preadv_again_result in E as [-> | (rq & op & before & L & Hq & Hok & _)];
    [contradiction|].
  rewrite clamp_count_inside in Hq by lia.
  exists rq, op, before,
    (offset + Z.min (fold_right Z.add 0 iov) (m_filesize f - offset) - 1).
  split; [exact L|]. split; [|lia].
  rewrite Hq. unfold wrap64. rewrite !Z.mod_small by lia. reflexivity.
Qed.

(** ** More on the challenge parser *)

Lemma find_first_of_app key raw :
  has_char EString.equals key = false →
  EString.find_first_of EString.equals (key +:+ String EString.equals raw)
  = Some (String.length key).
Proof.
  intros Hk. induction key as [|c k IH]; push_app; simpl.
  - reflexivity.
  - simpl in Hk. apply orb_false_iff in Hk as [Hc Hk]. rewrite Hc, (IH Hk). reflexivity.
Qed.

(** A token [key=raw]: the key is what stands before the first [=], the
    value is [raw] without the double quotes at its ends. *)
Lemma kv_of_raw key raw :
  has_char EString.equals key = false →
  kv_of_token (key +:+ String EString.equals raw)
  = (key, EString.trim EString.dquote raw).
Proof.
  intros Hk. unfold kv_of_token. rewrite (find_first_of_app key raw Hk). f_equal.
  - clear. induction key as [|c k IH]; push_app; simpl; [reflexivity | now rewrite IH].
  - f_equal. clear. induction key as [|c k IH]; push_app; simpl; [reflexivity | exact IH].
Qed.

Lemma trim_open_quote s :
  EString.ltrim EString.dquote s = s →
  EString.rtrim EString.dquote s = s →
  EString.trim EString.dquote (String EString.dquote s) = s.
Proof.
  intros Hl Hr. unfold EString.trim.
  change (EString.ltrim EString.dquote (String EString.dquote s))
    with (EString.ltrim EString.dquote s).
  now rewrite Hl.
Qed.

(** X11: A comma inside the quoted scope cuts the scope: of
    [scope="A,B"] only [A] is kept, in the scope and in the authentication
    URL. *)
Theorem comma_cuts_quoted_scope (R S A B : string) :
  has_char EString.comma R = false →
  has_char EString.comma S = false →
  has_char EString.comma A = false →
  EString.ltrim EString.dquote R = R ∧ EString.rtrim EString.dquote R = R →
  EString.ltrim EString.dquote S = S ∧ EString.rtrim EString.dquote S = S →
  EString.ltrim EString.dquote A = A ∧ EString.rtrim EString.dquote A = A →
  challenge_auth (Scenario.format_challenge R S (A +:+ "," +:+ B))
  = Some (R +:+ "?service=" +:+ S +:+ "&scope=" +:+ A, A).
Proof.
  intros HR HS HA [LR TR] [LS TS] [LA TA].
  unfold challenge_auth, Scenario.format_challenge.
  change ("Bearer realm=" +:+ ?x) with (kBearerAuthPrefix +:+ ("realm=" +:+ x)).
  rewrite starts_with_app, substr_app. cbn [negb]. cbv zeta.
  assert (E : "realm=" +:+ Scenario.quoted R +:+ ",service=" +:+ Scenario.quoted S
                +:+ ",scope=" +:+ Scenario.quoted (A +:+ "," +:+ B)
              = ("realm=" +:+ Scenario.quoted R) +:+ String EString.comma
                  (("service=" +:+ Scenario.quoted S) +:+ String EString.comma
                     (("scope=" +:+ String EString.dquote A) +:+ String EString.comma
                        (B +:+ String EString.dquote EmptyString)))).
  { unfold Scenario.quoted at 3. rewrite !append_assoc'. reflexivity. }
  rewrite E. clear E.
  assert (Hq : has_char EString.comma ("scope=" +:+ String EString.dquote A) = false).
  { rewrite has_char_app. cbn [has_char]. now rewrite HA. }
  assert (Hlook : ∀ key,
             str_to_kvmap
               (("realm=" +:+ Scenario.quoted R) +:+ String EString.comma
                  (("service=" +:+ Scenario.quoted S) +:+ String EString.comma
                     (("scope=" +:+ String EString.dquote A) +:+ String EString.comma
                        (B +:+ String EString.dquote EmptyString)))) !! key
             = first_value key
                 (("realm" +:+ String EString.equals (Scenario.quoted R))
                  :: ("service" +:+ String EString.equals (Scenario.quoted S))
                  :: ("scope" +:+ String EString.equals (String EString.dquote A))
                  :: EString.split EString.comma (B +:+ String EString.dquote EmptyString))).
  { intros key. unfold str_to_kvmap. rewrite str_to_kvmap_fold, lookup_empty.
    unfold EString.split.
    rewrite !pieces_app
      by (assumption || (apply has_char_param; [reflexivity | reflexivity | assumption])).
    reflexivity. }
  rewrite !Hlook. cbn [first_value].
  rewrite !kv_of_param by (assumption || reflexivity).
  rewrite kv_of_raw by reflexivity. rewrite trim_open_quote by assumption.
  cbn [fst snd]. repeat case_decide; done.
Qed.

(** X12: Keys are compared as they stand: with a space after the comma the key
    is [ service], the key service is missing, and the challenge is
    refused. *)
Theorem space_after_comma_refused (R S P : string) :
  has_char EString.comma R = false →
  has_char EString.comma S = false →
  has_char EString.comma P = false →
  challenge_auth
    ("Bearer realm=" +:+ Scenario.quoted R +:+ ", service=" +:+ Scenario.quoted S
       +:+ ",scope=" +:+ Scenario.quoted P)
  = None.
Proof.
  intros HR HS HP. unfold challenge_auth.
  change ("Bearer realm=" +:+ ?x) with (kBearerAuthPrefix +:+ ("realm=" +:+ x)).
  rewrite starts_with_app, substr_app. cbn [negb]. cbv zeta.
  assert (E : "realm=" +:+ Scenario.quoted R +:+ ", service=" +:+ Scenario.quoted S
                +:+ ",scope=" +:+ Scenario.quoted P
              = ("realm=" +:+ Scenario.quoted R) +:+ String EString.comma
                  ((" service=" +:+ Scenario.quoted S) +:+ String EString.comma
                     ("scope=" +:+ Scenario.quoted P))).
  { rewrite !append_assoc'. reflexivity. }
  rewrite E. clear E.
  assert (Hlook : str_to_kvmap
                    (("realm=" +:+ Scenario.quoted R) +:+ String EString.comma
                       ((" service=" +:+ Scenario.quoted S) +:+ String EString.comma
                          ("scope=" +:+ Scenario.quoted P))) !! "service"
                  = first_value "service"
                      [("realm" +:+ String EString.equals (Scenario.quoted R));
                       (" service" +:+ String EString.equals (Scenario.quoted S));
                       ("scope" +:+ String EString.equals (Scenario.quoted P))]).
  { unfold str_to_kvmap. rewrite str_to_kvmap_fold, lookup_empty. unfold EString.split.
    rewrite !pieces_app, pieces_no_sep
      by (apply has_char_param; [reflexivity | reflexivity | assumption]).
    reflexivity. }
  rewrite Hlook. cbn [first_value].
  rewrite !kv_of_raw by reflexivity. cbn [fst snd].
  repeat case_decide; try discriminate.
  now destruct (str_to_kvmap _ !! "realm").
Qed.

Lemma has_char_pieces sep s t :
  In t (EString.pieces sep s) → has_char sep t = false.
Proof.
  revert t. induction s as [|c s IH]; intros t; simpl.
  - intros [<- | []]. reflexivity.
  - destruct (Ascii.eqb c sep) eqn:Ec.
    + intros [<- | Hin]; [reflexivity | now apply IH].
    + destruct (EString.pieces sep s) as [|t0 ts] eqn:Ep.
      * intros [<- | []]. simpl. now rewrite Ec.
      * intros [<- | Hin].
        -- simpl. rewrite Ec. apply IH. now left.
        -- apply IH. now right.
Qed.

Lemma has_char_prefix_of c n s :
  has_char c s = false → has_char c (EString.prefix_of n s) = false.
Proof.
  revert s. induction n as [|n IH]; intros s; simpl; [reflexivity|].
  destruct s as [|d s]; simpl; [reflexivity|].
  intros H. apply orb_false_iff in H as [Hd Hs]. now rewrite Hd, IH.
Qed.

Lemma has_char_substr c n s :
  has_char c s = false → has_char c (EString.substr n s) = false.
Proof.
  revert s. induction n as [|n IH]; intros s; simpl; [exact (fun H => H)|].
  destruct s as [|d s]; simpl; [reflexivity|].
  intros H. apply orb_false_iff in H as [_ Hs]. now apply IH.
Qed.

Lemma has_char_ltrim c q s : has_char c s = false → has_char c (EString.ltrim q s) = false.
Proof.
  induction s as [|d s IH]; simpl; [reflexivity|].
  intros H. destruct (Ascii.eqb d q); [|exact H].
  apply orb_false_iff in H as [_ Hs]. now apply IH.
Qed.

Lemma has_char_rtrim c q s : has_char c s = false → has_char c (EString.rtrim q s) = false.
Proof.
  induction s as [|d s IH]; simpl; [reflexivity|].
  intros H. apply orb_false_iff in H as [Hd Hs]. specialize (IH Hs).
  destruct (EString.rtrim q s) as [|e t].
  - destruct (Ascii.eqb d q); simpl; [reflexivity | now rewrite Hd].
  - simpl in *. now rewrite Hd.
Qed.

Lemma find_first_of_prefix c s n :
  EString.find_first_of c s = Some n → has_char c (EString.prefix_of n s) = false.
Proof.
  revert n. induction s as [|d s IH]; intros n; simpl; [discriminate|].
  destruct (Ascii.eqb d c) eqn:Ed.
  - intros H. inversion H. reflexivity.
  - destruct (EString.find_first_of c s) as [m|]; [|discriminate].
    intros H. inversion H. simpl. rewrite Ed. now apply IH.
Qed.

Lemma find_first_of_none c s : EString.find_first_of c s = None → has_char c s = false.
Proof.
  induction s as [|d s IH]; simpl; [reflexivity|].
  destruct (Ascii.eqb d c); [discriminate|].
  destruct (EString.find_first_of c s); [discriminate|]. intros _. now apply IH.
Qed.

Lemma ltrim_ltrim c s : EString.ltrim c (EString.ltrim c s) = EString.ltrim c s.
Proof.
  induction s as [|d s IH]; simpl; [reflexivity|].
  destruct (Ascii.eqb d c) eqn:Ed; [exact IH|]. simpl. now rewrite Ed.
Qed.

Lemma rtrim_rtrim c s : EString.rtrim c (EString.rtrim c s) = EString.rtrim c s.
Proof.
  induction s as [|d s IH]; simpl; [reflexivity|].
  destruct (EString.rtrim c s) as [|e t] eqn:Er.
  - destruct (Ascii.eqb d c) eqn:Ed; simpl; [reflexivity | now rewrite Ed].
  - change (EString.rtrim c (String d (String e t)))
      with (match EString.rtrim c (String e t) with
            | EmptyString => if Ascii.eqb d c then EmptyString else String d EmptyString
            | u => String d u
            end).
    now rewrite IH.
Qed.

Lemma ltrim_rtrim c s :
  EString.ltrim c s = s → EString.ltrim c (EString.rtrim c s) = EString.rtrim c s.
Proof.
  destruct s as [|d s]; [reflexivity|]. simpl.
  destruct (Ascii.eqb d c) eqn:Ed.
  - intros H. exfalso. apply (f_equal String.length) in H. simpl in H.
    pose proof (ltrim_length c s). lia.
  - intros _. destruct (EString.rtrim c s); simpl; now rewrite Ed.
Qed.

Lemma first_value_some key tokens v :
  first_value key tokens = Some v →
  ∃ t, In t tokens ∧ kv_of_token t = (key, v).
Proof.
  induction tokens as [|t ts IH]; simpl; [discriminate|].
  case_decide as Hk.
  - intros H. inversion H. exists t. split; [now left|].
    rewrite <- Hk. now destruct (kv_of_token t).
  - intros H. destruct (IH H) as (t' & Hin & E). exists t'. auto.
Qed.

(** X13: What [str_to_kvmap] never yields: a key with a comma or an equals sign
    in it, a value with a comma in it, a value that begins or ends with a
    double quote. *)
Theorem kvmap_entries_clean src key v :
  str_to_kvmap src !! key = Some v →
  has_char EString.comma key = false
  ∧ has_char EString.equals key = false
  ∧ has_char EString.comma v = false
  ∧ EString.ltrim EString.dquote v = v
  ∧ EString.rtrim EString.dquote v = v.
Proof.
  unfold str_to_kvmap. rewrite str_to_kvmap_fold, lookup_empty.
  intros H. apply first_value_some in H as (t & Hin & E).
  unfold EString.split in Hin. apply filter_In in Hin as [Hin _].
  apply has_char_pieces in Hin.
  unfold kv_of_token in E.
  destruct (EString.find_first_of EString.equals t) as [pos|] eqn:Ef;
    inversion E; subst; clear E.
  - split; [now apply has_char_prefix_of|].
    split; [now apply find_first_of_prefix|].
    split; [apply has_char_rtrim, has_char_ltrim;
            exact (has_char_substr EString.comma (S pos) t Hin)|].
    unfold EString.trim. split; [apply ltrim_rtrim, ltrim_ltrim | apply rtrim_rtrim].
  - split; [exact Hin|].
    split; [now apply find_first_of_none|].
    split; [now apply has_char_rtrim, has_char_ltrim|].
    unfold EString.trim. split; [apply ltrim_rtrim, ltrim_ltrim | apply rtrim_rtrim].
Qed.


(** ** [open] and [stat] *)

Lemma open_run fs_timeout path w :
  open fs_timeout path w
  = match get_length (mkFile path fs_timeout 0) fs_timeout w with
    | None => None
    | Some (r, w') =>
        if r <? 0 then Some (None, w')
        else Some (Some (mkFile path fs_timeout (wrap64 r)), w')
    end.
Proof.
  unfold_open. cbv zeta. munfold. rewrite fstat_unknown by reflexivity.
  cbn [m_timeout m_url].
  destruct (get_length (mkFile path fs_timeout 0) fs_timeout w) as [[r w']|];
    [|reflexivity].
  destruct (r <? 0) eqn:E; reflexivity.
Qed.

Lemma meta_ctor_run fs_timeout path w :
  meta_ctor fs_timeout path w
  = match get_length (mkFile path fs_timeout 0) fs_timeout w with
    | None => None
    | Some (r, w1) =>
        if r <? 0 then Some (None, w1)
        else if wrap64 r =? 0 then
          match get_length (mkFile path fs_timeout 0) fs_timeout w1 with
          | None => None
          | Some (r2, w2) =>
              if r2 <? 0 then Some (None, w2) else Some (Some (wrap64 r2), w2)
          end
        else Some (Some (wrap64 r), w1)
    end.
Proof.
  unfold_meta_ctor. munfold. rewrite open_run.
  destruct (get_length (mkFile path fs_timeout 0) fs_timeout w) as [[r w1]|];
    [|reflexivity].
  destruct (r <? 0); [reflexivity|].
  destruct (Z.eqb_spec (wrap64 r) 0) as [Hz|Hz].
  - rewrite Hz. rewrite fstat_unknown by reflexivity. cbn [m_timeout m_url].
    destruct (get_length (mkFile path fs_timeout 0) fs_timeout w1) as [[r2 w2]|];
      [|reflexivity].
    destruct (r2 <? 0); [reflexivity|].
    cbn [st_size]. change (0 <? 0) with false. cbv iota.
    now rewrite wrap64_to_int64, wrap64_wrap64.
  - rewrite fstat_known by exact Hz. cbn [st_size m_filesize].
    change (0 <? 0) with false. cbv iota.
    now rewrite wrap64_to_int64, wrap64_wrap64.
Qed.

Lemma meta_release_fresh path v exp t (meta : gmap string (Entry Z)) :
  t < exp →
  meta_release path false t (<[path := mkEntry v exp 1 false]> (delete path meta))
  = <[path := mkEntry v exp 0 false]> meta.
Proof.
  intros H. unfold meta_release. rewrite lookup_insert_eq. cbn.
  destruct (Z.leb_spec exp t); [lia|]. cbn.
  now rewrite insert_insert_eq, insert_delete_eq.
Qed.

Lemma meta_release_hit path e t (meta : gmap string (Entry Z)) :
  meta !! path = Some e → live e t = true → e_poisoned e = false →
  meta_release path false t
    (<[path := mkEntry (e_value e) (e_expire e) (S (e_refcnt e)) (e_poisoned e)]> meta)
  = meta.
Proof.
  intros Hm Hl Hp. unfold meta_release. rewrite lookup_insert_eq. cbn.
  rewrite Hp. cbn. unfold live in Hl.
  assert (Nat.eqb (e_refcnt e) 0 && (e_expire e <=? t) = false) as ->.
  { destruct (e_refcnt e); cbn in *; [|reflexivity].
    destruct (Z.ltb_spec t (e_expire e)); [|discriminate].
    destruct (Z.leb_spec (e_expire e) t); [lia|reflexivity]. }
  rewrite insert_insert_eq. apply insert_id. rewrite Hm. f_equal.
  destruct e; cbn in *. now subst.
Qed.

Lemma fs_stat_hit fs_timeout path buf meta w e :
  meta !! path = Some e → live e (now w) = true → e_poisoned e = false →
  fs_stat fs_timeout path buf meta w
  = Some (0, mkStat (S_IFREG + S_IREAD) (to_int64 (e_value e)), meta, w).
Proof.
  intros Hm Hl Hp. unfold_fs_stat. unfold meta_find. rewrite Hm, Hl.
  now rewrite meta_release_hit.
Qed.

Lemma fs_stat_on_miss fs_timeout path buf meta w :
  meta_find meta path (now w) = None →
  fs_stat fs_timeout path buf meta w
  = match meta_ctor fs_timeout path w with
    | None => None
    | Some (None, w1) => Some (-1, buf, delete path meta, w1)
    | Some (Some v, w1) =>
        Some (0, mkStat (S_IFREG + S_IREAD) (to_int64 v),
              <[path := mkEntry v (now w1 + kMinimalMetaLife) 0 false]> meta, w1)
    end.
Proof.
  intros Hmiss. unfold_fs_stat. rewrite Hmiss.
  destruct (meta_ctor fs_timeout path w) as [[[v|] w1]|]; try reflexivity.
  now rewrite meta_release_fresh by (unfold kMinimalMetaLife; lia).
Qed.

(** X14: [open] sends what one [get_length] with the file system's timeout
    sends and nothing more, leaves [errno] as that call left it, returns a
    file exactly when the length is not negative, and a file of a non-empty
    blob then answers [fstat] from its field without a request. *)
Theorem open_result fs_timeout path w res w' :
  open fs_timeout path w = Some (res, w') →
  ∃ r, get_length (mkFile path fs_timeout 0) fs_timeout w = Some (r, w')
    ∧ (r < 0 → res = None)
    ∧ (0 ≤ r →
       res = Some (mkFile path fs_timeout (wrap64 r))
       ∧ (wrap64 r ≠ 0 → ∀ buf w2,
            fstat (mkFile path fs_timeout (wrap64 r)) buf w2
            = Some ((0, mkStat (S_IFREG + S_IREAD) (to_int64 (wrap64 r)),
                     mkFile path fs_timeout (wrap64 r)), w2))).
Proof.
  rewrite open_run.
  destruct (get_length (mkFile path fs_timeout 0) fs_timeout w) as [[r w1]|];
    [|discriminate].
  destruct (Z.ltb_spec r 0) as [Hr|Hr]; intros H; injection H as <- <-;
    exists r; (split; [reflexivity|]); (split; [intros; try reflexivity; lia|]).
  - intros; lia.
  - intros _. split; [reflexivity|]. intros Hz buf w2.
    now rewrite fstat_known.
Qed.

(** X15: on a miss [stat] measures the blob with [get_length]; a failure
    returns -1, leaves [*buf] alone and stores nothing; a size other than 0
    is stored for 300 seconds; and a blob measured as empty is measured a
    second time before its size is stored. *)
Theorem stat_miss fs_timeout path buf meta w ret st meta' w' :
  meta_find meta path (now w) = None →
  fs_stat fs_timeout path buf meta w = Some (ret, st, meta', w') →
  let file := mkFile path fs_timeout 0 in
  let stored r wr :=
    ret = 0 ∧ st = mkStat (S_IFREG + S_IREAD) (to_int64 (wrap64 r)) ∧ w' = wr
    ∧ meta' = <[path := mkEntry (wrap64 r) (now wr + kMinimalMetaLife) 0 false]> meta in
  let failed wr := ret = -1 ∧ st = buf ∧ w' = wr ∧ meta' = delete path meta in
  ∃ r w1, get_length file fs_timeout w = Some (r, w1)
    ∧ (r < 0 → failed w1)
    ∧ (0 ≤ r → wrap64 r ≠ 0 → stored r w1)
    ∧ (0 ≤ r → wrap64 r = 0 →
       ∃ r2 w2, get_length file fs_timeout w1 = Some (r2, w2)
         ∧ (r2 < 0 → failed w2) ∧ (0 ≤ r2 → stored r2 w2)).
Proof.
  intros Hmiss H file stored failed. revert H. unfold_fs_stat. rewrite Hmiss.
  rewrite meta_ctor_run. fold file.
  destruct (get_length file fs_timeout w) as [[r w1]|]; [|discriminate].
  destruct (Z.ltb_spec r 0) as [Hr|Hr].
  { intros H. injection H as <- <- <- <-. exists r, w1.
    split; [reflexivity|]. split; [intros _; now repeat split|].
    split; intros; lia. }
  destruct (Z.eqb_spec (wrap64 r) 0) as [Hz|Hz].
  - destruct (get_length file fs_timeout w1) as [[r2 w2]|] eqn:E2; [|discriminate].
    destruct (Z.ltb_spec r2 0) as [Hr2|Hr2]; intros H.
    + injection H as <- <- <- <-. exists r, w1. split; [reflexivity|].
      split; [intros; lia|]. split; [intros; contradiction|].
      intros _ _. exists r2, w2. split; [exact E2|].
      split; [intros _; now repeat split|intros; lia].
    + rewrite meta_release_fresh in H by (unfold kMinimalMetaLife; lia).
      injection H as <- <- <- <-. exists r, w1. split; [reflexivity|].
      split; [intros; lia|]. split; [intros; contradiction|].
      intros _ _. exists r2, w2. split; [exact E2|].
      split; [intros; lia|intros _; now repeat split].
  - intros H. rewrite meta_release_fresh in H by (unfold kMinimalMetaLife; lia).
    injection H as <- <- <- <-. exists r, w1. split; [reflexivity|].
    split; [intros; lia|]. split; [intros _ _; now repeat split|].
    intros; contradiction.
Qed.

(** X16: once [stat] has returned 0 for a path whose entry is not poisoned,
    the next [stat] of that path returns the same record without a request
    and leaves world and cache as they are; after a miss this holds for the
    300 seconds that follow. *)
Theorem stat_answers_from_cache fs_timeout path buf meta w st meta1 w1 :
  (∀ e, meta !! path = Some e → e_poisoned e = false) →
  fs_stat fs_timeout path buf meta w = Some (0, st, meta1, w1) →
  (∀ buf2 w2, now w2 = now w1 →
     fs_stat fs_timeout path buf2 meta1 w2 = Some (0, st, meta1, w2))
  ∧ (meta_find meta path (now w) = None →
     ∀ buf2 w2, now w2 < now w1 + kMinimalMetaLife →
       fs_stat fs_timeout path buf2 meta1 w2 = Some (0, st, meta1, w2)).
Proof.
  intros Hp H.
  destruct (meta_find meta path (now w)) as [e|] eqn:Ef.
  - unfold meta_find in Ef.
    destruct (meta !! path) as [e0|] eqn:Em; [|discriminate].
    destruct (live e0 (now w)) eqn:El; [|discriminate].
    injection Ef as ->.
    rewrite (fs_stat_hit _ _ _ _ _ e) in H by auto.
    injection H as <- <- <-.
    split; [|discriminate].
    intros buf2 w2 Hn. apply fs_stat_hit; auto. now rewrite Hn.
  - assert (Hfresh : ∃ v, st = mkStat (S_IFREG + S_IREAD) (to_int64 v)
              ∧ meta1 = <[path := mkEntry v (now w1 + kMinimalMetaLife) 0 false]> meta).
    { rewrite fs_stat_on_miss in H by exact Ef.
      destruct (meta_ctor fs_timeout path w) as [[[v|] wa]|]; try discriminate.
      injection H as <- <- <-. eauto. }
    destruct Hfresh as (v & -> & ->).
    assert (Hlater : ∀ buf2 w2, now w2 < now w1 + kMinimalMetaLife →
      fs_stat fs_timeout path buf2
        (<[path := mkEntry v (now w1 + kMinimalMetaLife) 0 false]> meta) w2
      = Some (0, mkStat (S_IFREG + S_IREAD) (to_int64 v),
              <[path := mkEntry v (now w1 + kMinimalMetaLife) 0 false]> meta, w2)).
    { intros buf2 w2 Hn.
      apply (fs_stat_hit _ _ _ _ _ (mkEntry v (now w1 + kMinimalMetaLife) 0 false)).
      - apply lookup_insert_eq.
      - unfold live. cbn. destruct (Z.ltb_spec (now w2) (now w1 + kMinimalMetaLife));
          [reflexivity|lia].
      - reflexivity. }
    split; [|intros _; exact Hlater].
    intros buf2 w2 Hn. apply Hlater. unfold kMinimalMetaLife. lia.
Qed.

(** X17: a [stat] that returns -1 leaves [*buf] as it was, leaves no entry for
    the path and touches no other path of the cache. *)
Theorem stat_failure_not_cached fs_timeout path buf meta w st meta1 w1 :
  fs_stat fs_timeout path buf meta w = Some (-1, st, meta1, w1) →
  st = buf ∧ meta1 !! path = None ∧ ∀ other, other ≠ path → meta1 !! other = meta !! other.
Proof.
  unfold_fs_stat.
  destruct (meta_find meta path (now w)) as [e|]; [discriminate|].
  destruct (meta_ctor fs_timeout path w) as [[[v|] w2]|]; try discriminate.
  intros H. injection H as <- <- <-.
  split; [reflexivity|]. split; [apply lookup_delete_eq|].
  intros other Hne. now apply lookup_delete_ne.
Qed.


(** ** Bounds on the requests of one call *)











(** ** References: every acquire meets its release *)

Lemma idle_delete {V} (m : gmap string (Entry V)) key : idle m → idle (delete key m).
Proof.
  intros H k e Hk. destruct (decide (key = k)) as [->|Hne].
  - rewrite lookup_delete_eq in Hk. discriminate.
  - rewrite lookup_delete_ne in Hk by done. eauto.
Qed.

Lemma held_hit {V} (m : gmap string (Entry V)) key e :
  idle m → m !! key = Some e →
  held key (<[key := mkEntry (e_value e) (e_expire e) (S (e_refcnt e)) (e_poisoned e)]> m).
Proof.
  intros H He. split.
  - eexists. rewrite lookup_insert_eq. split; [reflexivity|]. cbn.
    now rewrite (H _ _ He).
  - intros k e' Hne Hk. rewrite lookup_insert_ne in Hk by done. eauto.
Qed.

Lemma held_installed {V} (m : gmap string (Entry V)) key v x :
  idle m → held key (<[key := mkEntry v x 1 false]> m).
Proof.
  intros H. split.
  - eexists. rewrite lookup_insert_eq. split; reflexivity.
  - intros k e' Hne Hk. rewrite lookup_insert_ne in Hk by done. eauto.
Qed.

Lemma idle_after_release {V} key (p : bool) t (m : gmap string (Entry V)) :
  held key m →
  idle (match m !! key with
        | None => m
        | Some e =>
            if Nat.eqb (Nat.pred (e_refcnt e)) 0
               && ((e_poisoned e || p) || (e_expire e <=? t))
            then delete key m
            else <[key := mkEntry (e_value e) (e_expire e) (Nat.pred (e_refcnt e))
                            (e_poisoned e || p)]> m
        end).
Proof.
  intros [(e & He & Hr) Ho]. rewrite He, Hr. cbn [Nat.pred Nat.eqb andb].
  destruct (_ || _); intros k e' Hk.
  - destruct (decide (key = k)) as [->|Hne].
    + rewrite lookup_delete_eq in Hk. discriminate.
    + rewrite lookup_delete_ne in Hk by done. eauto.
  - destruct (decide (key = k)) as [->|Hne].
    + rewrite lookup_insert_eq in Hk. injection Hk as <-. reflexivity.
    + rewrite lookup_insert_ne in Hk by done. eauto.
Qed.

Lemma w_release_scope_token_maps scope p w :
  m_url_info (w_release scope_token_cache scope p w) = m_url_info w
  ∧ (held scope (m_scope_token w) →
     idle (m_scope_token (w_release scope_token_cache scope p w))).
Proof.
  split.
  - unfold w_release. cbn. destruct (m_scope_token w !! scope) as [e|]; [|reflexivity].
    destruct (_ && _); reflexivity.
  - intros Hh. apply (idle_after_release scope p (now w)) in Hh.
    unfold w_release. cbn. destruct (m_scope_token w !! scope) as [e|]; [|exact Hh].
    destruct (_ && _); exact Hh.
Qed.

Lemma w_release_url_info_maps url p w :
  m_scope_token (w_release url_info_cache url p w) = m_scope_token w
  ∧ (held url (m_url_info w) →
     idle (m_url_info (w_release url_info_cache url p w))).
Proof.
  split.
  - unfold w_release. cbn. destruct (m_url_info w !! url) as [e|]; [|reflexivity].
    destruct (_ && _); reflexivity.
  - intros Hh. apply (idle_after_release url p (now w)) in Hh.
    unfold w_release. cbn. destruct (m_url_info w !! url) as [e|]; [|exact Hh].
    destruct (_ && _); exact Hh.
Qed.

Lemma cache_find_lookup {V} (c : CacheRef V) key w e :
  cache_find c key w = Some e → c_get c w !! key = Some e.
Proof.
  unfold cache_find. destruct (c_get c w !! key) as [e0|]; [|discriminate].
  destruct (live e0 (now w)); now intros [= ->].
Qed.

Lemma get_actual_url_maps url timeout code w x w' :
  get_actual_url url timeout code w = Some (x, w') →
  m_url_info w' = m_url_info w
  ∧ (idle (m_scope_token w) → idle (m_scope_token w')).
Proof.
  rewrite get_actual_url_stages. cbv zeta.
  destruct (get_scope_auth url (remaining w timeout) w) as [[[[r0 authurl] scope] w1]|] eqn:E1;
    [|discriminate].
  pose proof (get_scope_auth_log _ _ _ _ _ E1) as (_ & T1 & U1 & _).
  destruct (r0 <? 0) eqn:Er.
  { intros H. inversion H; subst. rewrite T1, U1. auto. }
  destruct (acquire_scope_token url authurl scope _ code w1) as [[[token c2] w2]|] eqn:E2;
    [|discriminate].
  apply acquire_scope_token_worlds in E2
    as [(Hs & -> & -> & ->) | [(Hs & e & Hf & -> & -> & ->) | (Hs & Hf & ok & tok & wa & Ha & Hr)]];
    rewrite Hs; cbn [negb andb].
  - discriminate.
  - replace (negb (bool_decide (is_Some (Some (e_value e))))) with false
      by (symmetry; apply negb_false_iff, bool_decide_eq_true; eauto).
    rewrite reissue_run, url_info_of_response_run.
    unfold w_release_scope. rewrite Hs. cbn [negb].
    apply cache_find_lookup in Hf. cbn [c_get scope_token_cache] in Hf.
    intros H.
    assert (∃ p, w' = w_release scope_token_cache scope p
                        (after_call
                           (reissue_request url (e_value e)
                              (mkTimeout (sat_add (now w) timeout))
                              (w_hit scope_token_cache scope e w1))
                           (next_response (w_hit scope_token_cache scope e w1))
                           (w_hit scope_token_cache scope e w1))) as (p & ->).
    { repeat match type of H with
             | context [if ?b then _ else _] => destruct b
             end; inversion H; subst; eexists; reflexivity. }
    destruct (w_release_scope_token_maps scope p
                (after_call
                   (reissue_request url (e_value e)
                      (mkTimeout (sat_add (now w) timeout))
                      (w_hit scope_token_cache scope e w1))
                   (next_response (w_hit scope_token_cache scope e w1))
                   (w_hit scope_token_cache scope e w1))) as (Hu & Hi).
    split; [rewrite Hu; cbn; exact U1|].
    intros Hidle. apply Hi. cbn. apply held_hit; [now rewrite T1 | exact Hf].
  - pose proof (authenticate_log _ _ _ _ _ _ _ _ Ha) as (_ & Ta & Ua).
    cbn in Ta, Ua.
    destruct Hr as [(-> & -> & -> & ->) | (-> & -> & -> & ->)].
    + replace (negb (bool_decide (is_Some (Some tok)))) with false
        by (symmetry; apply negb_false_iff, bool_decide_eq_true; eauto).
      rewrite reissue_run, url_info_of_response_run.
      unfold w_release_scope. rewrite Hs. cbn [negb].
      intros H.
      assert (∃ p, w' = w_release scope_token_cache scope p
                          (after_call
                             (reissue_request url tok
                                (mkTimeout (sat_add (now w) timeout))
                                (w_installed scope_token_cache scope tok wa))
                             (next_response (w_installed scope_token_cache scope tok wa))
                             (w_installed scope_token_cache scope tok wa))) as (p & ->).
      { repeat match type of H with
               | context [if ?b then _ else _] => destruct b
               end; inversion H; subst; eexists; reflexivity. }
      destruct (w_release_scope_token_maps scope p
                  (after_call
                     (reissue_request url tok
                        (mkTimeout (sat_add (now w) timeout))
                        (w_installed scope_token_cache scope tok wa))
                     (next_response (w_installed scope_token_cache scope tok wa))
                     (w_installed scope_token_cache scope tok wa))) as (Hu & Hi).
      split; [rewrite Hu; cbn; rewrite Ua; exact U1|].
      intros Hidle. apply Hi. cbn. rewrite Ta. apply held_installed, idle_delete.
      now rewrite T1.
    + replace (negb (bool_decide (is_Some (@None string)))) with true
        by (symmetry; apply negb_true_iff, bool_decide_eq_false; intros [? ?]; discriminate).
      intros H. inversion H; subst. cbn. rewrite Ta, Ua.
      split; [exact U1|]. intros Hidle. apply idle_delete. now rewrite T1.
Qed.

Lemma get_data_idle url offset count timeout op w x w' :
  idle_world w →
  get_data url offset count timeout op w = Some (x, w') →
  idle_world w'.
Proof.
  intros [Ht Hu]. rewrite get_data_run. cbv zeta. unfold acquire.
  destruct (cache_find url_info_cache url w) as [e|] eqn:Hf.
  - apply cache_find_lookup in Hf. cbn [c_get url_info_cache] in Hf.
    intros H. injection H as _ <-.
    match goal with
    | |- idle_world (w_release url_info_cache url ?p ?w0) =>
        destruct (w_release_url_info_maps url p w0) as (Hs & Hi)
    end.
    split; [rewrite Hs; exact Ht|].
    apply Hi. cbn. now apply held_hit.
  - unfold_url_info_ctor. unfold_clock. munfold. cbn [m_expire].
    destruct (get_actual_url url _ 0 (w_miss url_info_cache url w))
      as [[[[ai|] code'] w1]|] eqn:E; [| |discriminate];
      apply get_actual_url_maps in E as (U1 & T1); cbn in U1, T1;
      intros H; injection H as _ <-.
    + match goal with
      | |- idle_world (w_release url_info_cache url ?p ?w0) =>
          destruct (w_release_url_info_maps url p w0) as (Hs & Hi)
      end.
      split; [rewrite Hs; cbn; now apply T1|].
      apply Hi. cbn. rewrite U1. now apply held_installed, idle_delete.
    + split; cbn; [now apply T1 | rewrite U1; now apply idle_delete].
Qed.


Lemma idle_world_errno e w : idle_world w → idle_world (w_errno e w).
Proof. exact (fun H => H). Qed.

Lemma failed_attempts_idle url tmo n w w0 :
  failed_attempts url tmo n w w0 → idle_world w → idle_world w0.
Proof.
  induction 1 as [w | n w ret op w1 w2 Hg Hok Ht Hrest IH]; [auto|].
  intros Hi. apply IH. exact (get_data_idle _ _ _ _ _ _ _ _ Hi Hg).
Qed.

Lemma failed_reads_idle url filesize tmo iov offset n w w0 :
  failed_reads url filesize tmo iov offset n w w0 → idle_world w → idle_world w0.
Proof.
  induction 1 as [w | n w ret op w1 w2 Hg Hok Ht Hrest IH]; [auto|].
  intros Hi. apply IH. exact (get_data_idle _ _ _ _ _ _ _ _ Hi Hg).
Qed.

Lemma get_length_idle f timeout w r w' :
  idle_world w → get_length f timeout w = Some (r, w') → idle_world w'.
Proof.
  intros Hi. unfold_get_length. unfold_clock. munfold. intros H.
  apply get_length_again_result in H as (n & w0 & ret & op & w1 & Hn & Hf & Hg & Hr).
  apply failed_attempts_idle in Hf; [|exact Hi].
  apply (get_data_idle _ _ _ _ _ _ _ _ Hf) in Hg.
  destruct (status_ok op); [now destruct Hr as [_ ->]|].
  destruct Hr as [_ Hr]. destruct (m_expire _ <? now w1); [now subst w'|].
  now destruct Hr as [_ ->].
Qed.

Lemma preadv_again_idle url filesize tmo iov offset retry w r w' :
  idle_world w → preadv_again url filesize tmo iov offset retry w = Some (r, w') →
  idle_world w'.
Proof.
  intros Hi H.
  apply preadv_again_attempts in H as (n & w0 & ret & op & w1 & Hn & Hf & Hg & Hr).
  apply failed_reads_idle in Hf; [|exact Hi].
  apply (get_data_idle _ _ _ _ _ _ _ _ Hf) in Hg.
  destruct (status_ok op); [now destruct Hr as [_ ->]|].
  destruct Hr as [_ Hr]. destruct (m_expire _ <? now w1); [now subst w'|].
  now destruct Hr as [_ ->].
Qed.

Lemma fstat_idle f buf w x w' :
  idle_world w → fstat f buf w = Some (x, w') → idle_world w'.
Proof.
  intros Hi. destruct (Z.eq_dec (m_filesize f) 0) as [Hz|Hz].
  - rewrite fstat_unknown by exact Hz.
    destruct (get_length f (m_timeout f) w) as [[r w1]|] eqn:E; [|discriminate].
    apply (get_length_idle _ _ _ _ _ Hi) in E.
    destruct (r <? 0); intros H; injection H as _ <-; exact E.
  - rewrite fstat_known by exact Hz. intros H. injection H as _ <-. exact Hi.
Qed.

Lemma preadv_idle f iov offset w x w' :
  idle_world w → preadv f iov offset w = Some (x, w') → idle_world w'.
Proof.
  intros Hi. destruct (Z.eq_dec (m_filesize f) 0) as [Hz|Hz].
  - unfold_preadv. rewrite Hz. change (0 =? 0) with true. cbv iota. munfold.
    destruct (fstat f (mkStat 0 0) w) as [[[[ret st] f1] w1]|] eqn:Ef; [|discriminate].
    apply (fstat_idle _ _ _ _ _ Hi) in Ef.
    destruct (ret <? 0) eqn:Er.
    + rewrite Er. intros H. injection H as _ <-. exact Ef.
    + rewrite Er. unfold_clock. munfold.
      match goal with
      | |- context [preadv_again ?u ?s ?t iov offset 3 w1] =>
          destruct (preadv_again u s t iov offset 3 w1) as [[r1 w2]|] eqn:E;
            [|discriminate]
      end.
      apply (preadv_again_idle _ _ _ _ _ _ _ _ _ Ef) in E.
      intros H. injection H as _ <-. exact E.
  - rewrite preadv_known by exact Hz.
    match goal with
    | |- context [preadv_again ?u ?s ?t iov offset 3 w] =>
        destruct (preadv_again u s t iov offset 3 w) as [[r1 w2]|] eqn:E; [|discriminate]
    end.
    apply (preadv_again_idle _ _ _ _ _ _ _ _ _ Hi) in E.
    intros H. injection H as _ <-. exact E.
Qed.

Lemma meta_ctor_idle fs_timeout path w x w' :
  idle_world w → meta_ctor fs_timeout path w = Some (x, w') → idle_world w'.
Proof.
  intros Hi. rewrite meta_ctor_run.
  destruct (get_length (mkFile path fs_timeout 0) fs_timeout w) as [[r w1]|] eqn:E1;
    [|discriminate].
  apply (get_length_idle _ _ _ _ _ Hi) in E1.
  destruct (r <? 0); [intros H; injection H as _ <-; exact E1|].
  destruct (wrap64 r =? 0); [|intros H; injection H as _ <-; exact E1].
  destruct (get_length (mkFile path fs_timeout 0) fs_timeout w1) as [[r2 w2]|] eqn:E2;
    [|discriminate].
  apply (get_length_idle _ _ _ _ _ E1) in E2.
  destruct (r2 <? 0); intros H; injection H as _ <-; exact E2.
Qed.

(** X20: no call leaks a reference. When no token and no resolved URL is
    held, none is held after [get_data], whichever way it ends; nor after
    any sequence of [fstat] and [preadv] on a file; nor after [stat], which
    also leaves no size held. *)
Theorem no_reference_leak :
  (∀ url offset count timeout op w x w',
     idle_world w → get_data url offset count timeout op w = Some (x, w') →
     idle_world w')
  ∧ (∀ ops f w x w',
       idle_world w → run_ops ops f w = Some (x, w') → idle_world w')
  ∧ (∀ fs_timeout path buf meta w ret st meta' w',
       idle meta → idle_world w →
       fs_stat fs_timeout path buf meta w = Some (ret, st, meta', w') →
       idle meta' ∧ idle_world w').
Proof.
  split; [exact get_data_idle|]. split.
  - intros ops. induction ops as [|o ops IH]; intros f w x w' Hi; simpl_run_ops.
    + intros H. injection H as _ <-. exact Hi.
    + destruct o as [|iov offset]; munfold.
      * destruct (fstat f (mkStat 0 0) w) as [[[[r st] f1] w1]|] eqn:Ef; [|discriminate].
        apply (fstat_idle _ _ _ _ _ Hi) in Ef.
        destruct (run_ops ops f1 w1) as [[[sizes f2] w2]|] eqn:E; [|discriminate].
        apply (IH _ _ _ _ Ef) in E. intros H. injection H as _ <-. exact E.
      * destruct (preadv f iov offset w) as [[[r f1] w1]|] eqn:Ep; [|discriminate].
        apply (preadv_idle _ _ _ _ _ _ Hi) in Ep.
        intros H. exact (IH _ _ _ _ Ep H).
  - intros fs_timeout path buf meta w ret st meta' w' Hm Hi. unfold_fs_stat.
    destruct (meta_find meta path (now w)) as [e|] eqn:Ef.
    + intros H. injection H as _ _ <- <-. split; [|exact Hi].
      unfold meta_find in Ef.
      destruct (meta !! path) as [e0|] eqn:Em; [|discriminate].
      destruct (live e0 (now w)); [|discriminate]. injection Ef as ->.
      apply (idle_after_release path false (now w)). now apply held_hit.
    + destruct (meta_ctor fs_timeout path w) as [[[v|] w1]|] eqn:Ec; [| |discriminate];
        apply (meta_ctor_idle _ _ _ _ _ Hi) in Ec;
        intros H; injection H as _ _ <- <-; (split; [|exact Ec]).
      * apply (idle_after_release path false (now w1)).
        now apply held_installed, idle_delete.
      * now apply idle_delete.
Qed.

End Properties.

(** ** The Authorization header of the blob GET *)

(** C2 fails on the code: the resolver stores the token behind the prefix
    [Bearer ] in [info], and [get_data] puts [Bearer ] in front of [info]
    again, so the header of the blob GET is [Bearer Bearer T], while the
    resolver's own second GET carries [Bearer T]. A Redirect-mode GET carries
    no Authorization header. *)
Theorem get_data_repeats_bearer :
  (∀ c T, bearer_info (Some (String c T)) = "Bearer " +:+ String c T) ∧
  (∀ url T accelerate offset count t,
     req_authorization
       (data_request url (mkUrlInfo Self ("Bearer " +:+ T)) accelerate offset count t)
     = Some ("Bearer Bearer " +:+ T)) ∧
  (∀ url location accelerate offset count t,
     req_authorization
       (data_request url (mkUrlInfo Redirect location) accelerate offset count t)
     = None) ∧
  (∃ op w',
     get_data Scenario.callback Scenario.base64 Scenario.json Scenario.url 0 1 1000
       HTTP_OP_new (Scenario.resolving 200 [Scenario.blob_reply 206 "0" 1048576])
     = Some ((0, op), w')
     ∧ requests (log w')
       = [(Scenario.url, None);
          (Scenario.authurl, Some "Basic dTpw");
          (Scenario.url, Some "Bearer T");
          (Scenario.url, Some "Bearer Bearer T")]).
Proof.
  split; [|split; [|split]].
  - reflexivity.
  - reflexivity.
  - reflexivity.
  - eexists _, _. split; vm_compute; reflexivity.
Qed.

(** ** The scenario, run *)

Ltac run := vm_compute; reflexivity.

(** The realm refuses: nothing is cached; the realm answers with a token
    under the member token. *)
Lemma token_acquisition_witness :
  (∃ w', acquire scope_token_cache Scenario.scope
           (token_ctor Scenario.callback Scenario.base64 Scenario.json Scenario.url
              Scenario.authurl (mkTimeout 1000)) 0
           (Scenario.world [Scenario.status_reply 403])
         = Some ((None, 401), w')
         ∧ m_scope_token w' !! Scenario.scope = None
         ∧ errno w' = EPERM)
  ∧ (∃ w', authenticate Scenario.base64 Scenario.json Scenario.authurl "u" "p" EmptyString
             1000 (Scenario.world [Scenario.token_reply])
           = Some ((true, "T"), w'))
  ∧ ∃ w', acquire scope_token_cache "p"
            (token_ctor Scenario.callback Scenario.base64 Scenario.json Small.path
               Scenario.authurl (mkTimeout 1000)) 0
            (Scenario.world [Scenario.token_reply])
          = Some ((Some "T", 0), w')
          ∧ m_scope_token w' !! "p" = Some (mkEntry "T" (5 + kMinimalTokenLife) 1 false).
Proof.
  destruct (token_acquisition Scenario.callback Scenario.base64 Scenario.json)
    as (_ & _ & C & D & E).
  split; [|split].
  - edestruct (D Scenario.url Scenario.authurl Scenario.scope (mkTimeout 1000) 0
                 (Scenario.world [Scenario.status_reply 403]))
      as (w' & H & Hm & He & _); [run | run |].
    exists w'. repeat split; assumption.
  - eexists.
    destruct (C Scenario.authurl "u" "p" EmptyString 1000
                (Scenario.world [Scenario.token_reply])) as (_ & _ & C3).
    edestruct (C3 [("token", JString "T")]) as (T1 & _); [run | run |].
    apply T1. run.
  - edestruct (E Small.path Scenario.authurl "p" (mkTimeout 1000) 0
                 (Scenario.world [Scenario.token_reply]))
      as (w' & H & Hm & _); [run | run |].
    exists w'. split; [exact H | exact Hm].
Defined.

(** The realm answers 200 with the body [[]]. *)
Lemma token_reply_not_type_checked_witness :
  authenticate Scenario.base64 Small.json Scenario.authurl "u" "p" EmptyString 1000
    (Scenario.world [mkResponse 200 [] Small.array_body (-1) 5])
  = None.
Proof.
  refine (proj1 (token_reply_not_type_checked Scenario.base64 Small.json
                   Scenario.authurl "u" "p" EmptyString 1000
                   (Scenario.world [mkResponse 200 [] Small.array_body (-1) 5]) _) _);
    run.
Defined.

Lemma scope_token_released_once_witness :
  ∃ r w',
    get_actual_url Scenario.callback Scenario.base64 Scenario.json Scenario.url 1000 0
      (Scenario.resolving 302 [])
    = Some ((r, 0), w')
    ∧ head (log w')
      = Some (EvRelease ScopeTokenCache Scenario.scope (negb (bool_decide (is_Some r)))).
Proof.
  edestruct (scope_token_released_once Scenario.callback Scenario.base64 Scenario.json
               Scenario.url 1000 0 (Scenario.resolving 302 []))
    as (r & w' & H & _ & L & _); [run | run |].
  exists r, w'. split; [exact H | now rewrite L].
Defined.

Lemma token_bearing_reget_witness :
  ∃ w', get_actual_url Scenario.callback Scenario.base64 Scenario.json Scenario.url 1000 0
          (Scenario.resolving 200 [])
        = Some ((Some (mkUrlInfo Self "Bearer T"), 0), w').
Proof.
  edestruct (token_bearing_reget Scenario.callback Scenario.base64 Scenario.json
               Scenario.url 1000 0 (Scenario.resolving 200 []))
    as (H & _); [run | run |].
  eexists. apply H. run.
Defined.

(** C4 as stated fails: the second GET answered 206 ends the resolver with
    a null result and a poisoned release. *)
Lemma reget_206_fails :
  ∃ w', get_actual_url Scenario.callback Scenario.base64 Scenario.json Scenario.url 1000 0
          (Scenario.resolving 206 [])
        = Some ((None, 0), w')
        ∧ head (log w') = Some (EvRelease ScopeTokenCache Scenario.scope true)
        ∧ m_scope_token w' !! Scenario.scope = None.
Proof. eexists. repeat split; run. Qed.

(** A public blob: the probe is answered 206 with no challenge. *)
Lemma unchallenged_probe_reads_null_token_witness :
  status_code (next_response Scenario.public) = 206
  ∧ headers_find kDockerRegistryAuthChallengeKeyValuePrefix
      (resp_headers (next_response Scenario.public)) = None
  ∧ get_actual_url Scenario.callback Scenario.base64 Scenario.json Scenario.url 1000 0
      Scenario.public
    = None.
Proof.
  split; [reflexivity|]. split; [reflexivity|].
  refine (proj2 (proj2 (proj2
            (unchallenged_probe_reads_null_token Scenario.callback Scenario.base64
               Scenario.json Scenario.url 1000 0 Scenario.public _ _ _))));
    discriminate.
Defined.

(** The first [get_data] of a public blob. *)
Lemma get_data_unchallenged_probe_witness :
  get_data Scenario.callback Scenario.base64 Scenario.json Scenario.url 0 1 1000
    HTTP_OP_new Scenario.public
  = None.
Proof.
  apply get_data_unchallenged_probe; [run | discriminate | discriminate | discriminate].
Defined.

(** The blob GET answered 500 after a good resolution, and a resolution
    whose token the realm refuses. *)
Lemma get_data_return_code_witness :
  (∃ op w',
     get_data Scenario.callback Scenario.base64 Scenario.json Scenario.url 0 1 1000
       HTTP_OP_new (Scenario.resolving 200 [Scenario.status_reply 500])
     = Some ((0, op), w')
     ∧ status_code op = 500
     ∧ head (log w') = Some (EvRelease UrlInfoCache Scenario.url true))
  ∧ ∃ w' new,
      get_data Scenario.callback Scenario.base64 Scenario.json Scenario.url 0 1 1000
        HTTP_OP_new Scenario.refused
      = Some ((401, HTTP_OP_new), w')
      ∧ log w' = new ++ []
      ∧ ∃ scope, In (EvCtorFailed ScopeTokenCache scope) new.
Proof.
  split.
  - edestruct (get_data_return_code Scenario.callback Scenario.base64 Scenario.json
                 Scenario.url 0 1 1000 HTTP_OP_new
                 (Scenario.resolving 200 [Scenario.status_reply 500]) 0
                 (Scenario.status_reply 500))
      as (new & L & _ & _ & _ & [(E & _) | (_ & rq & new' & E & _)]); [run | |].
    + discriminate E.
    + eexists _, _. split; [run|]. split; [reflexivity|].
      rewrite L, E. reflexivity.
  - edestruct (get_data_return_code Scenario.callback Scenario.base64 Scenario.json
                 Scenario.url 0 1 1000 HTTP_OP_new Scenario.refused 401 HTTP_OP_new)
      as (new & L & Hc & _); [run |].
    eexists _, new. split; [run|]. split; [exact L|]. now apply Hc.
Defined.

(** Four attempts answered 401, 401, 401 and 500: the last one decides, and
    the errno is ENOENT. *)
Lemma get_length_last_attempt_decides_witness :
  ∃ w', get_length Scenario.callback Scenario.base64 Scenario.json
          (mkFile Small.path UINT64_MAX 0) 1000
          (Small.resolving
             [Scenario.status_reply 401;
              Small.challenge; Scenario.status_reply 200; Scenario.status_reply 401;
              Small.challenge; Scenario.status_reply 200; Scenario.status_reply 401;
              Small.challenge; Scenario.status_reply 200; Scenario.status_reply 500])
        = Some (-1, w')
        ∧ errno w' = ENOENT.
Proof.
  destruct (get_length_last_attempt_decides Scenario.callback Scenario.base64 Scenario.json
              (mkFile Small.path UINT64_MAX 0) 1000
              (Small.resolving
                 [Scenario.status_reply 401;
                  Small.challenge; Scenario.status_reply 200; Scenario.status_reply 401;
                  Small.challenge; Scenario.status_reply 200; Scenario.status_reply 401;
                  Small.challenge; Scenario.status_reply 200; Scenario.status_reply 500]))
    as (A & _).
  eexists. split.
  - etransitivity.
    + eapply (A 3%nat). split; [lia|]. split; [|split; [|right; right; reflexivity]].
      * eapply failed_more; [run | run | run |].
        eapply failed_more; [run | run | run |].
        eapply failed_more; [run | run | run |].
        apply failed_none.
      * run.
    + run.
  - run.
Defined.

(** C7 as stated fails: of four attempts answered 500, 500, 500 and 401 no
    401 persists over the retries, the failure is repeated, and the errno is
    EPERM where the claim has ENOENT. *)
Lemma one_last_401_gives_EPERM :
  ∃ w', get_length Scenario.callback Scenario.base64 Scenario.json
          (mkFile Small.path UINT64_MAX 0) 1000
          (Small.resolving
             [Scenario.status_reply 500;
              Small.challenge; Scenario.status_reply 200; Scenario.status_reply 500;
              Small.challenge; Scenario.status_reply 200; Scenario.status_reply 500;
              Small.challenge; Scenario.status_reply 200; Scenario.status_reply 401])
        = Some (-1, w')
        ∧ blob_get_statuses (log w') = [500; 500; 500; 401]
        ∧ errno w' = EPERM.
Proof. eexists. split; [run | split; run]. Qed.

Lemma filesize_fixed_once_known_witness :
  (∃ w', run_ops Scenario.callback Scenario.base64 Scenario.json
           [OpFstat; OpPreadv [4] 0; OpFstat] (Scenario.file 1048576)
           (Scenario.world [])
         = Some (([1048576; 1048576], Scenario.file 1048576), w'))
  ∧ ∃ st w', fstat Scenario.callback Scenario.base64 Scenario.json (Scenario.file 0)
               (mkStat 0 0)
               (Scenario.resolving 200 [Scenario.blob_reply 206 "0" 1048576])
             = Some ((0, st, Scenario.file 1048576), w')
             ∧ st_size st = 1048576.
Proof.
  destruct (filesize_fixed_once_known Scenario.callback Scenario.base64 Scenario.json)
    as (_ & A & B & _).
  split.
  - edestruct (A [OpFstat; OpPreadv [4] 0; OpFstat] (Scenario.file 1048576)
                 (Scenario.world [])) as (_ & _); [discriminate | run |].
    eexists. run.
  - edestruct (B (Scenario.file 0) (mkStat 0 0)
                 (Scenario.resolving 200 [Scenario.blob_reply 206 "0" 1048576]))
      as (r & _ & _ & _); [reflexivity | run |].
    eexists _, _. split; run.
Defined.

(** C5 as stated fails for a size of 0: of two calls of [fstat] on one file
    of a blob of size 0, both returning 0, the second asks the server again
    and assigns the field again; when the server then answers 5, the two
    [st_size] are 0 and 5. *)
Lemma size_zero_is_asked_again :
  (∃ f' w',
     run_ops Scenario.callback Scenario.base64 Scenario.json [OpFstat; OpFstat]
       (Scenario.file 0)
       (Scenario.resolving 200
          [Scenario.blob_reply 206 EmptyString 0; Scenario.blob_reply 206 EmptyString 0])
     = Some (([0; 0], f'), w')
     ∧ length (requests (log w')) = 5%nat)
  ∧ ∃ f' w',
      run_ops Scenario.callback Scenario.base64 Scenario.json [OpFstat; OpFstat]
        (Scenario.file 0)
        (Scenario.resolving 200
           [Scenario.blob_reply 206 EmptyString 0; Scenario.blob_reply 206 EmptyString 5])
      = Some (([0; 5], f'), w').
Proof. split; [eexists _, _; split; run | eexists _, _; run]. Qed.

Lemma preadv_clamp_witness :
  clamp_count [4] 8 10 = 2
  ∧ ∃ w', preadv Scenario.callback Scenario.base64 Scenario.json (Scenario.file 10) [4] 8
            (Scenario.resolving 200 [Scenario.blob_reply 206 "89" 10])
          = Some ((2, Scenario.file 10), w')
          ∧ requests (log w') !! 3%nat = Some (Scenario.url, Some "Bearer Bearer T").
Proof.
  destruct (preadv_clamp Scenario.callback Scenario.base64 Scenario.json) as (A & B).
  split.
  - rewrite (A [4] 8 10); [reflexivity | lia | lia | simpl; lia | simpl; lia].
  - edestruct (B (Scenario.file 10) [4] 8
                 (Scenario.resolving 200 [Scenario.blob_reply 206 "89" 10]) 2)
      as (_ & rq & op & before & _); [discriminate | run | discriminate |].
    eexists. split; run.
Defined.

(** C3 as stated fails at the end of the file: with a size of 10, a call
    for 4 bytes at offset 10 asks the server for the range 10-9 and returns
    the 4 bytes of the body it is sent, where min(4, 10 - 10) is 0. *)
Lemma preadv_at_end_of_file :
  Z.min 4 (Z.max 0 (10 - 10)) = 0
  ∧ ∃ rq op w',
      preadv Scenario.callback Scenario.base64 Scenario.json (Scenario.file 10) [4] 10
        (Scenario.resolving 200 [Scenario.blob_reply 200 "0123456789" 10])
      = Some ((4, Scenario.file 10), w')
      ∧ log w' !! 1%nat = Some (EvHttp rq op)
      ∧ req_range rq = Some (10, 9).
Proof. split; [reflexivity|]. eexists _, _, _. repeat split; run. Qed.


(** ** Further properties at work *)

(** No server: the probe fails, nothing is cached. *)
Lemma connection_failure_not_cached_witness :
  ∃ w', get_data Scenario.callback Scenario.base64 Scenario.json Scenario.url 0 1 1000
          HTTP_OP_new (Scenario.world [])
        = Some ((0, HTTP_OP_new), w')
        ∧ errno w' = ENOENT
        ∧ m_url_info w' !! Scenario.url = None.
Proof.
  edestruct (connection_failure_not_cached Scenario.callback Scenario.base64 Scenario.json
               Scenario.url 0 1 1000 HTTP_OP_new (Scenario.world []))
    as (rq & w' & H & _ & _ & _ & _ & He & Hm & _); [run | run |].
  exists w'. repeat split; assumption.
Defined.

(** A challenge whose scheme is written in lower case. *)
Lemma unparsed_challenge_stops_resolver_witness :
  ∃ w', get_actual_url Scenario.callback Scenario.base64 Scenario.json Scenario.url 1000 0
          (Scenario.world [Scenario.lower_challenge])
        = Some ((None, 0), w')
        ∧ errno w' = EINVAL.
Proof.
  edestruct (unparsed_challenge_stops_resolver Scenario.callback Scenario.base64
               Scenario.json Scenario.url 1000 0 (Scenario.world [Scenario.lower_challenge]))
    as (w' & H & _ & He & _);
    [left; run | right; eexists; split; run |].
  exists w'. split; assumption.
Defined.

(** A full resolution: probe, token request with the credentials, second
    GET with the token. *)
Lemma resolution_requests_witness :
  ∃ w',
    get_actual_url Scenario.callback Scenario.base64 Scenario.json Scenario.url 1000 0
      (Scenario.resolving 200 [])
    = Some ((Some (mkUrlInfo Self "Bearer T"), 0), w')
    ∧ requests (log w')
      = [(Scenario.url, None); (Scenario.authurl, Some "Basic dTpw");
         (Scenario.url, Some "Bearer T")].
Proof.
  edestruct (resolution_requests Scenario.callback Scenario.base64 Scenario.json
               Scenario.url 1000 0 (Scenario.resolving 200 []))
    as (new & _ & _); [run|].
  eexists. split; run.
Defined.

(** The cached token of the scope goes into the second GET. *)
Lemma cached_token_reused_witness :
  ∃ r w',
    get_actual_url Scenario.callback Scenario.base64 Scenario.json Scenario.url 1000 0
      (Warm.token [Scenario.challenge; Scenario.status_reply 200])
    = Some ((r, 0), w')
    ∧ requests (log w') = [(Scenario.url, None); (Scenario.url, Some "Bearer T")].
Proof.
  edestruct (cached_token_reused Scenario.callback Scenario.base64 Scenario.json
               Scenario.url 1000 0
               (Warm.token [Scenario.challenge; Scenario.status_reply 200]))
    as (r & w' & H & L & _); [left; run | run | run | run | run | run |].
  exists r, w'. split; [exact H|]. rewrite L. run.
Defined.

(** The second GET answered 500: the fresh token is dropped. *)
Lemma failed_reget_evicts_token_witness :
  ∃ w', get_actual_url Scenario.callback Scenario.base64 Scenario.json Scenario.url 1000 0
          (Scenario.resolving 500 [])
        = Some ((None, 0), w')
        ∧ m_scope_token w' !! Scenario.scope = None.
Proof.
  edestruct (failed_reget_evicts_token Scenario.callback Scenario.base64 Scenario.json
               Scenario.url 1000 0 (Scenario.resolving 500 []))
    as (w' & H & Hm & _);
    [run | run
     | intros e He; vm_compute in He; discriminate He
     | intros [_ Hlt]; vm_compute in Hlt; discriminate Hlt
     | intros Heq; vm_compute in Heq; discriminate Heq |].
  exists w'. split; [exact H|]. revert Hm. vm_compute. exact (fun x => x).
Defined.


(** The blob GET answered 500: the next call probes again. *)
Lemma failed_get_resolves_again_witness :
  ∃ op w',
    get_data Scenario.callback Scenario.base64 Scenario.json Scenario.url 0 1 1000
      HTTP_OP_new (Scenario.resolving 200 [Scenario.status_reply 500])
    = Some ((0, op), w')
    ∧ m_url_info w' !! Scenario.url = None.
Proof.
  edestruct (failed_get_resolves_again Scenario.callback Scenario.base64 Scenario.json
               Scenario.url 0 1 1000 HTTP_OP_new
               (Scenario.resolving 200 [Scenario.status_reply 500]))
    as (Hm & _); [run | run | intros e He; vm_compute in He; discriminate He |].
  eexists _, _. split; [run|]. exact Hm.
Defined.

(** A redirected blob behind an accelerator. *)
Lemma accelerator_rewrites_blob_get_witness :
  ∃ w0 rq w',
    setAccelerateAddress "http://p2p" (Warm.redirected [Scenario.blob_reply 206 "0123" 10])
    = Some (0, w0)
    ∧ get_data Scenario.callback Scenario.base64 Scenario.json Scenario.url 0 4 1000
        HTTP_OP_new w0
      = Some ((0, Scenario.blob_reply 206 "0123" 10), w')
    ∧ log w' !! 1%nat = Some (EvHttp rq (Scenario.blob_reply 206 "0123" 10))
    ∧ req_url rq = "http://p2p/https://cdn/sha256:abc"
    ∧ req_authorization rq = None.
Proof.
  edestruct (accelerator_rewrites_blob_get Scenario.callback Scenario.base64 Scenario.json
               Scenario.url "http://p2p" 0 4 1000 HTTP_OP_new
               (Warm.redirected [Scenario.blob_reply 206 "0123" 10]))
    as (w0 & H0 & _ & _ & rq & w' & H & L & Hu & _ & Ha); [run|].
  exists w0, rq, w'. split; [exact H0|]. split; [exact H|].
  split; [rewrite L; reflexivity|]. split; [rewrite Hu; run | apply Ha; run].
Defined.

(** Two bytes at the end of a blob of ten, from the first attempt. *)
Lemma preadv_attempts_witness :
  ∃ w', preadv Scenario.callback Scenario.base64 Scenario.json (Scenario.file 10) [4] 8
          (Scenario.resolving 200 [Scenario.blob_reply 206 "89" 10])
        = Some ((2, Scenario.file 10), w').
Proof.
  edestruct (preadv_attempts Scenario.callback Scenario.base64 Scenario.json
               (Scenario.file 10) [4] 8
               (Scenario.resolving 200 [Scenario.blob_reply 206 "89" 10]) 2)
    as (n & w0 & ret & op & w1 & _); [discriminate | run |].
  eexists. run.
Defined.

Lemma preadv_range_inside_file_witness :
  ∃ rq op before w',
    preadv Scenario.callback Scenario.base64 Scenario.json (Scenario.file 10) [4] 8
      (Scenario.resolving 200 [Scenario.blob_reply 206 "89" 10])
    = Some ((2, Scenario.file 10), w')
    ∧ log w' = EvRelease UrlInfoCache Scenario.url false :: EvHttp rq op :: before
    ∧ req_range rq = Some (8, 9).
Proof.
  edestruct (preadv_range_inside_file Scenario.callback Scenario.base64 Scenario.json
               (Scenario.file 10) [4] 8
               (Scenario.resolving 200 [Scenario.blob_reply 206 "89" 10]) 2)
    as (rq & op & before & last & L & Hr & Hb & Hl);
    [simpl; lia | simpl; lia | simpl; lia | simpl; lia | run | discriminate |].
  simpl in Hb, Hl.
  assert (last = 9) as -> by lia.
  eexists rq, op, before, _. split; [run|]. split; [exact L | exact Hr].
Defined.

(** A scope of two actions. *)
Lemma comma_cuts_quoted_scope_witness :
  challenge_auth
    (Scenario.format_challenge Scenario.realm Scenario.service
       ("repository:foo:pull" +:+ "," +:+ "push"))
  = Some (Scenario.realm +:+ "?service=" +:+ Scenario.service +:+ "&scope="
            +:+ "repository:foo:pull",
          "repository:foo:pull").
Proof.
  apply comma_cuts_quoted_scope; [run | run | run | split; run | split; run | split; run].
Defined.

Lemma space_after_comma_refused_witness :
  challenge_auth
    ("Bearer realm=" +:+ Scenario.quoted Scenario.realm
       +:+ ", service=" +:+ Scenario.quoted Scenario.service
       +:+ ",scope=" +:+ Scenario.quoted Scenario.scope)
  = None.
Proof. apply space_after_comma_refused; run. Defined.

Lemma kvmap_entries_clean_witness :
  has_char EString.comma Scenario.scope = false
  ∧ EString.ltrim EString.dquote Scenario.scope = Scenario.scope.
Proof.
  edestruct (kvmap_entries_clean
               (Scenario.format_challenge Scenario.realm Scenario.service Scenario.scope)
               "scope" Scenario.scope) as (_ & _ & Hc & Hl & _); [run|].
  split; assumption.
Defined.

(** Opening a blob of a megabyte. *)
Lemma open_result_witness :
  ∃ w', open Scenario.callback Scenario.base64 Scenario.json 1000 Small.path
          (Small.resolving [Scenario.blob_reply 206 "0" 1048576])
        = Some (Some (mkFile Small.path 1000 1048576), w').
Proof.
  edestruct (open_result Scenario.callback Scenario.base64 Scenario.json 1000 Small.path
               (Small.resolving [Scenario.blob_reply 206 "0" 1048576]))
    as (r & _ & _ & _); [run|].
  eexists. run.
Defined.

(** The first [stat] of a blob of a megabyte, and of an empty blob that the
    server measures a second time. *)
Lemma stat_miss_witness :
  (∃ meta' w',
     fs_stat Scenario.callback Scenario.base64 Scenario.json 1000 Small.path (mkStat 0 0) ∅
       (Small.resolving [Scenario.blob_reply 206 "0" 1048576])
     = Some (0, mkStat (S_IFREG + S_IREAD) 1048576, meta', w')
     ∧ meta' !! Small.path = Some (mkEntry 1048576 (now w' + kMinimalMetaLife) 0 false))
  ∧ ∃ meta' w',
      fs_stat Scenario.callback Scenario.base64 Scenario.json 1000 Small.path (mkStat 0 0) ∅
        (Small.resolving
           [Scenario.blob_reply 206 EmptyString 0; Scenario.blob_reply 206 "0" 7])
      = Some (0, mkStat (S_IFREG + S_IREAD) 7, meta', w').
Proof.
  split.
  - edestruct (stat_miss Scenario.callback Scenario.base64 Scenario.json 1000 Small.path
                 (mkStat 0 0) ∅
                 (Small.resolving [Scenario.blob_reply 206 "0" 1048576]))
      as (r & w1 & _); [run | run |].
    eexists _, _. split; run.
  - edestruct (stat_miss Scenario.callback Scenario.base64 Scenario.json 1000 Small.path
                 (mkStat 0 0) ∅
                 (Small.resolving
                    [Scenario.blob_reply 206 EmptyString 0; Scenario.blob_reply 206 "0" 7]))
      as (r & w1 & _); [run | run |].
    eexists _, _. run.
Defined.

(** The second [stat] needs no server. *)
Lemma stat_answers_from_cache_witness :
  ∃ st meta1 w1,
    fs_stat Scenario.callback Scenario.base64 Scenario.json 1000 Small.path (mkStat 0 0) ∅
      (Small.resolving [Scenario.blob_reply 206 "0" 1048576])
    = Some (0, st, meta1, w1)
    ∧ script w1 = []
    ∧ fs_stat Scenario.callback Scenario.base64 Scenario.json 1000 Small.path (mkStat 0 0)
        meta1 w1
      = Some (0, st, meta1, w1).
Proof.
  edestruct (stat_answers_from_cache Scenario.callback Scenario.base64 Scenario.json 1000
               Small.path (mkStat 0 0) ∅
               (Small.resolving [Scenario.blob_reply 206 "0" 1048576]))
    as (Hsame & _); [intros e He; vm_compute in He; discriminate He | run |].
  eexists _, _, _. split; [run|]. split; [run|].
  apply Hsame. reflexivity.
Defined.

(** No server: [stat] fails and stores nothing. *)
Lemma stat_failure_not_cached_witness :
  ∃ meta1 w1,
    fs_stat Scenario.callback Scenario.base64 Scenario.json 1000 Small.path (mkStat 7 7) ∅
      (Scenario.world [])
    = Some (-1, mkStat 7 7, meta1, w1)
    ∧ meta1 !! Small.path = None.
Proof.
  edestruct (stat_failure_not_cached Scenario.callback Scenario.base64 Scenario.json 1000
               Small.path (mkStat 7 7) ∅ (Scenario.world []))
    as (_ & Hm & _); [run|].
  eexists _, _. split; [run | exact Hm].
Defined.





(** A read that resolves the blob, fails once and is served: nothing is
    held afterwards. *)
Lemma no_reference_leak_witness :
  ∃ x w', run_ops Scenario.callback Scenario.base64 Scenario.json
            [OpFstat; OpPreadv [4] 8] (mkFile Small.path UINT64_MAX 0)
            (Small.resolving
               [Scenario.blob_reply 206 "0" 10; Scenario.status_reply 500;
                Small.challenge; Scenario.status_reply 200;
                Scenario.blob_reply 206 "89" 10])
          = Some (x, w')
          ∧ idle_world w'.
Proof.
  destruct (no_reference_leak Scenario.callback Scenario.base64 Scenario.json)
    as (_ & A & _).
  eexists _, _. split; [run|].
  eapply (A [OpFstat; OpPreadv [4] 8] (mkFile Small.path UINT64_MAX 0)
            (Small.resolving
               [Scenario.blob_reply 206 "0" 10; Scenario.status_reply 500;
                Small.challenge; Scenario.status_reply 200;
                Scenario.blob_reply 206 "89" 10]));
    [split; intros k e H; unfold Small.resolving, Scenario.world in H;
     cbn [m_scope_token m_url_info] in H; rewrite lookup_empty in H; discriminate H
    | run].
Defined.
